(** * Entry balancing and automated-entry expansion (entry.cc)

    A shallow embedding of [entry_base_t::finalize], [entry_t::get_state],
    [entry_base_t::add_xact] / [remove_xact], [auto_entry_t::extend_entry]
    and [extend_entry_base], of the copy constructors and the destructor of
    [entry_base_t] and [entry_t], and of [entry_t::add_xact], [lookup] and
    [valid].

    Postings ([xact_t]) are heap objects referred to by pointers; an entry
    holds a list of such pointers ([xacts_list] is [std::list<xact_t *>]).
    The embedding therefore threads a store of postings together with the
    entry being worked on, and C++ exceptions and failed assertions are
    explicit outcomes that keep the store reached so far. *)

From Stdlib Require Import QArith Qround Qabs.
Close Scope Q_scope.
From stdpp Require Import base option list gmap strings.

Set Default Proof Using "Type".

(** ** External collaborators

    The arithmetic on amounts and values, commodities, their exchange
    and accounts live in other translation units.  [entry.cc] only calls
    them, so they are an interface here; [RationalLedger] below gives one
    implementation of it. *)

Class Collaborators := {
  (** [commodity_t]: identity of a commodity (annotated commodities are
      commodities of their own); [null_commodity] is the commodity of an
      amount that carries none, the one on which [operator bool] is false. *)
  commodity_t : Type;
  commodity_eq_dec :: EqDecision commodity_t;
  null_commodity : commodity_t;
  (** [amount_t] and the members of it that entry.cc calls. *)
  amount_t : Type;
  null_amount : amount_t;                          (* amount_t() *)
  amt_is_null : amount_t → bool;                   (* is_null() *)
  amt_is_realzero : amount_t → bool;               (* is_realzero() *)
  amt_nonzero : amount_t → bool;                   (* operator bool *)
  amt_commodity : amount_t → commodity_t;          (* commodity() *)
  amt_commodity_annotated : amount_t → bool;       (* commodity_annotated() *)
  amt_annotation_price : amount_t → option amount_t; (* annotation_details().price *)
  amt_negate : amount_t → amount_t;                (* negate() *)
  amt_abs : amount_t → amount_t;                   (* abs() *)
  amt_mul : amount_t → amount_t → amount_t;        (* operator* *)
  amt_div : amount_t → amount_t → amount_t;        (* operator/ *)
  amt_sub : amount_t → amount_t → amount_t;        (* operator- *)
  (** Accounts and dates. *)
  account_t : Type;
  fullname : account_t → string;                   (* account_t::fullname() *)
  date_t : Type;
}.

Section Ledger.
Context `{Collaborators}.

(** [balance_t::amounts] is a [std::map] from commodity to amount; it is
    kept as the list of its bindings in iteration order. *)
Definition amounts_map : Type := list (commodity_t * amount_t).

(** The kinds of [value_t] that the running balance of [finalize] takes. *)
Inductive value_t : Type :=
| NULL_VALUE
| AMOUNT (a : amount_t)
| BALANCE (amounts : amounts_map).

Definition value_is_null (v : value_t) : bool :=
  match v with NULL_VALUE => true | _ => false end.

(** The members of [value_t] that compute, and [commodity_t::exchange]. *)
Class ValueOps := {
  value_add : value_t → amount_t → value_t;        (* operator+= *)
  value_sub : value_t → amount_t → value_t;        (* operator-= *)
  value_round : value_t → value_t;                 (* round() *)
  value_is_zero : value_t → bool;                  (* is_zero() *)
  value_valid : value_t → bool;                    (* valid() *)
  (** [exchange amount cost moment tag] gives the annotated amount, the
      final cost and the basis cost. *)
  exchange : amount_t → amount_t → date_t → option string →
             amount_t * amount_t * amount_t;
  (** [xact_t::actual_date()], from the posting's own date and the date of
      the entry it belongs to. *)
  actual_date : option date_t → option date_t → date_t;
}.

(** ** Postings

    The back-reference of a posting to its entry is left out: [finalize]
    works on the entry that holds the posting, and [actual_date] is given
    the date of that entry. *)

Definition xact_ptr : Type := positive.

Inductive state_t : Type := UNCLEARED | CLEARED | PENDING.

#[global] Instance state_eq_dec : EqDecision state_t.
Proof. solve_decision. Defined.

(** Modelled from the spec: the posting flags declared in xact.h, which is
    not among the sources; they are independent boolean facets, and a
    virtual posting is one that does not count toward the balance. *)
Record xact_flags : Type := {
  f_virtual : bool;
  f_auto : bool;
  f_in_cache : bool;
  f_calculated : bool;
  f_generated : bool;
  f_temp : bool;
}.

#[global] Instance xact_flags_eq_dec : EqDecision xact_flags.
Proof. solve_decision. Defined.

Definition XACT_NORMAL : xact_flags :=
  {| f_virtual := false; f_auto := false; f_in_cache := false;
     f_calculated := false; f_generated := false; f_temp := false |}.

Definition XACT_GENERATED : xact_flags :=
  {| f_virtual := false; f_auto := false; f_in_cache := false;
     f_calculated := false; f_generated := true; f_temp := false |}.

Definition XACT_CALCULATED : xact_flags :=
  {| f_virtual := false; f_auto := false; f_in_cache := false;
     f_calculated := true; f_generated := false; f_temp := false |}.

Definition XACT_AUTO : xact_flags :=
  {| f_virtual := false; f_auto := true; f_in_cache := false;
     f_calculated := false; f_generated := false; f_temp := false |}.

(** [a | b] on flag words. *)
Definition flags_or (a b : xact_flags) : xact_flags :=
  {| f_virtual := f_virtual a || f_virtual b;
     f_auto := f_auto a || f_auto b;
     f_in_cache := f_in_cache a || f_in_cache b;
     f_calculated := f_calculated a || f_calculated b;
     f_generated := f_generated a || f_generated b;
     f_temp := f_temp a || f_temp b |}.

Record xact_t : Type := {
  account : account_t;
  amount : amount_t;
  cost : option amount_t;
  state : state_t;
  _date : option date_t;
  _date_eff : option date_t;
  note : option string;
  beg_pos : Z;
  beg_line : Z;
  end_pos : Z;
  end_line : Z;
  flags : xact_flags;
}.

Definition set_amount (a : amount_t) (x : xact_t) : xact_t :=
  {| account := account x; amount := a; cost := cost x; state := state x;
     _date := _date x; _date_eff := _date_eff x; note := note x;
     beg_pos := beg_pos x; beg_line := beg_line x;
     end_pos := end_pos x; end_line := end_line x; flags := flags x |}.

Definition set_cost (c : option amount_t) (x : xact_t) : xact_t :=
  {| account := account x; amount := amount x; cost := c; state := state x;
     _date := _date x; _date_eff := _date_eff x; note := note x;
     beg_pos := beg_pos x; beg_line := beg_line x;
     end_pos := end_pos x; end_line := end_line x; flags := flags x |}.

Definition set_state (s : state_t) (x : xact_t) : xact_t :=
  {| account := account x; amount := amount x; cost := cost x; state := s;
     _date := _date x; _date_eff := _date_eff x; note := note x;
     beg_pos := beg_pos x; beg_line := beg_line x;
     end_pos := end_pos x; end_line := end_line x; flags := flags x |}.

(** [add_flags] of [supports_flags<>]. *)
Definition add_flags (f : xact_flags) (x : xact_t) : xact_t :=
  {| account := account x; amount := amount x; cost := cost x; state := state x;
     _date := _date x; _date_eff := _date_eff x; note := note x;
     beg_pos := beg_pos x; beg_line := beg_line x;
     end_pos := end_pos x; end_line := end_line x;
     flags := flags_or (flags x) f |}.

(** Modelled from the spec: the constructors [xact_t(account, flags)] and
    [xact_t(account, amount, flags)] of xact.h, which is not among the
    sources; a fresh posting has the given members, no cost, no dates, no
    note and the uncleared state. *)
Definition new_xact (acct : account_t) (amt : amount_t) (f : xact_flags) : xact_t :=
  {| account := acct; amount := amt; cost := None; state := UNCLEARED;
     _date := None; _date_eff := None; note := None;
     beg_pos := 0; beg_line := 0; end_pos := 0; end_line := 0; flags := f |}.

(** Modelled from the spec: [xact_t::must_balance()] of xact.h, which is not
    among the sources; virtual postings are excluded from the balance. *)
Definition must_balance (x : xact_t) : bool := negb (f_virtual (flags x)).

(** ** Entries, automated entries, the journal *)

Record auto_entry_t : Type := {
  predicate : xact_t → bool;
  auto_xacts : list xact_ptr;     (* the inherited [xacts]: the templates *)
}.

Record journal_t : Type := {
  basket : option account_t;
  auto_entries : list auto_entry_t;
}.

(** The members of [entry_t] on top of [entry_base_t]. *)
Record entry_part : Type := {
  e_date : option date_t;
  e_date_eff : option date_t;
  code : option string;
  payee : string;
}.

Record entry_base_t : Type := {
  entry_flags : Z;                     (* supports_flags<> *)
  journal : option journal_t;
  e_beg_pos : Z;
  e_beg_line : Z;
  e_end_pos : Z;
  e_end_line : Z;
  xacts : list xact_ptr;
  as_entry : option entry_part;        (* dynamic_cast<entry_t *>(this) *)
}.

Definition set_xacts (xs : list xact_ptr) (e : entry_base_t) : entry_base_t :=
  {| entry_flags := entry_flags e; journal := journal e;
     e_beg_pos := e_beg_pos e; e_beg_line := e_beg_line e;
     e_end_pos := e_end_pos e; e_end_line := e_end_line e;
     xacts := xs; as_entry := as_entry e |}.

(** ** Exceptions *)

Inductive context_t : Type :=
| entry_context (e : entry_base_t) (desc : string)
| value_context (v : value_t) (desc : string).

Inductive exception : Type :=
| logic_error (what : string)
| balance_error (what : string) (context : list context_t)
| assertion_failure
| invalid_pointer.

(** ** The store and the computations over it *)

Record world : Type := {
  heap : gmap xact_ptr xact_t;
  this : entry_base_t;
}.

Inductive result (A : Type) : Type :=
| Ok (a : A)
| Throw (e : exception).
Arguments Ok {A} a.
Arguments Throw {A} e.

Definition M (A : Type) : Type := world → result A * world.

Definition ret {A} (a : A) : M A := λ w, (Ok a, w).

Definition bind {A B} (m : M A) (k : A → M B) : M B :=
  λ w, match m w with
       | (Ok a, w') => k a w'
       | (Throw e, w') => (Throw e, w')
       end.

Definition throw {A} (e : exception) : M A := λ w, (Throw e, w).

Definition assert (b : bool) : M unit :=
  if b then ret tt else throw assertion_failure.

(** [*p] *)
Definition deref (p : xact_ptr) : M xact_t :=
  λ w, match heap w !! p with
       | Some x => (Ok x, w)
       | None => (Throw invalid_pointer, w)
       end.

(** [*p = x] *)
Definition store (p : xact_ptr) (x : xact_t) : M unit :=
  λ w, (Ok tt, {| heap := <[p := x]> (heap w); this := this w |}).

(** [new xact_t(...)]: the address is one that holds no posting yet. *)
Definition alloc (x : xact_t) : M xact_ptr :=
  λ w, let p := fresh (dom (heap w)) in
       (Ok p, {| heap := <[p := x]> (heap w); this := this w |}).

Definition get_entry : M entry_base_t := λ w, (Ok (this w), w).

Definition put_entry (e : entry_base_t) : M unit :=
  λ w, (Ok tt, {| heap := heap w; this := e |}).

End Ledger.

Arguments Ok {_ _} a.
Arguments Throw {_ _} e.

Declare Scope ledger_scope.
Delimit Scope ledger_scope with ledger.
Notation "x <- m ;; k" := (bind m (λ x, k))
  (at level 100, m at next level, right associativity) : ledger_scope.
Notation "m ;;; k" := (bind m (λ _, k))
  (at level 100, right associativity) : ledger_scope.
Open Scope ledger_scope.

Section Code.
Context `{VO : ValueOps}.

(** ** entry_base_t::add_xact, entry_base_t::remove_xact

    [entry_t::add_xact] does what [entry_base_t::add_xact] does once it has
    set the back-reference of the posting. *)

Definition add_xact (xact : xact_ptr) : M unit :=
  e <- get_entry ;;
  put_entry (set_xacts (xacts e ++ [xact]) e).

(** [std::list::remove] erases every element equal to the pointer. *)
Definition remove_xact (xact : xact_ptr) : M bool :=
  e <- get_entry ;;
  put_entry (set_xacts (filter (λ p, p ≠ xact) (xacts e)) e) ;;;
  ret true.

(** ** entry_base_t::finalize *)

(** Lines 104-122: the first scan. *)
Fixpoint accumulate (xs : list xact_ptr) (balance : value_t)
    (null_xact : option xact_ptr) : M (value_t * option xact_ptr) :=
  match xs with
  | [] => ret (balance, null_xact)
  | x :: rest =>
      xa <- deref x ;;
      if must_balance xa then
        let p := match cost xa with Some c => c | None => amount xa end in
        if negb (amt_is_null p) then
          accumulate rest
            (if value_is_null balance then AMOUNT p else value_add balance p)
            null_xact
        else
          match null_xact with
          | Some _ =>
              throw (logic_error "Only one xact with null amount allowed per entry")
          | None => accumulate rest balance (Some x)
          end
      else accumulate rest balance null_xact
  end.

(** Lines 141-147: a lone posting is balanced against the journal's
    basket account. *)
Definition balance_against_basket (null_xact : option xact_ptr) : M (option xact_ptr) :=
  e <- get_entry ;;
  match journal e with
  | Some j =>
      match basket j, xacts e with
      | Some b, [x1] =>
          n <- alloc (new_xact b null_amount XACT_GENERATED) ;;
          first <- deref x1 ;;
          nx <- deref n ;;
          store n (set_state (state first) nx) ;;;
          add_xact n ;;;
          ret (Some n)
      | _, _ => ret null_xact
      end
  | None => ret null_xact
  end.

(** Lines 172-186: the loop over the amounts of a balance. *)
Fixpoint negate_amounts (null_xact : xact_ptr) (first : bool)
    (amounts : amounts_map) : M unit :=
  match amounts with
  | [] => ret tt
  | (_, a) :: rest =>
      (if first then
         nx <- deref null_xact ;;
         store null_xact (set_amount (amt_negate a) nx)
       else
         nx <- deref null_xact ;;
         n <- alloc (new_xact (account nx) (amt_negate a) XACT_GENERATED) ;;
         add_xact n) ;;;
      negate_amounts null_xact false rest
  end.

(** Lines 149-193.  [value_t::as_amount] is declared in value.h, which is
    not among the sources: on a value that holds no amount it is taken to
    fail as an assertion does. *)
Definition resolve_null_xact (null_xact : xact_ptr) (balance : value_t) : M value_t :=
  match balance with
  | BALANCE amounts => negate_amounts null_xact true amounts
  | AMOUNT a =>
      nx <- deref null_xact ;;
      store null_xact (add_flags XACT_CALCULATED (set_amount (amt_negate a) nx))
  | NULL_VALUE => throw assertion_failure
  end ;;;
  ret NULL_VALUE.

(** Lines 229-250: the loop that assigns the inferred costs. *)
Fixpoint assign_costs (per_unit_cost : amount_t) (comm : commodity_t)
    (xs : list xact_ptr) (balance : value_t) : M value_t :=
  match xs with
  | [] => ret balance
  | x :: rest =>
      xa <- deref x ;;
      let x_amt := amount xa in
      if negb (bool_decide (is_Some (cost xa))
               || negb (must_balance xa)
               || bool_decide (amt_commodity x_amt = comm)) then
        let balance := value_sub balance x_amt in
        let c := amt_mul per_unit_cost x_amt in
        store x (set_cost (Some c) xa) ;;;
        assign_costs per_unit_cost comm rest (value_add balance c)
      else assign_costs per_unit_cost comm rest balance
  end.

(** Lines 194-254. *)
Definition infer_costs (balance : value_t) : M value_t :=
  match balance with
  | BALANCE [(_, x); (_, y)] =>
      if negb (amt_is_realzero y) then
        let per_unit_cost := amt_abs (amt_div x y) in
        let comm := amt_commodity x in
        e <- get_entry ;;
        assign_costs per_unit_cost comm (xacts e) balance
      else ret balance
  | _ => ret balance
  end.

(** Lines 277-307: the exchange of the postings that have a cost. *)
Fixpoint exchange_costs (xs : list xact_ptr) (balance : value_t) : M value_t :=
  match xs with
  | [] => ret balance
  | x :: rest =>
      xa <- deref x ;;
      match cost xa with
      | Some c =>
          let x_amt := amount xa in
          assert (negb (bool_decide (amt_commodity x_amt = amt_commodity c))) ;;;
          e <- get_entry ;;
          let '(ann_amount, final_cost, basis_cost) :=
            exchange x_amt c
              (actual_date (_date xa) (as_entry e ≫= e_date))
              (as_entry e ≫= code) in
          if amt_commodity_annotated x_amt then
            if bool_decide (is_Some (amt_annotation_price ann_amount)) then
              exchange_costs rest
                (if value_is_null balance
                 then AMOUNT (amt_sub basis_cost final_cost)
                 else value_add balance (amt_sub basis_cost final_cost))
            else exchange_costs rest balance
          else
            store x (set_amount ann_amount xa) ;;;
            exchange_costs rest balance
      | None => exchange_costs rest balance
      end
  end.

(** Lines 320-332. *)
Definition check_balance (balance : value_t) : M bool :=
  if negb (value_is_null balance) then
    let balance := value_round balance in
    if negb (value_is_zero balance) then
      e <- get_entry ;;
      throw (balance_error "Entry does not balance"
               [value_context balance "Unbalanced remainder is:";
                entry_context e "While balancing entry:"])
    else ret true
  else ret true.

(** The running balance once the null-posting, cost-inference and exchange
    steps are done (lines 88-307). *)
Definition balance_entry : M value_t :=
  e <- get_entry ;;
  scan <- accumulate (xacts e) NULL_VALUE None ;;
  let '(balance, null_xact) := scan in
  assert (value_valid balance) ;;;
  null_xact <- balance_against_basket null_xact ;;
  balance <- match null_xact with
             | Some nx => resolve_null_xact nx balance
             | None => infer_costs balance
             end ;;
  e <- get_entry ;;
  exchange_costs (xacts e) balance.

Definition finalize : M bool :=
  balance <- balance_entry ;;
  check_balance balance.

(** ** entry_t::get_state

    [*state] is a cell of the caller; it is passed in with the content it
    has before the call and returned with the content it has after. *)

Fixpoint get_state_loop (xs : list xact_ptr) (first hetero : bool)
    (state_cell : state_t) : M (bool * state_t) :=
  match xs with
  | [] => ret (hetero, state_cell)
  | i :: rest =>
      xa <- deref i ;;
      if first then get_state_loop rest false hetero (state xa)
      else if bool_decide (state_cell ≠ state xa) then ret (true, state_cell)
      else get_state_loop rest first hetero state_cell
  end.

Definition get_state (state_cell : state_t) : M (bool * state_t) :=
  e <- get_entry ;;
  r <- get_state_loop (xacts e) true false state_cell ;;
  let '(hetero, state_cell) := r in
  ret (negb hetero, state_cell).

(** ** auto_entry_t::extend_entry, extend_entry_base *)

(** [commodity_t::operator bool]. *)
Definition commodity_bool (c : commodity_t) : bool :=
  bool_decide (c ≠ null_commodity).

(** Lines 472-479. *)
Definition copy_details (t x : xact_t) : xact_t :=
  {| account := account x; amount := amount x; cost := cost x;
     state := state t; _date := _date t; _date_eff := _date_eff t;
     note := note t;
     beg_pos := beg_pos t; beg_line := beg_line t;
     end_pos := end_pos t; end_line := end_line t; flags := flags x |}.

(** Lines 448-459: the amount of the posting to add, or [None] where the
    source says [continue]. *)
Definition template_amount (post : bool) (i t : xact_ptr) : M (option amount_t) :=
  ta <- deref t ;;
  assert (amt_nonzero (amount ta)) ;;;
  if negb (commodity_bool (amt_commodity (amount ta))) then
    if negb post then ret None
    else
      ia <- deref i ;;
      assert (amt_nonzero (amount ia)) ;;;
      ret (Some (amt_mul (amount ia) (amount ta)))
  else
    if post then ret None
    else ret (Some (amount ta)).

(** Lines 448-481: the body of the loop over the templates. *)
Definition apply_template (post : bool) (i t : xact_ptr) : M unit :=
  a <- template_amount post i t ;;
  match a with
  | None => ret tt
  | Some amt =>
      ta <- deref t ;;
      let fname := fullname (account ta) in
      assert (negb (String.eqb fname "")) ;;;
      acct <- (if String.eqb fname "$account" || String.eqb fname "@account"
               then ia <- deref i ;; ret (account ia)
               else ret (account ta)) ;;
      xact <- alloc (new_xact acct amt (flags_or (flags ta) XACT_AUTO)) ;;
      xa <- deref xact ;;
      store xact (copy_details ta xa) ;;;
      add_xact xact
  end.

Fixpoint apply_templates (post : bool) (i : xact_ptr) (ts : list xact_ptr) : M unit :=
  match ts with
  | [] => ret tt
  | t :: rest => apply_template post i t ;;; apply_templates post i rest
  end.

(** Lines 441-484: the loop over the copy [initial_xacts]. *)
Fixpoint extend_from (a : auto_entry_t) (post : bool)
    (initial_xacts : list xact_ptr) : M unit :=
  match initial_xacts with
  | [] => ret tt
  | i :: rest =>
      ia <- deref i ;;
      (if predicate a ia then apply_templates post i (auto_xacts a) else ret tt) ;;;
      extend_from a post rest
  end.

(** The entry to extend is the entry of the world; it is another object
    than the automated entry, whose list of templates does not change
    during the call. *)
Definition extend_entry (a : auto_entry_t) (post : bool) : M unit :=
  e <- get_entry ;;
  let initial_xacts := xacts e in
  extend_from a post initial_xacts.

Fixpoint extend_with (autos : list auto_entry_t) (post : bool) : M unit :=
  match autos with
  | [] => ret tt
  | a :: rest => extend_entry a post ;;; extend_with rest post
  end.

Definition extend_entry_base (j : journal_t) (post : bool) : M unit :=
  extend_with (auto_entries j) post.

End Code.

(** ** The copy constructor of entry_base_t

    The copy constructor of a posting and the default constructor of
    [supports_flags<>] are in other files: what they give is left open. *)

Class Constructors `{Collaborators} := {
  xact_copy : xact_t → xact_t;                     (* xact_t(const xact_t&) *)
  no_flags : Z;                                    (* supports_flags<>() *)
}.

Section Copy.
Context `{CT : Constructors}.

(** Lines 44-47. *)
Fixpoint copy_xacts (xs : list xact_ptr) : M unit :=
  match xs with
  | [] => ret tt
  | i :: rest =>
      xa <- deref i ;;
      n <- alloc (xact_copy xa) ;;
      add_xact n ;;;
      copy_xacts rest
  end.

(** Lines 38-48: the entry under construction is the entry of the world,
    [e] the entry it is copied from. *)
Definition entry_base_copy (e : entry_base_t) : M unit :=
  put_entry {| entry_flags := no_flags; journal := None;
               e_beg_pos := 0; e_beg_line := 0; e_end_pos := 0; e_end_line := 0;
               xacts := []; as_entry := None |} ;;;
  copy_xacts (xacts e).

End Copy.

(** ** The destructor of entry_base_t *)

Section Destructor.
Context `{Collaborators}.

(** What the destructor does to a posting: [checked_delete] ends it and
    gives its memory back; the explicit call of [~xact_t] ends it and
    leaves its memory to the cache. *)
Inductive disposal : Type :=
| deleted (p : xact_ptr)
| destructed (p : xact_ptr).

(** The posting at [p] ends: the address refers to nothing from now on, and
    reading the posting through it fails as any pointer to nothing does. *)
Definition release (p : xact_ptr) : M unit :=
  λ w, (Ok tt, {| heap := delete p (heap w); this := this w |}).

(** Lines 54-65; the answer lists what was done, in order. *)
Fixpoint destroy_xacts (xs : list xact_ptr) : M (list disposal) :=
  match xs with
  | [] => ret []
  | i :: rest =>
      xa <- deref i ;;
      gone <- (if negb (f_temp (flags xa)) then
                 if negb (f_in_cache (flags xa)) then
                   release i ;;; ret [deleted i]
                 else
                   release i ;;; ret [destructed i]
               else ret []) ;;
      others <- destroy_xacts rest ;;
      ret (gone ++ others)
  end.

(** Lines 50-66. *)
Definition entry_base_destroy : M (list disposal) :=
  e <- get_entry ;;
  destroy_xacts (xacts e).

End Destructor.

(** ** entry_t: lookup, add_xact, the copy constructor and valid *)

Module entry_t.
Import Stdlib.Strings.Ascii.

(** *** entry_t::lookup *)

(** The functions that [lookup] wraps into a functor. *)
Inductive accessor : Type := get_date | get_payee.

(** [name[n]] for [n] up to the size of the string: the character at [n],
    and the terminating NUL at the size. *)
Definition char_at (name : string) (n : nat) : Ascii.ascii :=
  default Ascii.zero (String.get n name).

(** Lines 388-408; [None] is the empty [ptr_op_t]. *)
Definition lookup (name : string) : option accessor :=
  if Ascii.eqb (char_at name 0) "d"%char then
    if Ascii.eqb (char_at name 1) Ascii.zero || String.eqb name "date"
    then Some get_date else None
  else if Ascii.eqb (char_at name 0) "p"%char then
    if Ascii.eqb (char_at name 1) Ascii.zero || String.eqb name "payee"
    then Some get_payee else None
  else None.

(** *** The back-reference of the postings

    [entry_t] sets and reads the member [entry] of its postings.  That
    member is kept here in a map of its own, beside the store of the
    postings: a pointer without a binding has a null [entry].  An entry is
    referred to by its address, [self] being the address of the entry of
    the world. *)

Definition entry_ptr : Type := positive.

Section Scene.
Context `{C : Collaborators}.

Record scene : Type := {
  base : world;
  entry_of : gmap xact_ptr entry_ptr;
  self : entry_ptr;
}.

End Scene.

(** [is_valid] on a date and [xact_t::valid] are in other files; the
    latter is given the posting by its pointer and all that it may read. *)
Class Validity `{Collaborators} := {
  is_valid : option date_t → bool;                 (* is_valid(_date) *)
  xact_valid : scene → xact_ptr → bool;            (* xact_t::valid() *)
}.

Section Methods.
Context `{CT : Constructors} `{VA : !Validity}.

Definition E (A : Type) : Type := scene → result A * scene.

Definition and_then {A B} (m : E A) (k : A → E B) : E B :=
  λ s, match m s with
       | (Ok a, s') => k a s'
       | (Throw e, s') => (Throw e, s')
       end.

(** A computation on the entry and the store of the postings. *)
Definition lift {A} (m : M A) : E A :=
  λ s, let '(r, w) := m (base s) in
       (r, {| base := w; entry_of := entry_of s; self := self s |}).

(** [xact->entry = this] *)
Definition set_entry (xact : xact_ptr) : E unit :=
  λ s, match heap (base s) !! xact with
       | Some _ =>
           (Ok tt, {| base := base s;
                      entry_of := <[xact := self s]> (entry_of s);
                      self := self s |})
       | None => (Throw invalid_pointer, s)
       end.

(** Lines 368-372. *)
Definition add_xact (xact : xact_ptr) : E unit :=
  and_then (set_entry xact) (λ _, lift (add_xact xact)).

(** Lines 341-344. *)
Fixpoint set_entries (xs : list xact_ptr) : E unit :=
  match xs with
  | [] => λ s, (Ok tt, s)
  | i :: rest => and_then (set_entry i) (λ _, set_entries rest)
  end.

(** Lines 335-345: the copy constructor, from the entry [e].  What the copy
    constructor of a posting leaves in the member [entry] of a copy is
    written over at line 344 before anything reads it; it is not
    recorded. *)
Definition copy (e : entry_base_t) : E unit :=
  and_then (lift (entry_base_copy e)) (λ _,
  and_then (lift (b <- get_entry ;;
                  put_entry {| entry_flags := entry_flags b; journal := journal b;
                               e_beg_pos := e_beg_pos b; e_beg_line := e_beg_line b;
                               e_end_pos := e_end_pos b; e_end_line := e_end_line b;
                               xacts := xacts b; as_entry := as_entry e |})) (λ _,
  λ s, set_entries (xacts (this (base s))) s)).

(** Lines 417-423. *)
Fixpoint valid_xacts (xs : list xact_ptr) (s : scene) : result bool :=
  match xs with
  | [] => Ok true
  | i :: rest =>
      match heap (base s) !! i with
      | Some _ =>
          if bool_decide (entry_of s !! i ≠ Some (self s))
             || negb (xact_valid s i)
          then Ok false
          else valid_xacts rest s
      | None => Throw invalid_pointer
      end
  end.

(** Lines 410-426; [_date] is the date of the entry as an [entry_t]. *)
Definition valid (s : scene) : result bool :=
  let e := this (base s) in
  if negb (is_valid (as_entry e ≫= e_date))
     || negb (bool_decide (is_Some (journal e)))
  then Ok false
  else valid_xacts (xacts e) s.

End Methods.

End entry_t.

(** ** An implementation of the collaborators

    Modelled from the spec: the value arithmetic and the commodity exchange
    are in files that are not among the sources; this is one implementation
    of the capabilities the spec lists for them, on which the properties
    are exercised.  Amounts are rationals tagged with a commodity symbol;
    the empty symbol is the null commodity; a balance keeps its amounts
    sorted by symbol.  Commodities carry no lot annotation here, and every
    commodity is presented with two decimals. *)

Module RationalLedger.
#[local] Open Scope Q_scope.

Record quantity_t : Type := { quantity : Q; symbol : string }.

Definition amount_q : Type := option quantity_t.

Definition amt (q : Q) (s : string) : amount_q :=
  Some {| quantity := Qred q; symbol := s |}.

Definition is_realzero (a : amount_q) : bool :=
  match a with
  | Some x => Qeq_bool (quantity x) 0
  | None => false
  end.

Definition nonzero (a : amount_q) : bool :=
  match a with
  | Some x => negb (Qeq_bool (quantity x) 0)
  | None => false
  end.

Definition commodity (a : amount_q) : string :=
  match a with
  | Some x => symbol x
  | None => ""
  end.

Definition negate (a : amount_q) : amount_q :=
  x ← a; amt (- quantity x) (symbol x).

Definition abs (a : amount_q) : amount_q :=
  x ← a; amt (Qabs (quantity x)) (symbol x).

(** A binary operation keeps the commodity of its left operand, or takes
    that of the right one when the left one has none. *)
Definition binop (f : Q → Q → Q) (a b : amount_q) : amount_q :=
  x ← a; y ← b;
  amt (f (quantity x) (quantity y))
      (if String.eqb (symbol x) "" then symbol y else symbol x).

Definition add : amount_q → amount_q → amount_q := binop Qplus.
Definition sub : amount_q → amount_q → amount_q := binop Qminus.
Definition mul : amount_q → amount_q → amount_q := binop Qmult.
Definition div : amount_q → amount_q → amount_q := binop Qdiv.

#[local] Instance collaborators : Collaborators := {|
  commodity_t := string;
  null_commodity := "";
  amount_t := amount_q;
  null_amount := None;
  amt_is_null := λ a, bool_decide (a = None :> amount_q);
  amt_is_realzero := is_realzero;
  amt_nonzero := nonzero;
  amt_commodity := commodity;
  amt_commodity_annotated := λ _, false;
  amt_annotation_price := λ _, None;
  amt_negate := negate;
  amt_abs := abs;
  amt_mul := mul;
  amt_div := div;
  amt_sub := sub;
  account_t := string;
  fullname := λ a, a;
  date_t := Z;
|}.

(** [balance_t::operator+=]: the amount joins the one of its commodity, or
    is inserted at its place in the order of the symbols. *)
Fixpoint balance_add (m : amounts_map) (a : amount_q) : amounts_map :=
  match m with
  | [] => [(commodity a, a)]
  | (c, b) :: rest =>
      if String.eqb c (commodity a) then (c, add b a) :: rest
      else if String.ltb (commodity a) c then (commodity a, a) :: m
      else (c, b) :: balance_add rest a
  end.

(** [balance_t::operator-=]: as above with the negated amount; a commodity
    whose amount becomes zero leaves the balance. *)
Fixpoint balance_sub (m : amounts_map) (a : amount_q) : amounts_map :=
  match m with
  | [] => [(commodity a, negate a)]
  | (c, b) :: rest =>
      if String.eqb c (commodity a) then
        if nonzero (sub b a) then (c, sub b a) :: rest else rest
      else if String.ltb (commodity a) c then (commodity a, negate a) :: m
      else (c, b) :: balance_sub rest a
  end.

Definition plus (v : value_t) (a : amount_q) : value_t :=
  match v with
  | NULL_VALUE => AMOUNT a
  | AMOUNT b =>
      if String.eqb (commodity b) (commodity a) then AMOUNT (add b a)
      else BALANCE (balance_add (balance_add [] b) a)
  | BALANCE m => BALANCE (balance_add m a)
  end.

Definition minus (v : value_t) (a : amount_q) : value_t :=
  match v with
  | NULL_VALUE => AMOUNT (negate a)
  | AMOUNT b =>
      if String.eqb (commodity b) (commodity a) then AMOUNT (sub b a)
      else BALANCE (balance_sub (balance_add [] b) a)
  | BALANCE m => BALANCE (balance_sub m a)
  end.

(** Rounding to hundredths, half up. *)
Definition round_amount (a : amount_q) : amount_q :=
  x ← a; amt (Qfloor (quantity x * 100 + (1 # 2)) # 100) (symbol x).

Definition round (v : value_t) : value_t :=
  match v with
  | NULL_VALUE => NULL_VALUE
  | AMOUNT a => AMOUNT (round_amount a)
  | BALANCE m => BALANCE (prod_map id round_amount <$> m)
  end.

Definition is_zero (v : value_t) : bool :=
  match v with
  | NULL_VALUE => true
  | AMOUNT a => negb (nonzero a)
  | BALANCE m => forallb (λ ca, negb (nonzero ca.2)) m
  end.

#[local] Instance value_ops : ValueOps := {|
  value_add := plus;
  value_sub := minus;
  value_round := round;
  value_is_zero := is_zero;
  value_valid := λ _, true;
  exchange := λ a c _ _, (a, c, c);
  actual_date := λ d e, default (default 0%Z e) d;
|}.

Definition USD (q : Q) : amount_q := amt q "USD".
Definition EUR (q : Q) : amount_q := amt q "EUR".

Definition posting (acct : string) (a : amount_q) : xact_t :=
  new_xact acct a XACT_NORMAL.

Definition plain_entry (j : option journal_t) (xs : list xact_ptr) : entry_base_t :=
  {| entry_flags := 0%Z; journal := j;
     e_beg_pos := 0%Z; e_beg_line := 0%Z; e_end_pos := 0%Z; e_end_line := 0%Z;
     xacts := xs; as_entry := None |}.

(** A world whose entry holds the given postings, at addresses 1, 2, ... *)
Definition world_of (j : option journal_t) (ps : list xact_t) : world :=
  {| heap := list_to_map (zip (Pos.of_nat <$> seq 1 (length ps)) ps);
     this := plain_entry j (Pos.of_nat <$> seq 1 (length ps)) |}.

(** Entries used to exercise the properties. *)

Definition unbalanced_entry : world :=
  world_of None [posting "Assets" (USD 10); posting "Expenses" (USD (-9))].

Definition balanced_entry : world :=
  world_of None [posting "Assets" (USD 10); posting "Expenses" (USD (-10))].

Definition two_nulls_entry : world :=
  world_of None [posting "Assets" None; posting "Expenses" (USD 1);
                 posting "Income" None].


Definition multi_commodity_entry : world :=
  world_of None [posting "Assets" (USD 10); posting "Savings" (EUR 5);
                 posting "Equity" None].

Definition two_commodity_entry : world :=
  world_of None [posting "Assets" (amt 10 "A"); posting "Broker" (amt (-2) "B")].

Definition basket_journal : journal_t :=
  {| basket := Some "Basket"; auto_entries := [] |}.

Definition basket_entry : world :=
  world_of (Some basket_journal) [posting "Assets" (USD 10)].

(** An entry of two postings, at 1 and 2, next to two templates: a bare
    multiplier at 3 for the account of the matched posting, and a fixed
    amount at 4. *)
Definition template_world : world :=
  {| heap := list_to_map
       [(1%positive, posting "Expenses:Food" (USD 10));
        (2%positive, posting "Assets" (USD (-10)));
        (3%positive, posting "$account" (amt (1 # 10) ""));
        (4%positive, posting "Taxes" (USD 1))];
     this := plain_entry None [1%positive; 2%positive] |}.

Definition single_null_entry : world :=
  world_of None [posting "Assets" (USD 10); posting "Equity" None].

Definition mixed_states_entry : world :=
  world_of None [set_state CLEARED (posting "Assets" (USD 10));
                 set_state CLEARED (posting "Savings" (USD 5));
                 posting "Equity" (USD (-15))].

Definition food_tax : auto_entry_t :=
  {| predicate := λ x, String.eqb (account x) "Expenses:Food";
     auto_xacts := [3%positive; 4%positive] |}.

(** The copy of a posting has the members of the posting, and an entry
    starts without flags; a date is valid when it is set, and the postings
    pass their own check: one way for the parts that are in other files
    to behave, on which the properties are exercised. *)
#[export] Instance constructors : Constructors := {|
  xact_copy := λ x, x;
  no_flags := 0%Z;
|}.

#[export] Instance validity : entry_t.Validity := {|
  entry_t.is_valid := λ d, bool_decide (is_Some d);
  entry_t.xact_valid := λ _ _, true;
|}.

Definition empty_entry : world := world_of None [].

Definition XACT_VIRTUAL : xact_flags :=
  {| f_virtual := true; f_auto := false; f_in_cache := false;
     f_calculated := false; f_generated := false; f_temp := false |}.

Definition XACT_TEMP : xact_flags :=
  {| f_virtual := false; f_auto := false; f_in_cache := false;
     f_calculated := false; f_generated := false; f_temp := true |}.

Definition XACT_IN_CACHE : xact_flags :=
  {| f_virtual := false; f_auto := false; f_in_cache := true;
     f_calculated := false; f_generated := false; f_temp := false |}.

(** A null posting next to a posting that need not balance. *)
Definition budget_entry : world :=
  world_of None [posting "Assets" (USD 10); posting "Equity" None;
                 new_xact "Budget:Food" (USD 5) XACT_VIRTUAL].

(** An entry that lists its only posting twice. *)
Definition doubled_entry : world :=
  {| heap := list_to_map [(1%positive, posting "Assets" (USD 10))];
     this := plain_entry None [1%positive; 1%positive] |}.

(** A posting of the entry's own, a temporary and a posting of the cache. *)
Definition kept_entry : world :=
  world_of None [posting "Assets" (USD 10);
                 new_xact "Scratch" (USD 1) XACT_TEMP;
                 new_xact "Cached" (USD 2) XACT_IN_CACHE].

(** The entry of [balanced_entry] as an [entry_t] of a journal, at the
    address 1, with the back-references of its postings. *)
Definition dated_entry : entry_base_t :=
  {| entry_flags := 0%Z; journal := Some basket_journal;
     e_beg_pos := 0%Z; e_beg_line := 0%Z; e_end_pos := 0%Z; e_end_line := 0%Z;
     xacts := [1%positive; 2%positive];
     as_entry := Some {| e_date := Some 20080724%Z; e_date_eff := None;
                         code := None; payee := "Grocer" |} |}.

Definition dated_scene : entry_t.scene :=
  {| entry_t.base := {| heap := heap balanced_entry; this := dated_entry |};
     entry_t.entry_of := {[ 1%positive := 1%positive; 2%positive := 1%positive ]};
     entry_t.self := 1%positive |}.

(** Another entry, at the address 2, without postings yet. *)
Definition second_scene : entry_t.scene :=
  {| entry_t.base := {| heap := heap balanced_entry;
                        this := plain_entry (Some basket_journal) [] |};
     entry_t.entry_of := {[ 1%positive := 1%positive; 2%positive := 1%positive ]};
     entry_t.self := 2%positive |}.

(** An automated entry for the postings to the taxes, such as the one that
    [food_tax] makes; and the journal of the two. *)
Definition tax_on_tax : auto_entry_t :=
  {| predicate := λ x, String.eqb (account x) "Taxes";
     auto_xacts := [4%positive] |}.

Definition cascade_journal : journal_t :=
  {| basket := None; auto_entries := [food_tax; tax_on_tax] |}.

(** Automated entries over [single_null_entry]: the template of the first
    is the posting whose amount is unset, and nothing satisfies the
    predicate of the second. *)
Definition null_template : auto_entry_t :=
  {| predicate := λ x, String.eqb (account x) "Assets";
     auto_xacts := [2%positive] |}.

Definition never_matches : auto_entry_t :=
  {| predicate := λ _, false; auto_xacts := [2%positive] |}.

(** A posting of [10 USD] at the cost of [10 USD]. *)
Definition same_commodity_entry : world :=
  world_of None [set_cost (Some (USD 10)) (posting "Assets" (USD 10));
                 posting "Expenses" (USD (-10))].

End RationalLedger.

(** * Vocabulary of the properties *)

Section Vocabulary.
Context `{VO : ValueOps}.

(** The error of an entry that does not balance. *)
Definition unbalanced (balance : value_t) (e : entry_base_t) : exception :=
  balance_error "Entry does not balance"
    [value_context balance "Unbalanced remainder is:";
     entry_context e "While balancing entry:"].

Definition multiple_null_amounts : exception :=
  logic_error "Only one xact with null amount allowed per entry".

(** What a posting brings to the balance: its cost when it has one, its
    amount otherwise. *)
Definition balancing_amount (x : xact_t) : amount_t :=
  match cost x with Some c => c | None => amount x end.

(** The posting at [p] must balance and its amount is unset. *)
Definition unset_amount_at (h : gmap xact_ptr xact_t) (p : xact_ptr) : bool :=
  match h !! p with
  | Some x => must_balance x && amt_is_null (amount x)
  | None => false
  end.

(** The posting at [p] must balance and what it brings to the balance is
    unset. *)
Definition null_at (h : gmap xact_ptr xact_t) (p : xact_ptr) : bool :=
  match h !! p with
  | Some x => must_balance x && amt_is_null (balancing_amount x)
  | None => false
  end.

Definition add_to (balance : value_t) (p : amount_t) : value_t :=
  if value_is_null balance then AMOUNT p else value_add balance p.

(** The sum of what the postings that must balance bring, the unset ones
    left out, on top of [balance]. *)
Fixpoint total (h : gmap xact_ptr xact_t) (xs : list xact_ptr)
    (balance : value_t) : value_t :=
  match xs with
  | [] => balance
  | x :: rest =>
      match h !! x with
      | Some xa =>
          if must_balance xa && negb (amt_is_null (balancing_amount xa))
          then total h rest (add_to balance (balancing_amount xa))
          else total h rest balance
      | None => total h rest balance
      end
  end.

(** Every pointer of the list refers to a posting. *)
Definition live (h : gmap xact_ptr xact_t) (xs : list xact_ptr) : Prop :=
  Forall (λ p, is_Some (h !! p)) xs.

(** The postings of an entry sum to nothing, once rounded. *)
Definition balanced (w : world) : Prop :=
  let t := total (heap w) (xacts (this w)) NULL_VALUE in
  value_is_null t = true ∨ value_is_zero (value_round t) = true.

(** [X'] is [X] up to its amount. *)
Definition same_but_amount (X X' : xact_t) : Prop :=
  set_amount (amount X) X' = X.

(** The posting that balances a lone posting [X1] against the basket
    account [b]. *)
Definition basket_posting (b : account_t) (X1 : xact_t) : xact_t :=
  {| account := b; amount := amt_negate (balancing_amount X1); cost := None;
     state := state X1; _date := None; _date_eff := None; note := None;
     beg_pos := 0; beg_line := 0; end_pos := 0; end_line := 0;
     flags := {| f_virtual := false; f_auto := false; f_in_cache := false;
                 f_calculated := true; f_generated := true; f_temp := false |} |}.

(** The pointers [news] are new in [h] and refer in [h'] to generated
    postings in the account [acct] that hold the negated [amounts], in
    order. *)
Definition generated_for (h h' : gmap xact_ptr xact_t) (acct : account_t)
    (news : list xact_ptr) (amounts : amounts_map) : Prop :=
  Forall2 (λ n ca, h !! n = None
                   ∧ h' !! n = Some (new_xact acct (amt_negate ca.2) XACT_GENERATED))
          news amounts.

(** The postings the pointers refer to. *)
Fixpoint postings (h : gmap xact_ptr xact_t) (xs : list xact_ptr) : list xact_t :=
  match xs with
  | [] => []
  | p :: rest =>
      match h !! p with
      | Some x => x :: postings h rest
      | None => postings h rest
      end
  end.

(** The pointers of a list, each where the list first has it and not
    where [seen] or the list has it already. *)
Fixpoint first_visits (seen xs : list xact_ptr) : list xact_ptr :=
  match xs with
  | [] => []
  | x :: rest =>
      if decide (x ∈ seen) then first_visits seen rest
      else x :: first_visits (x :: seen) rest
  end.

(** A posting that must balance, has no cost, and whose amount is of
    another commodity than [comm]. *)
Definition wants_cost (comm : commodity_t) (x : xact_t) : bool :=
  must_balance x && bool_decide (cost x = None)
  && bool_decide (amt_commodity (amount x) ≠ comm).

(** The amount of the posting leaves the balance and its cost at the
    per-unit cost enters it. *)
Definition reprice (per_unit_cost : amount_t) (balance : value_t) (x : xact_t) : value_t :=
  value_add (value_sub balance (amount x)) (amt_mul per_unit_cost (amount x)).

Definition with_inferred_cost (per_unit_cost : amount_t) (comm : commodity_t)
    (x : xact_t) : xact_t :=
  if wants_cost comm x then set_cost (Some (amt_mul per_unit_cost (amount x))) x
  else x.

(** The posting that [extend_entry] makes from the template for the
    matched posting, with the amount [amt]. *)
Definition mirror (matched template : xact_t) (amt : amount_t) : xact_t :=
  {| account := if String.eqb (fullname (account template)) "$account"
                   || String.eqb (fullname (account template)) "@account"
                then account matched else account template;
     amount := amt; cost := None;
     state := state template; _date := _date template;
     _date_eff := _date_eff template; note := note template;
     beg_pos := beg_pos template; beg_line := beg_line template;
     end_pos := end_pos template; end_line := end_line template;
     flags := flags_or (flags template) XACT_AUTO |}.

(** The world with one more posting, at a new address, at the end of the
    entry. *)
Definition appended (w : world) (x : xact_t) : world :=
  {| heap := <[fresh (dom (heap w)) := x]> (heap w);
     this := set_xacts (xacts (this w) ++ [fresh (dom (heap w))]) (this w) |}.

(** The posting at [i] satisfies the predicate of the automated entry. *)
Definition matches_at (a : auto_entry_t) (h : gmap xact_ptr xact_t)
    (i : xact_ptr) : bool :=
  match h !! i with
  | Some ia => predicate a ia
  | None => false
  end.

(** The postings of the snapshot that satisfy the predicate. *)
Definition matched_sources (a : auto_entry_t) (h : gmap xact_ptr xact_t)
    (snapshot : list xact_ptr) : list xact_ptr :=
  filter (λ i, matches_at a h i) snapshot.

(** The templates applied to each matched posting in turn. *)
Fixpoint extend_matched (a : auto_entry_t) (post : bool)
    (matched : list xact_ptr) : M unit :=
  match matched with
  | [] => ret tt
  | i :: rest =>
      apply_templates post i (auto_xacts a) ;;; extend_matched a post rest
  end.

(** [w'] is [w] with new postings appended: the entry ends with pointers
    that referred to nothing in [w], and what [w] held is as it was. *)
Definition extended (w w' : world) : Prop :=
  heap w ⊆ heap w'
  ∧ ∃ news, this w' = set_xacts (xacts (this w) ++ news) (this w)
            ∧ Forall (λ n, heap w !! n = None) news.

(** No step of [finalize] writes a member of the entry other than its
    posting list, the list only grows at its end, and no posting is ever
    released. *)
Definition evolves (w w' : world) : Prop :=
  set_xacts [] (this w') = set_xacts [] (this w)
  ∧ xacts (this w) `prefix_of` xacts (this w')
  ∧ dom (heap w) ⊆ dom (heap w').

Definition framed {A} (m : M A) : Prop := ∀ w, evolves w (m w).2.

(** The exchange neither adds nor drops a posting, and changes of a posting
    its amount only; a posting without a cost is left alone. *)
Definition amounts_changed (w w' : world) : Prop :=
  this w' = this w
  ∧ ∀ p, match heap w !! p with
         | Some X => ∃ X', heap w' !! p = Some X'
                           ∧ same_but_amount X X' ∧ (cost X = None → X' = X)
         | None => heap w' !! p = None
         end.

Definition extending {A} (m : M A) : Prop := ∀ w, extended w (m w).2.

(** Every state of the list is [cell]. *)
Definition uniform (cell : state_t) (ss : list state_t) : bool :=
  forallb (λ s, bool_decide (cell = s)) ss.

(** What [finalize] may make of a posting [X] that it finds: the account,
    the state, the dates, the note and the positions stay; a cost stays
    once it is there; the flags stay or gain the calculated flag; and a
    posting without a cost that need not balance stays as it is. *)
Definition settled (X X' : xact_t) : Prop :=
  account X' = account X ∧ state X' = state X
  ∧ _date X' = _date X ∧ _date_eff X' = _date_eff X ∧ note X' = note X
  ∧ beg_pos X' = beg_pos X ∧ beg_line X' = beg_line X
  ∧ end_pos X' = end_pos X ∧ end_line X' = end_line X
  ∧ (cost X = None ∨ cost X' = cost X)
  ∧ (flags X' = flags X ∨ flags X' = flags_or (flags X) XACT_CALCULATED)
  ∧ (cost X = None → must_balance X = false → X' = X).

Definition settles (w w' : world) : Prop :=
  ∀ p X, heap w !! p = Some X → ∃ X', heap w' !! p = Some X' ∧ settled X X'.

(** A posting as [finalize] makes them: flagged generated, and neither a
    temporary nor a posting of the cache. *)
Definition generated (x : xact_t) : Prop :=
  f_generated (flags x) = true
  ∧ f_temp (flags x) = false ∧ f_in_cache (flags x) = false.

(** The entry of [w'] lists the postings of [w] and after them new ones,
    each a generated one. *)
Definition generates (w w' : world) : Prop :=
  ∃ news, xacts (this w') = xacts (this w) ++ news
          ∧ Forall (λ n, heap w !! n = None
                         ∧ ∃ x, heap w' !! n = Some x ∧ generated x) news.

Definition finalizing (w w' : world) : Prop := settles w w' ∧ generates w w'.

(** The entry balances: the sum of its postings is null or rounds to
    zero. *)
Definition balances (t : value_t) : bool :=
  value_is_null t || value_is_zero (value_round t).

(** [w'] is [w] with new postings appended, each of which satisfies [P]. *)
Definition appends (P : xact_t → Prop) (w w' : world) : Prop :=
  heap w ⊆ heap w'
  ∧ ∃ news, this w' = set_xacts (xacts (this w) ++ news) (this w)
            ∧ Forall (λ n, heap w !! n = None
                           ∧ ∃ x, heap w' !! n = Some x ∧ P x) news.

(** A posting as an automated entry makes them: flagged automatic, without
    a cost. *)
Definition automatic (x : xact_t) : Prop :=
  f_auto (flags x) = true ∧ cost x = None.

(** The template at [t] is one for the mode [post]: a bare multiplier in
    post mode, an amount with a commodity otherwise. *)
Definition applies_at (post : bool) (h : gmap xact_ptr xact_t)
    (t : xact_ptr) : bool :=
  match h !! t with
  | Some ta => bool_decide (commodity_bool (amt_commodity (amount ta)) = negb post)
  | None => false
  end.

(** The posting at [p] is the entry's to end: it is not a temporary. *)
Definition owned (h : gmap xact_ptr xact_t) (p : xact_ptr) : bool :=
  match h !! p with
  | Some x => negb (f_temp (flags x))
  | None => false
  end.

(** How the destructor ends the posting at [p]. *)
Definition disposal_at (h : gmap xact_ptr xact_t) (p : xact_ptr) : disposal :=
  match h !! p with
  | Some x => if f_in_cache (flags x) then destructed p else deleted p
  | None => deleted p
  end.

End Vocabulary.

(** * Properties *)

Section Properties.
Context `{VO : ValueOps}.

(** ** Stepping through the computations *)

Lemma bind_ok {A B} (m : M A) (k : A → M B) w a w' :
  m w = (Ok a, w') → bind m k w = k a w'.
Proof. unfold bind. by intros ->. Qed.

Lemma bind_throw {A B} (m : M A) (k : A → M B) w e w' :
  m w = (Throw e, w') → bind m k w = (Throw e, w').
Proof. unfold bind. by intros ->. Qed.

Lemma deref_ok p x w : heap w !! p = Some x → deref p w = (Ok x, w).
Proof. unfold deref. by intros ->. Qed.

Lemma world_eta w : {| heap := heap w; this := this w |} = w.
Proof. by destruct w. Qed.

Lemma set_xacts_same e : set_xacts (xacts e) e = e.
Proof. by destruct e. Qed.

Lemma filter_bool_agree {A} (f g : A → bool) (l : list A) :
  (∀ x, x ∈ l → f x = g x) →
  filter (λ x, f x) l = filter (λ x, g x) l.
Proof.
  induction l as [|a l IH]; intros Hagree; [done|].
  rewrite !filter_cons, (Hagree a) by apply list_elem_of_here.
  rewrite IH; [done|]. intros x Hx. by apply Hagree, list_elem_of_further.
Qed.

(** ** remove_xact *)

(** C9: [remove_xact] answers [true] for every pointer and every entry; it
    erases the occurrences of the pointer from the posting list and touches
    nothing else, and when the pointer is not in the list the entry is left
    as it was, the answer still being [true]. *)
Theorem remove_xact_always_true (p : xact_ptr) (w : world) :
  remove_xact p w
  = (Ok true,
     {| heap := heap w;
        this := set_xacts (filter (λ q, q ≠ p) (xacts (this w))) (this w) |})
  ∧ (p ∉ xacts (this w) → remove_xact p w = (Ok true, w)).
Proof.
  split; [done|].
  intros Hp. unfold remove_xact, bind, get_entry, put_entry, ret. simpl.
  assert (Hf : filter (λ q, q ≠ p) (xacts (this w)) = xacts (this w)).
  { induction (xacts (this w)) as [|q l IH]; [done|].
    apply not_elem_of_cons in Hp as [Hq Hl].
    rewrite filter_cons_True by done. by rewrite IH. }
  by rewrite Hf, set_xacts_same, world_eta.
Qed.

(** ** get_state *)

(** C10: on an entry without postings [get_state] answers [true] and the
    caller's cell keeps the content it had; on an entry with one posting it
    answers [true] as well, the cell then holding that posting's state. *)
Theorem get_state_empty_uniform (h : gmap xact_ptr xact_t) (e : entry_base_t)
    (state_cell : state_t) (p : xact_ptr) (x : xact_t) :
  get_state state_cell {| heap := h; this := set_xacts [] e |}
  = (Ok (true, state_cell), {| heap := h; this := set_xacts [] e |})
  ∧ get_state state_cell {| heap := <[p := x]> h; this := set_xacts [p] e |}
    = (Ok (true, state x), {| heap := <[p := x]> h; this := set_xacts [p] e |}).
Proof.
  split; [done|].
  unfold get_state, bind, get_entry. simpl.
  unfold bind, deref. simpl. by rewrite lookup_insert_eq.
Qed.

(** ** The final check of finalize *)

Lemma finalize_unfold w :
  finalize w
  = match balance_entry w with
    | (Ok balance, w') =>
        if value_is_null balance || value_is_zero (value_round balance)
        then (Ok true, w')
        else (Throw (unbalanced (value_round balance) (this w')), w')
    | (Throw e, w') => (Throw e, w')
    end.
Proof.
  unfold finalize, bind. destruct (balance_entry w) as [[balance|e] w']; [|done].
  unfold check_balance.
  destruct (value_is_null balance); [done|]. simpl.
  by destruct (value_is_zero (value_round balance)).
Qed.

Lemma finalize_world w : (finalize w).2 = (balance_entry w).2.
Proof.
  rewrite finalize_unfold. destruct (balance_entry w) as [[balance|e] w']; [|done].
  by destruct (_ || _).
Qed.

(** C1: [finalize] succeeds exactly when the steps before the final check
    complete with a running balance that is null or that rounds to zero; it
    then answers [true].  When the balance left by those steps is not null
    and does not round to zero, [finalize] throws the balance error whose
    context holds the rounded remainder. *)
Theorem finalize_succeeds_iff_zero (w : world) :
  (∀ b w', finalize w = (Ok b, w') ↔
     b = true ∧
     ∃ balance, balance_entry w = (Ok balance, w') ∧
       (value_is_null balance = true ∨
        value_is_zero (value_round balance) = true))
  ∧ (∀ balance w', balance_entry w = (Ok balance, w') →
       value_is_null balance = false →
       value_is_zero (value_round balance) = false →
       finalize w
       = (Throw (balance_error "Entry does not balance"
                   [value_context (value_round balance) "Unbalanced remainder is:";
                    entry_context (this w') "While balancing entry:"]), w')).
Proof.
  rewrite finalize_unfold. split.
  - intros b w'. destruct (balance_entry w) as [[balance|e] w1].
    + destruct (value_is_null balance) eqn:Hn; simpl.
      * split.
        -- intros [= <- <-]. eauto 6.
        -- intros [-> (b' & [= <- <-] & _)]. done.
      * destruct (value_is_zero (value_round balance)) eqn:Hz.
        -- split.
           ++ intros [= <- <-]. eauto 6.
           ++ intros [-> (b' & [= <- <-] & _)]. done.
        -- split; [done|].
           intros [_ (b' & [= <- <-] & [?|?])]; congruence.
    + split; [done|]. by intros [_ (b' & [=] & _)].
  - intros balance w' -> Hn Hz. by rewrite Hn, Hz.
Qed.

(** ** What every step keeps *)

Lemma evolves_refl w : evolves w w.
Proof. by repeat split. Qed.

Lemma evolves_trans w1 w2 w3 : evolves w1 w2 → evolves w2 w3 → evolves w1 w3.
Proof.
  intros (Hh1 & Hx1 & Hd1) (Hh2 & Hx2 & Hd2). repeat split.
  - congruence.
  - by etrans.
  - by etrans.
Qed.

Lemma framed_ret {A} (a : A) : framed (ret a).
Proof. intros w. apply evolves_refl. Qed.

Lemma framed_throw {A} e : framed (throw (A:=A) e).
Proof. intros w. apply evolves_refl. Qed.

Lemma framed_bind {A B} (m : M A) (k : A → M B) :
  framed m → (∀ a, framed (k a)) → framed (bind m k).
Proof.
  intros Hm Hk w. unfold bind. specialize (Hm w).
  destruct (m w) as [[a|e] w1]; simpl in *; [|done].
  eapply evolves_trans; [done|]. apply Hk.
Qed.

Lemma framed_assert b : framed (assert b).
Proof. destruct b; [apply framed_ret|apply framed_throw]. Qed.

Lemma framed_deref p : framed (deref p).
Proof. intros w. unfold deref. destruct (heap w !! p); apply evolves_refl. Qed.

Lemma framed_get_entry : framed get_entry.
Proof. intros w. apply evolves_refl. Qed.

Lemma framed_store p x : framed (store p x).
Proof.
  intros w. repeat split; simpl; [done|].
  rewrite dom_insert. set_solver.
Qed.

Lemma framed_alloc x : framed (alloc x).
Proof.
  intros w. repeat split; simpl; [done|].
  rewrite dom_insert. set_solver.
Qed.

Lemma framed_add_xact p : framed (add_xact p).
Proof.
  intros w. repeat split; simpl; [|done]. by apply prefix_app_r.
Qed.

Lemma framed_if {A} (b : bool) (m1 m2 : M A) :
  framed m1 → framed m2 → framed (if b then m1 else m2).
Proof. by destruct b. Qed.

Create HintDb framed discriminated.
#[local] Hint Resolve framed_ret framed_throw framed_assert framed_deref
  framed_get_entry framed_store framed_alloc framed_add_xact : framed.

Ltac framed_step :=
  match goal with
  | |- framed (bind _ _) => apply framed_bind; [|intros ?]
  | |- framed (if _ then _ else _) => apply framed_if
  | |- framed (match ?x with _ => _ end) => destruct x
  | |- framed (let (_, _) := ?x in _) => destruct x
  | |- framed _ => solve [eauto with framed]
  end.

Ltac solve_framed := repeat framed_step.

Lemma framed_accumulate xs balance null_xact :
  framed (accumulate xs balance null_xact).
Proof.
  revert balance null_xact.
  induction xs as [|x xs IH]; intros; simpl; solve_framed.
Qed.

Lemma framed_balance_against_basket null_xact :
  framed (balance_against_basket null_xact).
Proof. unfold balance_against_basket. solve_framed. Qed.

Lemma framed_negate_amounts nx first amounts :
  framed (negate_amounts nx first amounts).
Proof.
  revert first. induction amounts as [|[c a] rest IH]; intros; simpl; solve_framed.
Qed.

Lemma framed_resolve_null_xact nx balance : framed (resolve_null_xact nx balance).
Proof.
  unfold resolve_null_xact.
  pose proof framed_negate_amounts. solve_framed.
Qed.

Lemma framed_assign_costs per_unit_cost comm xs balance :
  framed (assign_costs per_unit_cost comm xs balance).
Proof.
  revert balance. induction xs as [|x xs IH]; intros; simpl; solve_framed.
Qed.

Lemma framed_infer_costs balance : framed (infer_costs balance).
Proof.
  unfold infer_costs. pose proof framed_assign_costs. solve_framed.
Qed.

Lemma framed_exchange_costs xs balance : framed (exchange_costs xs balance).
Proof.
  revert balance. induction xs as [|x xs IH]; intros; simpl; solve_framed.
Qed.

Lemma framed_check_balance balance : framed (check_balance balance).
Proof. unfold check_balance. solve_framed. Qed.

Lemma framed_balance_entry : framed balance_entry.
Proof.
  unfold balance_entry.
  pose proof framed_accumulate. pose proof framed_balance_against_basket.
  pose proof framed_resolve_null_xact. pose proof framed_infer_costs.
  pose proof framed_exchange_costs. solve_framed.
Qed.

Lemma framed_finalize : framed finalize.
Proof.
  unfold finalize.
  pose proof framed_balance_entry. pose proof framed_check_balance. solve_framed.
Qed.

(** [finalize] answers [true] or throws, and in either case the journal,
    the flags, the source positions and the dates, code and payee of the
    entry are what they were before the call: of the members of the entry,
    [finalize] writes the posting list only. *)
Lemma finalize_leaves_no_mark (w : world) :
  set_xacts [] (this (finalize w).2) = set_xacts [] (this w)
  ∧ ((finalize w).1 = Ok true ∨ ∃ e, (finalize w).1 = Throw e).
Proof.
  split; [apply framed_finalize|].
  rewrite finalize_unfold.
  destruct (balance_entry w) as [[balance|e] w']; simpl; [|eauto].
  destruct (_ || _); simpl; eauto.
Qed.

(** ** The first scan *)

Lemma accumulate_total xs : ∀ balance null_xact w,
  live (heap w) xs →
  accumulate xs balance null_xact w
  = match null_xact, filter (λ p, null_at (heap w) p) xs with
    | _, [] => (Ok (total (heap w) xs balance, null_xact), w)
    | None, [q] => (Ok (total (heap w) xs balance, Some q), w)
    | _, _ => (Throw multiple_null_amounts, w)
    end.
Proof.
  induction xs as [|x xs IH]; intros balance null_xact w Hlive.
  { simpl. by destruct null_xact. }
  apply Forall_cons in Hlive as [[xa Hx] Hlive].
  assert (Hn : null_at (heap w) x
               = must_balance xa && amt_is_null (balancing_amount xa)).
  { unfold null_at. by rewrite Hx. }
  cbn [accumulate total]. rewrite (bind_ok _ _ _ _ _ (deref_ok _ _ _ Hx)), Hx.
  fold (balancing_amount xa). fold (add_to balance (balancing_amount xa)).
  destruct (must_balance xa); simpl in *.
  - destruct (amt_is_null (balancing_amount xa)); simpl.
    + rewrite filter_cons_True by (by rewrite Hn).
      destruct null_xact as [n|]; [done|].
      rewrite IH by done.
      by destruct (filter _ xs).
    + rewrite filter_cons_False by (rewrite Hn; auto). by rewrite IH.
  - rewrite filter_cons_False by (rewrite Hn; auto). by rewrite IH.
Qed.

Lemma accumulate_app l1 l2 : ∀ balance null_xact w,
  accumulate (l1 ++ l2) balance null_xact w
  = match accumulate l1 balance null_xact w with
    | (Ok (b, n), w') => accumulate l2 b n w'
    | (Throw e, w') => (Throw e, w')
    end.
Proof.
  induction l1 as [|x l1 IH]; intros; [done|].
  simpl. unfold bind, deref. destruct (heap w !! x) as [xa|]; [|done].
  destruct (must_balance xa); [|apply IH].
  destruct (negb _); [apply IH|].
  destruct null_xact; [done|apply IH].
Qed.

(** The scan stops at the second posting that brings nothing, whatever
    follows it in the list. *)
Lemma accumulate_second_null pre q rest w :
  live (heap w) pre →
  length (filter (λ p, null_at (heap w) p) pre) = 1 →
  null_at (heap w) q = true →
  accumulate (pre ++ q :: rest) NULL_VALUE None w
  = (Throw multiple_null_amounts, w).
Proof.
  intros Hlive Hone Hq.
  rewrite accumulate_app, accumulate_total by done.
  destruct (filter _ pre) as [|n [|]]; simplify_eq/=.
  unfold null_at in Hq. unfold bind, deref.
  destruct (heap w !! q) as [xa|]; [|done].
  apply andb_true_iff in Hq as [-> Hq].
  unfold balancing_amount in Hq. by rewrite Hq.
Qed.

Lemma finalize_accumulate_throw w e :
  accumulate (xacts (this w)) NULL_VALUE None w = (Throw e, w) →
  finalize w = (Throw e, w).
Proof.
  intros Hacc. unfold finalize, balance_entry.
  unfold bind at 1 2. unfold get_entry at 1.
  by rewrite (bind_throw _ _ _ _ _ Hacc).
Qed.

(** The first scan in terms of [null_at], the test of line 108 on what a
    posting brings to the balance.  [finalize] throws the logic error out of
    the scan, leaving the world as it was, as soon as the scan meets a
    second posting that must balance and passes that test, whatever follows
    it; so it does whenever the entry has two or more such postings.  With
    at most one such posting the scan completes, having recorded that
    posting (if any) as the null posting.  The test of line 108 is the test
    of the amount, [unset_amount_at], of the algorithm quoted at lines
    93-101 on every entry in which no posting has a cost next to an unset
    amount, or an unset cost. *)
Lemma multiple_null_amounts_rejected (w : world) :
  (∀ pre q rest,
     xacts (this w) = pre ++ q :: rest →
     live (heap w) pre →
     length (filter (λ p, null_at (heap w) p) pre) = 1 →
     null_at (heap w) q = true →
     finalize w
     = (Throw (logic_error "Only one xact with null amount allowed per entry"), w))
  ∧ (live (heap w) (xacts (this w)) →
     2 ≤ length (filter (λ p, null_at (heap w) p) (xacts (this w))) →
     finalize w
     = (Throw (logic_error "Only one xact with null amount allowed per entry"), w))
  ∧ (live (heap w) (xacts (this w)) →
     length (filter (λ p, null_at (heap w) p) (xacts (this w))) ≤ 1 →
     accumulate (xacts (this w)) NULL_VALUE None w
     = (Ok (total (heap w) (xacts (this w)) NULL_VALUE,
            head (filter (λ p, null_at (heap w) p) (xacts (this w)))), w))
  ∧ ((∀ p x, p ∈ xacts (this w) → heap w !! p = Some x →
             amt_is_null (balancing_amount x) = amt_is_null (amount x)) →
     filter (λ p, unset_amount_at (heap w) p) (xacts (this w))
     = filter (λ p, null_at (heap w) p) (xacts (this w))).
Proof.
  split; [|split; [|split]]; cycle 3.
  { intros Hsame. apply filter_bool_agree. intros p Hp.
    unfold unset_amount_at, null_at.
    destruct (heap w !! p) as [x|] eqn:Hx; [|done].
    by rewrite (Hsame p x). }
  - intros pre q rest Hxacts Hlive Hone Hq.
    apply finalize_accumulate_throw. rewrite Hxacts.
    by apply accumulate_second_null.
  - intros Hlive Hlen.
    pose proof (accumulate_total _ NULL_VALUE None w Hlive) as Hacc.
    apply finalize_accumulate_throw. rewrite Hacc.
    destruct (filter _ _) as [|? [|]]; simpl in *; [lia|lia|done].
  - intros Hlive Hlen.
    pose proof (accumulate_total _ NULL_VALUE None w Hlive) as Hacc.
    rewrite Hacc.
    destruct (filter _ _) as [|? [|]]; simpl in *; [done|done|lia].
Qed.

(** X27: on an entry in which every posting that has a cost has a set
    amount, and a set cost, [finalize] throws the logic error "Only one xact
    with null amount allowed per entry" out of the first scan, leaving the
    entry and the postings as they were, as soon as the scan meets a second
    posting that must balance and has an unset amount, whatever follows it;
    so it does whenever the entry has two or more such postings.  With at
    most one such posting the scan completes, having summed the others and
    recorded that posting (if any) as the null posting. *)
Theorem unset_amounts_rejected (w : world) :
  live (heap w) (xacts (this w)) →
  (∀ p x c, p ∈ xacts (this w) → heap w !! p = Some x → cost x = Some c →
            amt_is_null (amount x) = false ∧ amt_is_null c = false) →
  (∀ pre q rest,
     xacts (this w) = pre ++ q :: rest →
     length (filter (λ p, unset_amount_at (heap w) p) pre) = 1 →
     unset_amount_at (heap w) q = true →
     finalize w
     = (Throw (logic_error "Only one xact with null amount allowed per entry"), w))
  ∧ (2 ≤ length (filter (λ p, unset_amount_at (heap w) p) (xacts (this w))) →
     finalize w
     = (Throw (logic_error "Only one xact with null amount allowed per entry"), w))
  ∧ (length (filter (λ p, unset_amount_at (heap w) p) (xacts (this w))) ≤ 1 →
     accumulate (xacts (this w)) NULL_VALUE None w
     = (Ok (total (heap w) (xacts (this w)) NULL_VALUE,
            head (filter (λ p, unset_amount_at (heap w) p) (xacts (this w)))), w)).
Proof.
  intros Hlive Hpriced.
  assert (Hagree : ∀ p, p ∈ xacts (this w) →
                        unset_amount_at (heap w) p = null_at (heap w) p).
  { intros p Hp. unfold unset_amount_at, null_at.
    destruct (heap w !! p) as [x|] eqn:Hx; [|done].
    unfold balancing_amount. destruct (cost x) as [c|] eqn:Hc; [|done].
    by destruct (Hpriced p x c Hp Hx Hc) as [-> ->]. }
  pose proof (filter_bool_agree _ _ _ Hagree) as Hfilter.
  destruct (multiple_null_amounts_rejected w) as (Hsecond & Hmany & Hfew & _).
  split; [|split].
  - intros pre q rest Hxacts Hone Hq.
    apply (Hsecond pre q rest Hxacts).
    + rewrite Hxacts in Hlive. by apply Forall_app in Hlive as [? _].
    + rewrite <- Hone. f_equal. symmetry. apply filter_bool_agree.
      intros p Hp. apply Hagree. rewrite Hxacts. apply elem_of_app. by left.
    + rewrite <- Hagree; [done|].
      rewrite Hxacts. apply elem_of_app. right. apply list_elem_of_here.
  - rewrite Hfilter. by apply Hmany.
  - rewrite Hfilter. by apply Hfew.
Qed.

(** ** The exchange of the costs *)

Lemma same_but_amount_refl X : same_but_amount X X.
Proof. by destruct X. Qed.

Lemma same_but_amount_set a X X' :
  same_but_amount (set_amount a X) X' → same_but_amount X X'.
Proof.
  destruct X, X'. unfold same_but_amount, set_amount. simpl.
  by intros [= -> -> -> -> -> -> -> -> -> -> ->].
Qed.

Lemma same_but_amount_members X X' :
  same_but_amount X X' → cost X' = cost X ∧ flags X' = flags X.
Proof. unfold same_but_amount. intros HS. by rewrite <- HS. Qed.

Lemma same_but_amount_balancing X X' :
  same_but_amount X X' → (cost X = None → X' = X) →
  balancing_amount X' = balancing_amount X ∧ must_balance X' = must_balance X.
Proof.
  intros HS Hnocost. destruct (same_but_amount_members _ _ HS) as [Hc Hf].
  unfold balancing_amount, must_balance. rewrite Hc, Hf. split; [|done].
  destruct (cost X) eqn:HcX; [done|]. by rewrite Hnocost.
Qed.

Lemma amounts_changed_refl w : amounts_changed w w.
Proof.
  split; [done|]. intros p. destruct (heap w !! p) as [X|] eqn:HX; [|done].
  exists X. split; [done|]. split; [apply same_but_amount_refl|done].
Qed.

Lemma exchange_costs_effect xs : ∀ balance w r w',
  exchange_costs xs balance w = (r, w') → amounts_changed w w'.
Proof.
  induction xs as [|x xs IH]; intros balance w r w' Hex.
  { injection Hex as <- <-. apply amounts_changed_refl. }
  cbn [exchange_costs] in Hex. unfold bind at 1 in Hex. unfold deref at 1 in Hex.
  destruct (heap w !! x) as [xa|] eqn:Hx;
    [|injection Hex as <- <-; apply amounts_changed_refl].
  destruct (cost xa) as [c|] eqn:Hc; [|by eapply IH].
  unfold bind at 1 in Hex. destruct (negb _); simpl in Hex;
    [|injection Hex as <- <-; apply amounts_changed_refl].
  unfold bind at 1 in Hex. simpl in Hex.
  destruct (exchange _ _ _ _) as [[ann_amount final_cost] basis_cost].
  destruct (amt_commodity_annotated _).
  { destruct (bool_decide _); by eapply IH. }
  unfold bind at 1 in Hex. simpl in Hex.
  apply IH in Hex as [Hthis Hheap]. simpl in *.
  split; [done|].
  intros p. specialize (Hheap p).
  destruct (decide (p = x)) as [->|Hne].
  - rewrite Hx. rewrite lookup_insert_eq in Hheap.
    destruct Hheap as (X' & HX' & Hsame & _).
    exists X'. split; [done|]. split; [|congruence].
    by eapply same_but_amount_set.
  - by rewrite lookup_insert_ne in Hheap.
Qed.

(** ** A lone posting and the basket account *)

Section Basket.
Variables (w : world) (x1 : xact_ptr) (X1 : xact_t) (j : journal_t) (b : account_t).
Hypothesis Hxacts : xacts (this w) = [x1].
Hypothesis Hx1 : heap w !! x1 = Some X1.
Hypothesis Hjournal : journal (this w) = Some j.
Hypothesis Hbasket : basket j = Some b.

#[local] Abbreviation new_ptr := (fresh (dom (heap w))).

Lemma basket_fresh : new_ptr ≠ x1.
Proof using Hx1.
  intros Heq. apply (is_fresh (dom (heap w))). rewrite Heq.
  apply elem_of_dom. eauto.
Qed.

Lemma balance_against_basket_lone null_xact :
  balance_against_basket null_xact w
  = (Ok (Some new_ptr),
     {| heap := <[new_ptr := set_state (state X1) (new_xact b null_amount XACT_GENERATED)]> (heap w);
        this := set_xacts [x1; new_ptr] (this w) |}).
Proof using Hxacts Hx1 Hjournal Hbasket.
  unfold balance_against_basket, bind, get_entry.
  rewrite Hjournal, Hbasket, Hxacts. unfold alloc, deref. simpl.
  rewrite lookup_insert_ne by apply basket_fresh. rewrite Hx1. simpl.
  rewrite lookup_insert_eq. unfold store, add_xact, bind, get_entry, put_entry, ret.
  simpl. by rewrite insert_insert_eq, Hxacts.
Qed.

Lemma accumulate_lone :
  accumulate [x1] NULL_VALUE None w
  = (Ok (if must_balance X1
         then if amt_is_null (balancing_amount X1)
              then (NULL_VALUE, Some x1)
              else (AMOUNT (balancing_amount X1), None)
         else (NULL_VALUE, None)), w).
Proof using Hx1.
  simpl. rewrite (bind_ok _ _ _ _ _ (deref_ok _ _ _ Hx1)).
  fold (balancing_amount X1).
  destruct (must_balance X1); [|done].
  by destruct (amt_is_null (balancing_amount X1)).
Qed.

(** The steps of [finalize] before the exchange, on a lone posting. *)
Lemma balance_entry_lone :
  balance_entry w
  = if must_balance X1 && negb (amt_is_null (balancing_amount X1))
    then
      if value_valid (AMOUNT (balancing_amount X1)) then
        exchange_costs [x1; new_ptr] NULL_VALUE
          {| heap := <[new_ptr := basket_posting b X1]> (heap w);
             this := set_xacts [x1; new_ptr] (this w) |}
      else (Throw assertion_failure, w)
    else
      if value_valid NULL_VALUE then
        (Throw assertion_failure,
         {| heap := <[new_ptr := set_state (state X1) (new_xact b null_amount XACT_GENERATED)]> (heap w);
            this := set_xacts [x1; new_ptr] (this w) |})
      else (Throw assertion_failure, w).
Proof using Hxacts Hx1 Hjournal Hbasket.
  unfold balance_entry. unfold bind at 1. unfold get_entry at 1.
  rewrite Hxacts. rewrite (bind_ok _ _ _ _ _ accumulate_lone).
  assert (Hthrow : ∀ nx,
    (assert (value_valid NULL_VALUE) ;;;
     null_xact <- balance_against_basket nx ;;
     balance <- match null_xact with
                | Some nx => resolve_null_xact nx NULL_VALUE
                | None => infer_costs NULL_VALUE
                end ;;
     e <- get_entry ;;
     exchange_costs (xacts e) balance) w
    = if value_valid NULL_VALUE then
        (Throw assertion_failure,
         {| heap := <[new_ptr := set_state (state X1) (new_xact b null_amount XACT_GENERATED)]> (heap w);
            this := set_xacts [x1; new_ptr] (this w) |})
      else (Throw assertion_failure, w)).
  { intros nx. unfold bind at 1. destruct (value_valid NULL_VALUE); [|done].
    simpl. by rewrite (bind_ok _ _ _ _ _ (balance_against_basket_lone nx)). }
  destruct (must_balance X1); cbn [andb negb]; [|by apply Hthrow].
  destruct (amt_is_null (balancing_amount X1)); cbn [andb negb];
    [by apply Hthrow|].
  unfold bind at 1. unfold assert. destruct (value_valid (AMOUNT _)); [|done].
  cbn [ret]. rewrite (bind_ok _ _ _ _ _ (balance_against_basket_lone None)).
  unfold resolve_null_xact.
  unfold bind at 1 2 3. unfold deref at 1. cbn [heap this].
  rewrite lookup_insert_eq. unfold store at 1. cbn [heap this ret].
  rewrite insert_insert_eq. unfold bind at 1. by unfold get_entry at 1.
Qed.

(** C7: on an entry with one posting whose journal has a basket account,
    the second step of [finalize] creates a posting in that account with an
    unset amount, flagged generated, in the state of the first posting,
    appends it and makes it the null posting; once the first scan has
    passed its validity check, that posting is the second and last of the
    entry when [finalize] ends, however it ends.  When [finalize] succeeds
    the entry has exactly two postings; the second is that posting, now
    flagged generated and calculated, with the negated balancing amount of
    the first; the first is as before up to its amount; and, when that
    amount cancels against its negation, the postings of the entry sum to
    zero. *)
Theorem lone_posting_balanced_against_basket :
  (∀ null_xact,
     balance_against_basket null_xact w
     = (Ok (Some new_ptr),
        {| heap := <[new_ptr := {| account := b; amount := null_amount;
                                   cost := None; state := state X1;
                                   _date := None; _date_eff := None;
                                   note := None; beg_pos := 0; beg_line := 0;
                                   end_pos := 0; end_line := 0;
                                   flags := XACT_GENERATED |}]> (heap w);
           this := set_xacts [x1; new_ptr] (this w) |}))
  ∧ (value_valid (total (heap w) [x1] NULL_VALUE) = true →
     xacts (this (finalize w).2) = [x1; new_ptr]
     ∧ ∃ N, heap (finalize w).2 !! new_ptr = Some N
            ∧ account N = b ∧ state N = state X1
            ∧ f_generated (flags N) = true ∧ cost N = None)
  ∧ (∀ w', finalize w = (Ok true, w') →
       xacts (this w') = [x1; new_ptr]
       ∧ heap w !! new_ptr = None
       ∧ heap w' !! new_ptr = Some (basket_posting b X1)
       ∧ f_generated (flags (basket_posting b X1)) = true
       ∧ f_calculated (flags (basket_posting b X1)) = true
       ∧ (∃ X1', heap w' !! x1 = Some X1' ∧ same_but_amount X1 X1')
       ∧ (amt_is_null (amt_negate (balancing_amount X1)) = false →
          value_is_zero (value_round
            (value_add (AMOUNT (balancing_amount X1))
               (amt_negate (balancing_amount X1)))) = true →
          balanced w')).
Proof using Hxacts Hx1 Hjournal Hbasket.
  split; [apply balance_against_basket_lone|]. split.
  - rewrite finalize_world, balance_entry_lone. cbn [total]. rewrite Hx1.
    intros Hvalid.
    destruct (must_balance X1 && negb (amt_is_null (balancing_amount X1))).
    + unfold add_to in Hvalid. cbn [value_is_null] in Hvalid. rewrite Hvalid.
      destruct (exchange_costs _ _ _) as [r w2] eqn:Hex.
      apply exchange_costs_effect in Hex as [Hthis Hheap]. simpl in *.
      specialize (Hheap new_ptr). rewrite lookup_insert_eq in Hheap.
      destruct Hheap as (N' & HN' & _ & HNeq). rewrite (HNeq eq_refl) in HN'.
      rewrite Hthis. split; [done|]. by exists (basket_posting b X1).
    + rewrite Hvalid. simpl. split; [done|].
      rewrite lookup_insert_eq. by eexists.
  - intros w' Hfin. rewrite finalize_unfold, balance_entry_lone in Hfin.
    destruct (must_balance X1) eqn:Hmb; cbn [andb negb] in Hfin;
      [|by destruct (value_valid NULL_VALUE)].
    destruct (amt_is_null (balancing_amount X1)) eqn:Hnull;
      cbn [andb negb] in Hfin; [by destruct (value_valid NULL_VALUE)|].
    destruct (value_valid (AMOUNT _)); [|done].
    destruct (exchange_costs _ _ _) as [[balance|e] w2] eqn:Hex; [|done].
    assert (w2 = w') as -> by (by destruct (_ || _); simplify_eq).
    apply exchange_costs_effect in Hex as [Hthis Hheap]. simpl in *.
    assert (Hn : heap w !! new_ptr = None).
    { apply not_elem_of_dom, is_fresh. }
    pose proof (Hheap new_ptr) as HN. rewrite lookup_insert_eq in HN.
    destruct HN as (N' & HN' & _ & HNeq). rewrite (HNeq eq_refl) in HN'.
    pose proof (Hheap x1) as HX. rewrite lookup_insert_ne, Hx1 in HX
      by apply basket_fresh.
    destruct HX as (X1' & HX1' & Hsame & Hnocost).
    rewrite Hthis. repeat split; try done; [by eauto|].
    intros Hneg Hzero.
    right. rewrite Hthis. simpl. rewrite HX1', HN'.
    destruct (same_but_amount_balancing _ _ Hsame Hnocost) as [-> ->].
    rewrite Hmb, Hnull. simpl.
    unfold balancing_amount at 1 3. simpl. by rewrite Hneg.
Qed.

End Basket.

(** ** The null posting and a balance of several commodities *)

Lemma balance_against_basket_skip null_xact w :
  length (xacts (this w)) ≠ 1 →
  balance_against_basket null_xact w = (Ok null_xact, w).
Proof.
  intros Hlen. unfold balance_against_basket, bind, get_entry.
  destruct (journal (this w)) as [j|]; [|done].
  destruct (basket j); [|done].
  by destruct (xacts (this w)) as [|? [|]].
Qed.

Lemma total_lone_not_balance h x amounts :
  total h [x] NULL_VALUE ≠ BALANCE amounts.
Proof.
  simpl. destruct (h !! x) as [xa|]; [|done].
  by destruct (_ && _).
Qed.

Lemma generated_for_weaken h0 h h' acct news amounts :
  h0 ⊆ h → generated_for h h' acct news amounts →
  generated_for h0 h' acct news amounts.
Proof.
  intros Hsub Hgen. eapply Forall2_impl; [exact Hgen|].
  intros n ca [Hn Hn']. split; [|done].
  destruct (h0 !! n) eqn:Hn0; [|done].
  eapply lookup_weaken in Hn0; [|done]. congruence.
Qed.

(** Lines 181-185, once the first amount has gone to the null posting. *)
Lemma negate_rest_effect nx NX amounts : ∀ w,
  heap w !! nx = Some NX →
  ∃ news w',
    negate_amounts nx false amounts w = (Ok tt, w')
    ∧ this w' = set_xacts (xacts (this w) ++ news) (this w)
    ∧ heap w ⊆ heap w'
    ∧ generated_for (heap w) (heap w') (account NX) news amounts.
Proof.
  induction amounts as [|[c a] rest IH]; intros w Hnx.
  { exists [], w. split; [done|]. rewrite app_nil_r, set_xacts_same.
    split; [done|]. split; [done|]. constructor. }
  cbn [negate_amounts]. unfold bind at 1 2 3. unfold deref at 1. rewrite Hnx.
  unfold alloc at 1. cbn [heap this]. unfold add_xact, bind, get_entry, put_entry.
  cbn [heap this].
  set (n := fresh (dom (heap w))).
  set (G := new_xact (account NX) (amt_negate a) XACT_GENERATED).
  assert (Hn : heap w !! n = None) by apply not_elem_of_dom, is_fresh.
  assert (Hsub : heap w ⊆ <[n := G]> (heap w)) by by apply insert_subseteq.
  destruct (IH {| heap := <[n := G]> (heap w);
                  this := set_xacts (xacts (this w) ++ [n]) (this w) |})
    as (news & w' & Hrun & Hthis & Hsub' & Hgen).
  { simpl. eapply lookup_weaken; done. }
  exists (n :: news), w'. simpl in *. split; [done|].
  split; [by rewrite Hthis, <- app_assoc|].
  split; [by etrans|].
  constructor.
  - split; [done|]. eapply lookup_weaken; [|done]. apply lookup_insert_eq.
  - by eapply generated_for_weaken.
Qed.

Lemma resolve_balance_effect nx NX c1 a1 rest w :
  heap w !! nx = Some NX →
  ∃ news w',
    resolve_null_xact nx (BALANCE ((c1, a1) :: rest)) w = (Ok NULL_VALUE, w')
    ∧ this w' = set_xacts (xacts (this w) ++ news) (this w)
    ∧ heap w' !! nx = Some (set_amount (amt_negate a1) NX)
    ∧ generated_for (heap w) (heap w') (account NX) news rest
    ∧ (∀ p, p ≠ nx → is_Some (heap w !! p) → heap w' !! p = heap w !! p).
Proof.
  intros Hnx. unfold resolve_null_xact. cbn [negate_amounts].
  unfold bind at 1 2 3. unfold deref at 1. rewrite Hnx. unfold store at 1.
  set (w1 := {| heap := <[nx := set_amount (amt_negate a1) NX]> (heap w);
                this := this w |}).
  destruct (negate_rest_effect nx (set_amount (amt_negate a1) NX) rest w1)
    as (news & w' & Hrun & Hthis & Hsub & Hgen).
  { apply lookup_insert_eq. }
  rewrite Hrun. exists news, w'. split; [done|]. split; [done|].
  split; [eapply lookup_weaken; [|exact Hsub]; apply lookup_insert_eq|].
  split.
  - eapply Forall2_impl; [exact Hgen|]. intros n ca [Hn Hn']. split; [|done].
    simpl in Hn. apply lookup_insert_None in Hn. tauto.
  - intros p Hp [X HX]. rewrite HX. eapply lookup_weaken; [|done].
    simpl. by rewrite lookup_insert_ne.
Qed.

(** C3, as amended: with one null posting and an accumulated balance of
    the amounts [a1], [rest], the resolution step of [finalize] gives the
    null posting the negation of [a1] and appends, for each amount of [rest]
    in order, one new generated posting in the account of the null posting
    that holds the negated amount, leaving the other postings alone: as
    many new postings as there are commodities beyond the first.  The
    exchange and the final check then run with an empty balance; when
    [finalize] returns the new postings are as they were made, and so is
    the null posting when it has no cost of its own. *)
Theorem null_posting_negates_each_commodity (w : world) (nx : xact_ptr)
    (NX : xact_t) (c1 : commodity_t) (a1 : amount_t) (rest : amounts_map) :
  live (heap w) (xacts (this w)) →
  filter (λ p, null_at (heap w) p) (xacts (this w)) = [nx] →
  total (heap w) (xacts (this w)) NULL_VALUE = BALANCE ((c1, a1) :: rest) →
  value_valid (BALANCE ((c1, a1) :: rest)) = true →
  heap w !! nx = Some NX →
  ∃ news w2,
    finalize w
    = (balance <- exchange_costs (xacts (this w2)) NULL_VALUE ;;
       check_balance balance) w2
    ∧ this w2 = set_xacts (xacts (this w) ++ news) (this w)
    ∧ length news = length rest
    ∧ heap w2 !! nx = Some (set_amount (amt_negate a1) NX)
    ∧ generated_for (heap w) (heap w2) (account NX) news rest
    ∧ (∀ p, p ≠ nx → is_Some (heap w !! p) → heap w2 !! p = heap w !! p)
    ∧ xacts (this (finalize w).2) = xacts (this w) ++ news
    ∧ generated_for (heap w) (heap (finalize w).2) (account NX) news rest
    ∧ (cost NX = None →
       heap (finalize w).2 !! nx = Some (set_amount (amt_negate a1) NX)).
Proof.
  intros Hlive Hnull Htotal Hvalid Hnx.
  destruct (resolve_balance_effect nx NX c1 a1 rest w Hnx)
    as (news & w2 & Hrun & Hthis & Hnx2 & Hgen & Hothers).
  assert (Hbe : balance_entry w
                = exchange_costs (xacts (this w2)) NULL_VALUE w2).
  { unfold balance_entry. unfold bind at 1. unfold get_entry at 1.
    pose proof (accumulate_total _ NULL_VALUE None w Hlive) as Hacc.
    rewrite Hnull, Htotal in Hacc. rewrite (bind_ok _ _ _ _ _ Hacc).
    unfold bind at 1. rewrite Hvalid. cbn [assert ret].
    erewrite bind_ok; cycle 1.
    { apply balance_against_basket_skip. intros Hlen.
      destruct (xacts (this w)) as [|x [|]]; try done.
      by apply total_lone_not_balance in Htotal. }
    by rewrite (bind_ok _ _ _ _ _ Hrun). }
  exists news, w2.
  split; [by unfold finalize, bind; rewrite Hbe|].
  split; [done|]. split; [by eapply Forall2_length|].
  split; [done|]. split; [done|]. split; [done|].
  rewrite finalize_world, Hbe.
  destruct (exchange_costs _ _ w2) as [r w'] eqn:Hex.
  apply exchange_costs_effect in Hex as [Hthis' Hheap]. simpl.
  rewrite Hthis', Hthis. split; [done|]. split.
  - eapply Forall2_impl; [exact Hgen|]. intros n ca [Hn Hn2]. split; [done|].
    specialize (Hheap n). rewrite Hn2 in Hheap.
    destruct Hheap as (X' & HX' & _ & Heq). by rewrite HX', Heq.
  - intros Hcost. specialize (Hheap nx). rewrite Hnx2 in Hheap.
    destruct Hheap as (X' & HX' & _ & Heq). by rewrite HX', Heq.
Qed.

(** ** The inference of a per-unit cost *)

Lemma wants_cost_source comm x :
  negb (bool_decide (is_Some (cost x)) || negb (must_balance x)
        || bool_decide (amt_commodity (amount x) = comm))
  = wants_cost comm x.
Proof.
  unfold wants_cost. destruct (cost x), (must_balance x); simpl; try done.
  repeat case_bool_decide; done || (by exfalso; eauto using is_Some_None).
Qed.

Lemma wants_cost_inferred per_unit_cost comm x :
  wants_cost comm (with_inferred_cost per_unit_cost comm x) = false.
Proof.
  unfold with_inferred_cost. destruct (wants_cost comm x) eqn:Hw; [|done].
  unfold wants_cost. simpl. by rewrite andb_false_r.
Qed.

Lemma first_visits_nodup xs : ∀ seen,
  NoDup xs → (∀ x, x ∈ xs → x ∉ seen) → first_visits seen xs = xs.
Proof.
  induction xs as [|x xs IH]; intros seen Hnodup Hseen; [done|].
  apply NoDup_cons in Hnodup as [Hx Hnodup]. simpl.
  rewrite decide_False by (apply Hseen, list_elem_of_here).
  rewrite IH; [done..|].
  intros y Hy [->|Hin]%elem_of_cons; [done|].
  by apply (Hseen y); [apply list_elem_of_further|].
Qed.

(** Lines 229-250 in closed form: [h0] is the store when the loop begins,
    [seen] the postings it has gone through. *)
Lemma assign_costs_effect per_unit_cost comm h0 xs : ∀ seen balance w,
  live h0 xs →
  (∀ p, heap w !! p
        = if decide (p ∈ seen)
          then with_inferred_cost per_unit_cost comm <$> h0 !! p
          else h0 !! p) →
  ∃ w',
    assign_costs per_unit_cost comm xs balance w
    = (Ok (foldl (reprice per_unit_cost) balance
             (filter (λ x, wants_cost comm x)
                (postings h0 (first_visits seen xs)))), w')
    ∧ this w' = this w
    ∧ ∀ p, heap w' !! p
           = if decide (p ∈ seen ++ xs)
             then with_inferred_cost per_unit_cost comm <$> h0 !! p
             else h0 !! p.
Proof.
  induction xs as [|x xs IH]; intros seen balance w Hlive Hheap.
  { exists w. split; [done|]. split; [done|]. intros p.
    by rewrite app_nil_r. }
  apply Forall_cons in Hlive as [[xa Hx] Hlive].
  cbn [assign_costs first_visits].
  pose proof (Hheap x) as Hwx. rewrite Hx in Hwx.
  destruct (decide (x ∈ seen)) as [Hseen|Hseen].
  - simpl in Hwx. rewrite (bind_ok _ _ _ _ _ (deref_ok _ _ _ Hwx)).
    rewrite wants_cost_source, wants_cost_inferred.
    destruct (IH seen balance w Hlive Hheap) as (w' & Hrun & Hthis & Hheap').
    exists w'. split; [done|]. split; [done|].
    intros p. rewrite Hheap'. apply decide_ext.
    rewrite !elem_of_app, elem_of_cons. intuition (subst; tauto).
  - rewrite (bind_ok _ _ _ _ _ (deref_ok _ _ _ Hwx)).
    rewrite wants_cost_source. cbn [postings]. rewrite Hx, filter_cons.
    destruct (wants_cost comm xa) eqn:Hwants.
    + rewrite decide_True by done.
      unfold bind at 1. unfold store at 1.
      set (X := set_cost (Some (amt_mul per_unit_cost (amount xa))) xa).
      destruct (IH (x :: seen)
                   (value_add (value_sub balance (amount xa))
                      (amt_mul per_unit_cost (amount xa)))
                   {| heap := <[x := X]> (heap w); this := this w |} Hlive)
        as (w' & Hrun & Hthis & Hheap').
      { intros p. simpl. destruct (decide (p = x)) as [->|Hne].
        - rewrite lookup_insert_eq, decide_True by apply list_elem_of_here.
          rewrite Hx. simpl. unfold with_inferred_cost. by rewrite Hwants.
        - rewrite lookup_insert_ne, Hheap by done. apply decide_ext.
          rewrite elem_of_cons. intuition (subst; tauto). }
      exists w'. split; [done|]. split; [done|].
      intros p. rewrite Hheap'. apply decide_ext.
      rewrite !elem_of_app, !elem_of_cons. intuition (subst; tauto).
    + rewrite decide_False by by rewrite Is_true_false.
      destruct (IH (x :: seen) balance w Hlive) as (w' & Hrun & Hthis & Hheap').
      { intros p. rewrite Hheap. destruct (decide (p = x)) as [->|Hne].
        - rewrite decide_False, decide_True by (done || apply list_elem_of_here).
          rewrite Hx. simpl. unfold with_inferred_cost. by rewrite Hwants.
        - apply decide_ext. rewrite elem_of_cons. intuition (subst; tauto). }
      exists w'. split; [done|]. split; [done|].
      intros p. rewrite Hheap'. apply decide_ext.
      rewrite !elem_of_app, !elem_of_cons. intuition (subst; tauto).
Qed.

(** C4: with no null posting and a balance of exactly two amounts [x], [y]:
    when [y] is really zero the inference does nothing and leaves the
    balance; otherwise every posting of the entry that must balance, has no
    cost and whose amount is of another commodity than that of [x] gets the
    cost [|x / y|] times its amount, the other postings are left alone, and
    the balance loses the amount and gains the cost of each such posting,
    once, in the order of the list.  [finalize] runs that inference, then
    the exchange and the final check, when the first scan finds no null
    posting and such a balance. *)
Theorem two_commodities_infer_cost (w : world) (cx cy : commodity_t)
    (x y : amount_t) :
  live (heap w) (xacts (this w)) →
  (amt_is_realzero y = true →
   infer_costs (BALANCE [(cx, x); (cy, y)]) w
   = (Ok (BALANCE [(cx, x); (cy, y)]), w))
  ∧ (amt_is_realzero y = false →
     ∃ w',
       infer_costs (BALANCE [(cx, x); (cy, y)]) w
       = (Ok (foldl (reprice (amt_abs (amt_div x y))) (BALANCE [(cx, x); (cy, y)])
                (filter (λ p, wants_cost (amt_commodity x) p)
                   (postings (heap w) (first_visits [] (xacts (this w)))))), w')
       ∧ this w' = this w
       ∧ ∀ p, heap w' !! p
              = if decide (p ∈ xacts (this w))
                then with_inferred_cost (amt_abs (amt_div x y)) (amt_commodity x)
                       <$> heap w !! p
                else heap w !! p)
  ∧ (filter (λ p, null_at (heap w) p) (xacts (this w)) = [] →
     total (heap w) (xacts (this w)) NULL_VALUE = BALANCE [(cx, x); (cy, y)] →
     value_valid (BALANCE [(cx, x); (cy, y)]) = true →
     finalize w
     = (balance <- infer_costs (BALANCE [(cx, x); (cy, y)]) ;;
        e <- get_entry ;;
        balance <- exchange_costs (xacts e) balance ;;
        check_balance balance) w).
Proof.
  intros Hlive. split; [|split].
  - intros Hy. unfold infer_costs. by rewrite Hy.
  - intros Hy. unfold infer_costs. rewrite Hy. cbn [negb].
    unfold bind, get_entry.
    apply (assign_costs_effect _ _ (heap w) _ []); [done|].
    intros p. by rewrite decide_False by apply not_elem_of_nil.
  - intros Hnull Htotal Hvalid.
    pose proof (accumulate_total _ NULL_VALUE None w Hlive) as Hacc.
    rewrite Hnull, Htotal in Hacc.
    unfold finalize, balance_entry.
    unfold bind at 1 2. unfold get_entry at 1.
    rewrite (bind_ok _ _ _ _ _ Hacc).
    unfold bind at 1. rewrite Hvalid. cbn [assert ret].
    erewrite bind_ok; cycle 1.
    { apply balance_against_basket_skip. intros Hlen.
      destruct (xacts (this w)) as [|? [|]]; try done.
      by apply total_lone_not_balance in Htotal. }
    unfold bind.
    destruct (infer_costs _ w) as [[balance|e] w1]; [|done].
    unfold get_entry. by destruct (exchange_costs _ _ w1) as [[?|?] ?].
Qed.

(** ** Automated entries *)

Lemma apply_template_skip post i t w :
  template_amount post i t w = (Ok None, w) →
  apply_template post i t w = (Ok tt, w).
Proof. intros Hamt. unfold apply_template. by rewrite (bind_ok _ _ _ _ _ Hamt). Qed.

Lemma apply_template_add post i t ia ta amt w :
  heap w !! i = Some ia → heap w !! t = Some ta →
  template_amount post i t w = (Ok (Some amt), w) →
  fullname (account ta) ≠ "" →
  apply_template post i t w = (Ok tt, appended w (mirror ia ta amt)).
Proof.
  intros Hi Ht Hamt Hname. unfold apply_template.
  rewrite (bind_ok _ _ _ _ _ Hamt), (bind_ok _ _ _ _ _ (deref_ok _ _ _ Ht)).
  apply String.eqb_neq in Hname. rewrite Hname. cbn [negb assert].
  unfold bind at 1. cbn [ret]. unfold bind at 1.
  assert (Hacct :
    (if String.eqb (fullname (account ta)) "$account"
        || String.eqb (fullname (account ta)) "@account"
     then ia0 <- deref i ;; ret (account ia0) else ret (account ta)) w
    = (Ok (account (mirror ia ta amt)), w)).
  { simpl. destruct (_ || _); [|done].
    by rewrite (bind_ok _ _ _ _ _ (deref_ok _ _ _ Hi)). }
  rewrite Hacct. unfold bind, alloc, deref, store, add_xact, get_entry, put_entry.
  cbn [heap this]. rewrite lookup_insert_eq. cbn [heap this].
  by rewrite insert_insert_eq.
Qed.

(** C5: a template whose amount carries no commodity adds a posting only
    when [post] is true, with the matched posting's amount times the
    template's; a template whose amount carries a commodity adds a posting
    only when [post] is false, with the template's amount; in the other
    mode each adds nothing and leaves the world as it is. *)
Theorem template_applies_by_mode (post : bool) (i t : xact_ptr)
    (ia ta : xact_t) (w : world) :
  heap w !! i = Some ia →
  heap w !! t = Some ta →
  amt_nonzero (amount ta) = true →
  (commodity_bool (amt_commodity (amount ta)) = false →
     (post = false → apply_template post i t w = (Ok tt, w))
     ∧ (post = true → amt_nonzero (amount ia) = true →
        fullname (account ta) ≠ "" →
        apply_template post i t w
        = (Ok tt, appended w (mirror ia ta (amt_mul (amount ia) (amount ta))))))
  ∧ (commodity_bool (amt_commodity (amount ta)) = true →
     (post = true → apply_template post i t w = (Ok tt, w))
     ∧ (post = false → fullname (account ta) ≠ "" →
        apply_template post i t w
        = (Ok tt, appended w (mirror ia ta (amount ta))))).
Proof.
  intros Hi Ht Hnz.
  assert (Hamt : template_amount post i t w
    = if negb (commodity_bool (amt_commodity (amount ta))) then
        if negb post then (Ok None, w)
        else if amt_nonzero (amount ia)
             then (Ok (Some (amt_mul (amount ia) (amount ta))), w)
             else (Throw assertion_failure, w)
      else if post then (Ok None, w) else (Ok (Some (amount ta)), w)).
  { unfold template_amount.
    rewrite (bind_ok _ _ _ _ _ (deref_ok _ _ _ Ht)), Hnz. unfold bind at 1.
    cbn [assert ret]. destruct (negb (commodity_bool _)); [|by destruct post].
    destruct post; [|done]. cbn [negb].
    rewrite (bind_ok _ _ _ _ _ (deref_ok _ _ _ Hi)). unfold bind.
    by destruct (amt_nonzero (amount ia)). }
  split; intros Hc; rewrite Hc in Hamt; cbn [negb] in Hamt; split.
  - intros ->. by apply apply_template_skip.
  - intros -> Hia Hname. rewrite Hia in Hamt. by eapply apply_template_add.
  - intros ->. by apply apply_template_skip.
  - intros -> Hname. by eapply apply_template_add.
Qed.

(** *** What an expansion keeps *)

Lemma extended_refl w : extended w w.
Proof.
  split; [done|]. exists []. by rewrite app_nil_r, set_xacts_same.
Qed.

Lemma extended_trans w1 w2 w3 : extended w1 w2 → extended w2 w3 → extended w1 w3.
Proof.
  intros (Hsub1 & news1 & Hthis1 & Hnew1) (Hsub2 & news2 & Hthis2 & Hnew2).
  split; [by etrans|]. exists (news1 ++ news2). split.
  - rewrite Hthis2, Hthis1. simpl. by rewrite app_assoc.
  - apply Forall_app. split; [done|].
    eapply Forall_impl; [exact Hnew2|]. intros n Hn. simpl in Hn.
    destruct (heap w1 !! n) eqn:Hn1; [|done].
    eapply lookup_weaken in Hn1; [|done]. congruence.
Qed.

Lemma extended_appended w x : extended w (appended w x).
Proof.
  assert (Hn : heap w !! fresh (dom (heap w)) = None)
    by apply not_elem_of_dom, is_fresh.
  split; [by apply insert_subseteq|].
  exists [fresh (dom (heap w))]. split; [done|]. by constructor.
Qed.

Lemma extending_ret {A} (a : A) : extending (ret a).
Proof. intros w. apply extended_refl. Qed.

Lemma extending_throw {A} e : extending (throw (A:=A) e).
Proof. intros w. apply extended_refl. Qed.

Lemma extending_bind {A B} (m : M A) (k : A → M B) :
  extending m → (∀ a, extending (k a)) → extending (bind m k).
Proof.
  intros Hm Hk w. unfold bind. specialize (Hm w).
  destruct (m w) as [[a|e] w1]; simpl in *; [|done].
  eapply extended_trans; [done|]. apply Hk.
Qed.

Lemma extending_assert b : extending (assert b).
Proof. destruct b; [apply extending_ret|apply extending_throw]. Qed.

Lemma extending_deref p : extending (deref p).
Proof. intros w. unfold deref. destruct (heap w !! p); apply extended_refl. Qed.

Lemma extending_if {A} (b : bool) (m1 m2 : M A) :
  extending m1 → extending m2 → extending (if b then m1 else m2).
Proof. by destruct b. Qed.

(** Lines 467-481: the new posting is made, filled in and appended. *)
Lemma add_mirror_appended X ta w :
  (xact <- alloc X ;; xa <- deref xact ;; store xact (copy_details ta xa) ;;;
   add_xact xact) w
  = (Ok tt, appended w (copy_details ta X)).
Proof.
  unfold bind, alloc, deref, store, add_xact, get_entry, put_entry.
  cbn [heap this]. rewrite lookup_insert_eq. cbn [heap this].
  by rewrite insert_insert_eq.
Qed.

Lemma extending_add_mirror X ta :
  extending (xact <- alloc X ;; xa <- deref xact ;;
             store xact (copy_details ta xa) ;;; add_xact xact).
Proof. intros w. rewrite add_mirror_appended. apply extended_appended. Qed.

Create HintDb extending discriminated.
#[local] Hint Resolve extending_ret extending_throw extending_assert
  extending_deref extending_add_mirror : extending.

Ltac extending_step :=
  match goal with
  | |- extending (bind (alloc _) _) => apply extending_add_mirror
  | |- extending (bind _ _) => apply extending_bind; [|intros ?]
  | |- extending (if _ then _ else _) => apply extending_if
  | |- extending (match ?x with _ => _ end) => destruct x
  | |- extending _ => solve [eauto with extending]
  end.

Lemma extending_apply_template post i t : extending (apply_template post i t).
Proof. unfold apply_template, template_amount. repeat extending_step. Qed.

Lemma extending_apply_templates post i ts : extending (apply_templates post i ts).
Proof.
  induction ts as [|t ts IH]; simpl; [apply extending_ret|].
  apply extending_bind; [apply extending_apply_template|done].
Qed.

Lemma extending_extend_matched a post matched :
  extending (extend_matched a post matched).
Proof.
  induction matched as [|i rest IH]; simpl; [apply extending_ret|].
  apply extending_bind; [apply extending_apply_templates|done].
Qed.

(** *** The snapshot *)

Lemma live_weaken h h' xs : h ⊆ h' → live h xs → live h' xs.
Proof.
  intros Hsub Hlive. eapply Forall_impl; [exact Hlive|].
  intros p [X HX]. exists X. by eapply lookup_weaken.
Qed.

Lemma matched_sources_weaken a h h' xs :
  h ⊆ h' → live h xs → matched_sources a h' xs = matched_sources a h xs.
Proof.
  intros Hsub. unfold matched_sources.
  induction 1 as [|i xs [X HX] Hlive IH]; [done|].
  assert (Hm : matches_at a h' i = matches_at a h i).
  { unfold matches_at. by rewrite (lookup_weaken _ _ _ _ HX Hsub), HX. }
  rewrite !filter_cons, Hm, IH. done.
Qed.

(** The loop over the copy of the posting list does what the templates do
    on the postings of the copy that satisfied the predicate when the call
    began. *)
Lemma extend_from_matched a post : ∀ snapshot w,
  live (heap w) snapshot →
  extend_from a post snapshot w
  = extend_matched a post (matched_sources a (heap w) snapshot) w.
Proof.
  induction snapshot as [|i rest IH]; intros w Hlive; [done|].
  apply Forall_cons in Hlive as [[ia Hi] Hlive].
  cbn [extend_from]. rewrite (bind_ok _ _ _ _ _ (deref_ok _ _ _ Hi)).
  unfold matched_sources. rewrite filter_cons.
  fold (matched_sources a (heap w) rest).
  assert (Hm : matches_at a (heap w) i = predicate a ia).
  { unfold matches_at. by rewrite Hi. }
  rewrite Hm. destruct (predicate a ia).
  - rewrite decide_True by done. cbn [extend_matched]. unfold bind.
    pose proof (extending_apply_templates post i (auto_xacts a) w) as [Hsub _].
    destruct (apply_templates post i (auto_xacts a) w) as [[[]|e] w1]; [|done].
    simpl in Hsub. rewrite IH by by eapply live_weaken.
    by rewrite (matched_sources_weaken a (heap w) (heap w1)).
  - rewrite decide_False by by rewrite Is_true_false.
    unfold bind at 1. cbn [ret]. by apply IH.
Qed.

Lemma matched_sources_agree a a' h xs :
  (∀ i ia, i ∈ xs → h !! i = Some ia → predicate a' ia = predicate a ia) →
  matched_sources a' h xs = matched_sources a h xs.
Proof.
  intros Hagree. apply filter_bool_agree. intros i Hi. unfold matches_at.
  destruct (h !! i) as [ia|] eqn:Hia; [|done]. by apply (Hagree i).
Qed.

Lemma extend_matched_templates a a' post matched :
  auto_xacts a' = auto_xacts a →
  extend_matched a' post matched = extend_matched a post matched.
Proof.
  intros Heq. induction matched as [|i rest IH]; [done|].
  simpl. by rewrite Heq, IH.
Qed.

(** C6: [extend_entry] tests the predicate on the postings the entry has
    when the call begins, and on nothing else: what it does is what the
    templates do on those of these postings that satisfy the predicate, so
    two predicates that agree on these postings give the same expansion;
    and the postings it appends are new ones, none of which is a posting of
    that list or a matched source. *)
Theorem extend_entry_scans_snapshot (a : auto_entry_t) (post : bool) (w : world) :
  live (heap w) (xacts (this w)) →
  extend_entry a post w
  = extend_matched a post (matched_sources a (heap w) (xacts (this w))) w
  ∧ (∀ a', auto_xacts a' = auto_xacts a →
       (∀ i ia, i ∈ xacts (this w) → heap w !! i = Some ia →
                predicate a' ia = predicate a ia) →
       extend_entry a' post w = extend_entry a post w)
  ∧ ∃ news,
      xacts (this (extend_entry a post w).2) = xacts (this w) ++ news
      ∧ Forall (λ n, (n ∉ xacts (this w))
                     ∧ (n ∉ matched_sources a (heap w) (xacts (this w)))
                     ∧ heap w !! n = None) news.
Proof.
  intros Hlive.
  assert (Hrun : ∀ a0, extend_entry a0 post w
    = extend_matched a0 post (matched_sources a0 (heap w) (xacts (this w))) w).
  { intros a0. unfold extend_entry, bind, get_entry.
    by apply extend_from_matched. }
  split; [apply Hrun|]. split.
  - intros a' Htemplates Hagree. rewrite !Hrun.
    rewrite (extend_matched_templates a a') by done.
    by rewrite (matched_sources_agree a a').
  - rewrite Hrun.
    destruct (extending_extend_matched a post
                (matched_sources a (heap w) (xacts (this w))) w)
      as (_ & news & Hthis & Hnew).
    exists news. rewrite Hthis. split; [done|].
    eapply Forall_impl; [exact Hnew|]. intros n Hn. simpl in Hn.
    assert (Hnotin : n ∉ xacts (this w)).
    { intros Hin. eapply Forall_forall in Hlive as [X HX]; [|done]. congruence. }
    split; [done|]. split; [|done].
    unfold matched_sources. rewrite list_elem_of_filter. tauto.
Qed.

(** ** Further properties *)

(** X1: [finalize] keeps the postings it finds: the posting list it leaves
    begins with the list it found, and every posting that was there is
    still there. *)
Theorem finalize_keeps_postings (w : world) :
  xacts (this w) `prefix_of` xacts (this (finalize w).2)
  ∧ dom (heap w) ⊆ dom (heap (finalize w).2).
Proof. by destruct (framed_finalize w) as (_ & ? & ?). Qed.

(** X2: the first scan reads the postings and writes nothing. *)
Theorem accumulate_reads_only (xs : list xact_ptr) (balance : value_t)
    (null_xact : option xact_ptr) (w : world) :
  (accumulate xs balance null_xact w).2 = w.
Proof.
  revert balance null_xact. induction xs as [|x xs IH]; intros; [done|].
  simpl. unfold bind, deref. destruct (heap w !! x) as [xa|]; [|done].
  destruct (must_balance xa); [|apply IH].
  destruct (negb _); [apply IH|].
  destruct null_xact; [done|apply IH].
Qed.

(** X3: the inference of a cost is for balances of exactly two amounts: any
    other balance, an amount or an empty value is left as it is, and so is
    the world. *)
Theorem infer_costs_only_two_commodities (balance : value_t) (w : world) :
  (∀ amounts, balance = BALANCE amounts → length amounts ≠ 2) →
  infer_costs balance w = (Ok balance, w).
Proof.
  intros Hlen. unfold infer_costs.
  destruct balance as [| |[|[c1 a1] [|[c2 a2] [|]]]]; try done.
  by destruct (Hlen _ eq_refl).
Qed.

Lemma get_state_loop_rest xs : ∀ cell w,
  live (heap w) xs →
  get_state_loop xs false false cell w
  = (Ok (negb (uniform cell (state <$> postings (heap w) xs)), cell), w).
Proof.
  induction xs as [|x xs IH]; intros cell w Hlive; [done|].
  apply Forall_cons in Hlive as [[xa Hx] Hlive].
  cbn [get_state_loop postings]. rewrite (bind_ok _ _ _ _ _ (deref_ok _ _ _ Hx)).
  rewrite Hx. simpl. case_bool_decide as Hne.
  - by rewrite bool_decide_false.
  - rewrite bool_decide_true by done. simpl. by apply IH.
Qed.

(** X4: [get_state] answers [true] exactly when every posting is in the state
    of the first one, which it leaves in the caller's cell. *)
Theorem get_state_uniform (cell : state_t) (w : world) :
  live (heap w) (xacts (this w)) →
  get_state cell w
  = (Ok (match postings (heap w) (xacts (this w)) with
         | [] => (true, cell)
         | x :: rest => (uniform (state x) (state <$> rest), state x)
         end), w).
Proof.
  intros Hlive. unfold get_state. unfold bind at 1. unfold get_entry at 1.
  destruct (xacts (this w)) as [|x xs]; [done|].
  apply Forall_cons in Hlive as [[xa Hx] Hlive].
  cbn [get_state_loop postings]. rewrite Hx.
  unfold bind at 1. rewrite (bind_ok _ _ _ _ _ (deref_ok _ _ _ Hx)).
  rewrite get_state_loop_rest by done. simpl. by rewrite negb_involutive.
Qed.

(** X5: [extend_entry] leaves the postings it finds as they are: what the
    store held it still holds, and the entry ends with pointers that
    referred to nothing before. *)
Theorem extend_entry_keeps_postings (a : auto_entry_t) (post : bool) (w : world) :
  live (heap w) (xacts (this w)) →
  extended w (extend_entry a post w).2.
Proof.
  intros Hlive. unfold extend_entry, bind, get_entry.
  rewrite extend_from_matched by done. apply extending_extend_matched.
Qed.

(** X6: with one null posting, without a cost of its own, and a balance of
    a single amount, [finalize] gives the null posting the negated amount,
    flags it calculated and appends nothing. *)
Theorem null_posting_single_amount (w : world) (nx : xact_ptr) (NX : xact_t)
    (a : amount_t) :
  live (heap w) (xacts (this w)) →
  filter (λ p, null_at (heap w) p) (xacts (this w)) = [nx] →
  total (heap w) (xacts (this w)) NULL_VALUE = AMOUNT a →
  value_valid (AMOUNT a) = true →
  heap w !! nx = Some NX →
  cost NX = None →
  this (finalize w).2 = this w
  ∧ heap (finalize w).2 !! nx
    = Some (add_flags XACT_CALCULATED (set_amount (amt_negate a) NX)).
Proof.
  intros Hlive Hnull Htotal Hvalid Hnx Hcost.
  set (w2 := {| heap := <[nx := add_flags XACT_CALCULATED
                                   (set_amount (amt_negate a) NX)]> (heap w);
                this := this w |}).
  assert (Hbe : balance_entry w
                = exchange_costs (xacts (this w2)) NULL_VALUE w2).
  { unfold balance_entry. unfold bind at 1. unfold get_entry at 1.
    pose proof (accumulate_total _ NULL_VALUE None w Hlive) as Hacc.
    rewrite Hnull, Htotal in Hacc. rewrite (bind_ok _ _ _ _ _ Hacc).
    unfold bind at 1. rewrite Hvalid. cbn [assert ret].
    erewrite bind_ok; cycle 1.
    { apply balance_against_basket_skip. intros Hlen.
      destruct (xacts (this w)) as [|x [|]]; try done.
      simpl in Hacc. unfold bind, deref in Hacc.
      destruct (heap w !! x) as [xa|]; [|done].
      destruct (must_balance xa); [|done]. by destruct (negb _). }
    unfold resolve_null_xact.
    unfold bind at 1 2 3. unfold deref at 1. rewrite Hnx.
    unfold store at 1. unfold bind at 1. by unfold get_entry at 1. }
  rewrite finalize_world, Hbe.
  destruct (exchange_costs _ _ w2) as [r w'] eqn:Hex.
  apply exchange_costs_effect in Hex as [Hthis Hheap]. simpl.
  split; [done|].
  specialize (Hheap nx). simpl in Hheap. rewrite lookup_insert_eq in Hheap.
  destruct Hheap as (X' & HX' & _ & Heq). by rewrite HX', Heq.
Qed.

(** ** Adding and removing a posting *)

Lemma bind_deref {B} p (k : xact_t → M B) w :
  bind (deref p) k w
  = match heap w !! p with
    | Some x => k x w
    | None => (Throw invalid_pointer, w)
    end.
Proof. unfold bind, deref. by destruct (heap w !! p). Qed.

Lemma bind_ret {A B} (a : A) (k : A → M B) w : bind (ret a) k w = k a w.
Proof. done. Qed.

Lemma bind_assoc {A B C} (m : M A) (k1 : A → M B) (k2 : B → M C) w :
  bind (bind m k1) k2 w = bind m (λ a, bind (k1 a) k2) w.
Proof. unfold bind. by destruct (m w) as [[a|e] w1]. Qed.

Lemma bind_assert {B} b (k : unit → M B) w :
  bind (assert b) k w = if b then k tt w else (Throw assertion_failure, w).
Proof. by destruct b. Qed.

Lemma filter_ne_absent (p : xact_ptr) (l : list xact_ptr) :
  p ∉ l → filter (λ q, q ≠ p) l = l.
Proof.
  induction l as [|q l IH]; [done|].
  intros [Hq Hl]%not_elem_of_cons.
  rewrite filter_cons_True by done. by rewrite IH.
Qed.

Lemma filter_ne_twice (p : xact_ptr) (l : list xact_ptr) :
  filter (λ q, q ≠ p) (filter (λ q, q ≠ p) l) = filter (λ q, q ≠ p) l.
Proof.
  apply filter_ne_absent. rewrite list_elem_of_filter. tauto.
Qed.

(** X7: removing a posting that was just added undoes the addition: on an
    entry that did not list the pointer, [add_xact] followed by
    [remove_xact] gives back the entry and the store as they were.  On any
    entry the pair does what [remove_xact] alone does, since every
    occurrence of the pointer goes; and a second [remove_xact] changes
    nothing more. *)
Theorem add_then_remove_xact (p : xact_ptr) (w : world) :
  (p ∉ xacts (this w) → (add_xact p ;;; remove_xact p) w = (Ok true, w))
  ∧ (add_xact p ;;; remove_xact p) w = remove_xact p w
  ∧ (remove_xact p ;;; remove_xact p) w = remove_xact p w.
Proof.
  assert (Hboth : (add_xact p ;;; remove_xact p) w = remove_xact p w).
  { unfold add_xact, remove_xact, bind, get_entry, put_entry, ret. simpl.
    rewrite filter_app, filter_cons_False, filter_nil, app_nil_r by auto.
    done. }
  split; [|split; [done|]].
  - intros Hp. rewrite Hboth.
    unfold remove_xact, bind, get_entry, put_entry, ret. simpl.
    by rewrite filter_ne_absent, set_xacts_same, world_eta.
  - unfold remove_xact, bind, get_entry, put_entry, ret. simpl.
    by rewrite filter_ne_twice.
Qed.

(** ** finalize on entries that need nothing *)

Lemma balance_against_basket_none null_xact w :
  journal (this w) ≫= basket = None ∨ length (xacts (this w)) ≠ 1 →
  balance_against_basket null_xact w = (Ok null_xact, w).
Proof.
  intros [Hnone|Hlen]; [|by apply balance_against_basket_skip].
  unfold balance_against_basket, bind, get_entry.
  destruct (journal (this w)) as [j|]; [|done]. simpl in Hnone.
  by rewrite Hnone.
Qed.

(** X8: an entry without postings balances: [finalize] answers [true] and
    leaves the world as it is, provided an empty value passes the validity
    check of line 123; if it does not, the assertion fails. *)
Theorem finalize_no_postings (w : world) :
  xacts (this w) = [] →
  finalize w
  = if value_valid NULL_VALUE then (Ok true, w) else (Throw assertion_failure, w).
Proof.
  intros Hnone.
  assert (Hbe : balance_entry w
                = if value_valid NULL_VALUE then (Ok NULL_VALUE, w)
                  else (Throw assertion_failure, w)).
  { assert (Hlen : length (xacts (this w)) ≠ 1) by by rewrite Hnone.
    unfold balance_entry. unfold bind at 1. unfold get_entry at 1.
    rewrite Hnone. cbn [accumulate]. rewrite bind_ret. cbv beta iota.
    rewrite bind_assert. destruct (value_valid NULL_VALUE); [|done].
    rewrite (bind_ok _ _ _ _ _ (balance_against_basket_skip None w Hlen)).
    cbn [infer_costs]. rewrite bind_ret. unfold bind, get_entry.
    by rewrite Hnone. }
  rewrite finalize_unfold, Hbe. by destruct (value_valid NULL_VALUE).
Qed.

Lemma infer_costs_skip (balance : value_t) (w : world) :
  (∀ amounts, balance = BALANCE amounts → length amounts ≠ 2) →
  infer_costs balance w = (Ok balance, w).
Proof.
  intros Hlen. unfold infer_costs.
  destruct balance as [| |[|[c1 a1] [|[c2 a2] [|]]]]; try done.
  by destruct (Hlen _ eq_refl).
Qed.

Lemma exchange_costs_costless xs : ∀ balance w,
  live (heap w) xs →
  (∀ p X, p ∈ xs → heap w !! p = Some X → cost X = None) →
  exchange_costs xs balance w = (Ok balance, w).
Proof.
  induction xs as [|x xs IH]; intros balance w Hlive Hcost; [done|].
  apply Forall_cons in Hlive as [[xa Hx] Hlive].
  cbn [exchange_costs]. rewrite bind_deref, Hx.
  rewrite (Hcost x xa) by (done || apply list_elem_of_here).
  apply IH; [done|]. intros p X Hp. by apply Hcost, list_elem_of_further.
Qed.

(** X9: on an entry whose postings have no cost, none of which is a null
    posting, and whose sum is not a balance of two commodities, [finalize]
    is a check and nothing else: it leaves the entry and the store as they
    are, answers [true] when the sum is null or rounds to zero, and throws
    the balance error with the rounded sum otherwise.  (The basket account
    plays no part when the journal has none or the entry does not have
    exactly one posting.) *)
Theorem finalize_without_costs (w : world) :
  live (heap w) (xacts (this w)) →
  (∀ p X, p ∈ xacts (this w) → heap w !! p = Some X → cost X = None) →
  filter (λ p, null_at (heap w) p) (xacts (this w)) = [] →
  (∀ amounts, total (heap w) (xacts (this w)) NULL_VALUE = BALANCE amounts →
              length amounts ≠ 2) →
  value_valid (total (heap w) (xacts (this w)) NULL_VALUE) = true →
  journal (this w) ≫= basket = None ∨ length (xacts (this w)) ≠ 1 →
  finalize w
  = if balances (total (heap w) (xacts (this w)) NULL_VALUE)
    then (Ok true, w)
    else (Throw (balance_error "Entry does not balance"
                   [value_context
                      (value_round (total (heap w) (xacts (this w)) NULL_VALUE))
                      "Unbalanced remainder is:";
                    entry_context (this w) "While balancing entry:"]), w).
Proof.
  intros Hlive Hcost Hnull Htwo Hvalid Hbasket.
  assert (Hbe : balance_entry w
                = (Ok (total (heap w) (xacts (this w)) NULL_VALUE), w)).
  { unfold balance_entry. unfold bind at 1. unfold get_entry at 1.
    pose proof (accumulate_total _ NULL_VALUE None w Hlive) as Hacc.
    rewrite Hnull in Hacc. rewrite (bind_ok _ _ _ _ _ Hacc).
    rewrite bind_assert, Hvalid.
    rewrite (bind_ok _ _ _ _ _ (balance_against_basket_none None w Hbasket)).
    rewrite (bind_ok _ _ _ _ _ (infer_costs_skip _ w Htwo)).
    unfold bind, get_entry. by apply exchange_costs_costless. }
  rewrite finalize_unfold, Hbe. done.
Qed.

(** ** What finalize makes of the postings it finds *)

Lemma flags_or_calculated_twice f :
  flags_or (flags_or f XACT_CALCULATED) XACT_CALCULATED
  = flags_or f XACT_CALCULATED.
Proof. destruct f. unfold flags_or. simpl. by rewrite !orb_false_r, !orb_true_r. Qed.

Lemma settled_refl X : settled X X.
Proof. unfold settled. repeat split; auto. Qed.

Lemma settled_trans X1 X2 X3 : settled X1 X2 → settled X2 X3 → settled X1 X3.
Proof.
  intros (Ha & Hs & Hd & He & Hn & Hbp & Hbl & Hep & Hel & Hc & Hf & Hv)
         (Ha' & Hs' & Hd' & He' & Hn' & Hbp' & Hbl' & Hep' & Hel' & Hc' & Hf' & Hv').
  unfold settled. repeat split; try congruence.
  - destruct Hc as [Hc|Hc]; [by left|].
    destruct Hc' as [Hc'|Hc']; [left|right]; congruence.
  - destruct Hf as [Hf|Hf], Hf' as [Hf'|Hf']; rewrite Hf', Hf; auto.
    right. apply flags_or_calculated_twice.
  - intros Hcost Hvirtual. rewrite <- (Hv Hcost Hvirtual).
    apply Hv'; by rewrite (Hv Hcost Hvirtual).
Qed.

Lemma settled_set_amount a X :
  must_balance X = true ∨ is_Some (cost X) → settled X (set_amount a X).
Proof.
  intros Hwhy. unfold settled. simpl. repeat split; auto.
  intros Hcost Hvirtual. destruct Hwhy as [?|[c ?]]; congruence.
Qed.

Lemma settled_calculated a X :
  must_balance X = true →
  settled X (add_flags XACT_CALCULATED (set_amount a X)).
Proof.
  intros Hmb. unfold settled. simpl. repeat split; auto. congruence.
Qed.

Lemma settled_set_cost c X :
  cost X = None → must_balance X = true → settled X (set_cost c X).
Proof.
  intros Hcost Hmb. unfold settled. simpl. repeat split; auto. congruence.
Qed.

Lemma settled_same_but_amount X X' :
  same_but_amount X X' → (cost X = None → X' = X) → settled X X'.
Proof.
  intros Hsame Hcost.
  destruct (same_but_amount_members _ _ Hsame) as [Hc Hf].
  unfold same_but_amount in Hsame.
  unfold settled. rewrite Hc, Hf. repeat split; auto; by rewrite <- Hsame.
Qed.

Lemma settles_refl w : settles w w.
Proof. intros p X HX. exists X. split; [done|apply settled_refl]. Qed.

Lemma settles_trans w1 w2 w3 : settles w1 w2 → settles w2 w3 → settles w1 w3.
Proof.
  intros H12 H23 p X HX.
  destruct (H12 p X HX) as (X2 & HX2 & Hs2).
  destruct (H23 p X2 HX2) as (X3 & HX3 & Hs3).
  exists X3. split; [done|]. by eapply settled_trans.
Qed.

Lemma settles_sub w w' : heap w ⊆ heap w' → settles w w'.
Proof.
  intros Hsub p X HX. exists X.
  split; [by eapply lookup_weaken|apply settled_refl].
Qed.

Lemma settles_store w p xa x' e :
  heap w !! p = Some xa → settled xa x' →
  settles w {| heap := <[p := x']> (heap w); this := e |}.
Proof.
  intros Hp Hs q X HX. simpl. destruct (decide (q = p)) as [->|Hne].
  - rewrite lookup_insert_eq. exists x'. split; [done|]. congruence.
  - rewrite lookup_insert_ne by done. exists X. split; [done|apply settled_refl].
Qed.

Lemma settles_alloc w x e :
  settles w {| heap := <[fresh (dom (heap w)) := x]> (heap w); this := e |}.
Proof.
  apply settles_sub. simpl. apply insert_subseteq, not_elem_of_dom, is_fresh.
Qed.

(** The steps of a computation one after the other, the second knowing what
    the first gave. *)
Lemma settles_bind {A B} (m : M A) (k : A → M B) w :
  settles w (m w).2 →
  (∀ a w1, m w = (Ok a, w1) → settles w1 (k a w1).2) →
  settles w (bind m k w).2.
Proof.
  intros Hm Hk. unfold bind. destruct (m w) as [[a|e] w1]; simpl in *; [|done].
  eapply settles_trans; [done|]. by apply Hk.
Qed.

Lemma accumulate_world xs : ∀ balance null_xact w,
  (accumulate xs balance null_xact w).2 = w.
Proof.
  induction xs as [|x xs IH]; intros; [done|].
  cbn [accumulate]. rewrite bind_deref. destruct (heap w !! x) as [xa|]; [|done].
  destruct (must_balance xa); [|apply IH].
  destruct (negb _); [apply IH|].
  destruct null_xact; [done|apply IH].
Qed.

(** The null posting that the first scan records is a posting that must
    balance. *)
Lemma accumulate_null xs : ∀ balance n0 w b nx w',
  accumulate xs balance n0 w = (Ok (b, Some nx), w') →
  n0 = Some nx ∨ ∃ X, heap w !! nx = Some X ∧ must_balance X = true.
Proof.
  induction xs as [|x xs IH]; intros balance n0 w b nx w' Hacc.
  { injection Hacc as _ -> _. by left. }
  cbn [accumulate] in Hacc. rewrite bind_deref in Hacc.
  destruct (heap w !! x) as [xa|] eqn:Hx; [|done].
  destruct (must_balance xa) eqn:Hmb; [|by eapply IH].
  destruct (negb _); [by eapply IH|].
  destruct n0; [done|].
  apply IH in Hacc as [[= ->]|?]; eauto.
Qed.

Lemma settles_negate_amounts nx amounts : ∀ first w,
  (∀ X, heap w !! nx = Some X → must_balance X = true) →
  settles w (negate_amounts nx first amounts w).2.
Proof.
  induction amounts as [|[c a] rest IH]; intros first w Hmb;
    [apply settles_refl|].
  cbn [negate_amounts]. apply settles_bind.
  - destruct first; rewrite bind_deref;
      (destruct (heap w !! nx) as [NX|] eqn:Hnx; [|apply settles_refl]).
    + eapply settles_store; [done|]. apply settled_set_amount. eauto.
    + apply settles_alloc.
  - intros [] w1 Hstep. apply IH. intros X HX.
    destruct first; rewrite bind_deref in Hstep;
      (destruct (heap w !! nx) as [NX|] eqn:Hnx; [|done]).
    + injection Hstep as <-. simpl in HX. rewrite lookup_insert_eq in HX.
      injection HX as <-. by apply (Hmb NX).
    + injection Hstep as <-. simpl in HX.
      rewrite lookup_insert_ne in HX; [apply Hmb; congruence|].
      intros <-. by rewrite (not_elem_of_dom_1 _ _ (is_fresh (dom (heap w)))) in Hnx.
Qed.

Lemma settles_resolve_null_xact nx balance w :
  (∀ X, heap w !! nx = Some X → must_balance X = true) →
  settles w (resolve_null_xact nx balance w).2.
Proof.
  intros Hmb. unfold resolve_null_xact. apply settles_bind; [|intros; apply settles_refl].
  destruct balance as [|a|amounts].
  - apply settles_refl.
  - rewrite bind_deref. destruct (heap w !! nx) as [NX|] eqn:Hnx; [|apply settles_refl].
    eapply settles_store; [done|]. apply settled_calculated. eauto.
  - by apply settles_negate_amounts.
Qed.

(** Lines 141-147 leave the postings alone, and the posting they make is
    one that must balance. *)
Lemma balance_against_basket_outcome null_xact w r w1 :
  balance_against_basket null_xact w = (r, w1) →
  heap w ⊆ heap w1
  ∧ ∀ n, r = Ok (Some n) →
         (null_xact = Some n ∧ w1 = w)
         ∨ (heap w !! n = None
            ∧ ∃ X, heap w1 !! n = Some X ∧ must_balance X = true).
Proof.
  unfold balance_against_basket, bind, get_entry.
  assert (Hsame : (Ok null_xact, w) = (r, w1) →
    heap w ⊆ heap w1
    ∧ ∀ n, r = Ok (Some n) →
           (null_xact = Some n ∧ w1 = w)
           ∨ (heap w !! n = None
              ∧ ∃ X, heap w1 !! n = Some X ∧ must_balance X = true)).
  { intros [= <- <-]. split; [done|]. intros n [= ->]. by left. }
  destruct (journal (this w)) as [j|]; [|done].
  destruct (basket j) as [b|]; [|by destruct (xacts (this w)) as [|? [|]]].
  destruct (xacts (this w)) as [|x1 [|]] eqn:Hxacts; [done| |done].
  unfold alloc, deref, store, add_xact, bind, get_entry, put_entry, ret. simpl.
  assert (Hn : heap w !! fresh (dom (heap w)) = None)
    by apply not_elem_of_dom, is_fresh.
  destruct (_ !! x1) as [first|].
  - cbn [heap]. rewrite lookup_insert_eq. simpl. intros [= <- <-]. simpl.
    rewrite insert_insert_eq. split; [by apply insert_subseteq|].
    intros n [= <-]. right. split; [done|].
    rewrite lookup_insert_eq. by eexists.
  - intros [= <- <-]. simpl. split; [by apply insert_subseteq|]. by intros n [=].
Qed.

Lemma settles_assign_costs per_unit_cost comm xs : ∀ balance w,
  settles w (assign_costs per_unit_cost comm xs balance w).2.
Proof.
  induction xs as [|x xs IH]; intros balance w; [apply settles_refl|].
  cbn [assign_costs]. rewrite bind_deref.
  destruct (heap w !! x) as [xa|] eqn:Hx; [|apply settles_refl].
  rewrite wants_cost_source. destruct (wants_cost comm xa) eqn:Hwants; [|apply IH].
  apply settles_bind; [|intros; apply IH].
  eapply settles_store; [done|].
  unfold wants_cost in Hwants.
  apply andb_true_iff in Hwants as [[Hmb Hcost]%andb_true_iff _].
  apply settled_set_cost; [|done]. by apply bool_decide_eq_true in Hcost.
Qed.

Lemma settles_infer_costs balance w : settles w (infer_costs balance w).2.
Proof.
  unfold infer_costs.
  destruct balance as [| |[|[c1 a1] [|[c2 a2] [|]]]]; try apply settles_refl.
  destruct (negb _); [|apply settles_refl].
  unfold bind, get_entry. apply settles_assign_costs.
Qed.

Lemma settles_exchange_costs xs balance w :
  settles w (exchange_costs xs balance w).2.
Proof.
  destruct (exchange_costs xs balance w) as [r w'] eqn:Hex.
  apply exchange_costs_effect in Hex as [_ Hheap].
  intros p X HX. specialize (Hheap p). rewrite HX in Hheap.
  destruct Hheap as (X' & HX' & Hsame & Hcost).
  exists X'. split; [done|]. by apply settled_same_but_amount.
Qed.

Lemma settles_balance_entry w : settles w (balance_entry w).2.
Proof.
  unfold balance_entry. unfold bind at 1. unfold get_entry at 1.
  apply settles_bind; [by rewrite accumulate_world; apply settles_refl|].
  intros [balance null_xact] w0 Hacc.
  pose proof (accumulate_world (xacts (this w)) NULL_VALUE None w) as Hw0.
  rewrite Hacc in Hw0. simpl in Hw0. subst w0.
  rewrite bind_assert. destruct (value_valid balance); [|apply settles_refl].
  apply settles_bind.
  { destruct (balance_against_basket null_xact w) as [r w1] eqn:Hbasket.
    apply balance_against_basket_outcome in Hbasket as [Hsub _].
    by apply settles_sub. }
  intros null_xact' w1 Hbasket.
  apply balance_against_basket_outcome in Hbasket as [_ Hnew].
  apply settles_bind; [|intros; unfold bind, get_entry; apply settles_exchange_costs].
  destruct null_xact' as [n|]; [|apply settles_infer_costs].
  apply settles_resolve_null_xact. intros X HX.
  destruct (Hnew n eq_refl) as [[-> ->]|(_ & X' & HX' & Hmb)]; [|congruence].
  apply accumulate_null in Hacc as [[=]|(X' & HX' & Hmb)]. congruence.
Qed.

(** X10: [finalize] never changes the account, the state, the dates, the
    note or the source position of a posting that the store holds, never
    removes or replaces a cost that a posting has, and never clears a flag:
    the flags of a posting are as before, or as before with the calculated
    flag.  This holds whether [finalize] succeeds or throws. *)
Theorem finalize_keeps_details (w : world) (p : xact_ptr) (X : xact_t) :
  heap w !! p = Some X →
  ∃ X', heap (finalize w).2 !! p = Some X'
        ∧ account X' = account X ∧ state X' = state X
        ∧ _date X' = _date X ∧ _date_eff X' = _date_eff X ∧ note X' = note X
        ∧ beg_pos X' = beg_pos X ∧ beg_line X' = beg_line X
        ∧ end_pos X' = end_pos X ∧ end_line X' = end_line X
        ∧ (∀ c, cost X = Some c → cost X' = Some c)
        ∧ (flags X' = flags X ∨ flags X' = flags_or (flags X) XACT_CALCULATED).
Proof.
  intros HX. rewrite finalize_world.
  destruct (settles_balance_entry w p X HX)
    as (X' & HX' & Ha & Hs & Hd & He & Hn & Hbp & Hbl & Hep & Hel & Hc & Hf & _).
  exists X'. repeat split; try done.
  intros c Hcost. destruct Hc as [Hc|Hc]; congruence.
Qed.

(** X11: a posting that need not balance and has no cost is out of reach
    of [finalize]: whatever the entry, and whether [finalize] succeeds or
    throws, the posting is afterwards exactly what it was. *)
Theorem finalize_spares_virtual (w : world) (p : xact_ptr) (X : xact_t) :
  heap w !! p = Some X →
  must_balance X = false →
  cost X = None →
  heap (finalize w).2 !! p = Some X.
Proof.
  intros HX Hvirtual Hcost. rewrite finalize_world.
  destruct (settles_balance_entry w p X HX) as (X' & HX' & Hsettled).
  rewrite HX'. f_equal. by apply Hsettled.
Qed.

(** ** What finalize appends *)

Lemma finalizing_refl w : finalizing w w.
Proof.
  split; [apply settles_refl|]. exists []. by rewrite app_nil_r.
Qed.

Lemma finalizing_trans w1 w2 w3 :
  finalizing w1 w2 → finalizing w2 w3 → finalizing w1 w3.
Proof.
  intros [Hs1 (news1 & Hx1 & Hn1)] [Hs2 (news2 & Hx2 & Hn2)].
  split; [by eapply settles_trans|].
  exists (news1 ++ news2). split; [by rewrite Hx2, Hx1, app_assoc|].
  apply Forall_app. split.
  - eapply Forall_impl; [exact Hn1|].
    intros n (Hn & x & Hx & Hgen & Htemp & Hcache).
    split; [done|]. destruct (Hs2 n x Hx) as (X' & HX' & Hsettled).
    exists X'. split; [done|]. unfold generated.
    destruct Hsettled as (_ & _ & _ & _ & _ & _ & _ & _ & _ & _ & [->| ->] & _);
      [done|]. simpl. by rewrite Hgen, Htemp, Hcache.
  - eapply Forall_impl; [exact Hn2|]. intros n (Hn & Hx). split; [|done].
    destruct (heap w1 !! n) as [X|] eqn:HX; [|done].
    destruct (Hs1 n X HX) as (X' & HX' & _). congruence.
Qed.

Lemma finalizing_same w w' : settles w w' → this w' = this w → finalizing w w'.
Proof.
  intros Hs Hthis. split; [done|]. exists []. by rewrite Hthis, app_nil_r.
Qed.

Lemma finalizing_append w x :
  generated x →
  finalizing w
    {| heap := <[fresh (dom (heap w)) := x]> (heap w);
       this := set_xacts (xacts (this w) ++ [fresh (dom (heap w))]) (this w) |}.
Proof.
  intros Hgen. split; [apply settles_alloc|].
  exists [fresh (dom (heap w))]. split; [done|]. constructor; [|done].
  split; [apply not_elem_of_dom, is_fresh|].
  exists x. split; [|done]. apply lookup_insert_eq.
Qed.

Lemma finalizing_bind {A B} (m : M A) (k : A → M B) w :
  finalizing w (m w).2 →
  (∀ a w1, m w = (Ok a, w1) → finalizing w1 (k a w1).2) →
  finalizing w (bind m k w).2.
Proof.
  intros Hm Hk. unfold bind. destruct (m w) as [[a|e] w1]; simpl in *; [|done].
  eapply finalizing_trans; [done|]. by apply Hk.
Qed.

Lemma finalizing_negate_amounts nx amounts : ∀ first w,
  (∀ X, heap w !! nx = Some X → must_balance X = true) →
  finalizing w (negate_amounts nx first amounts w).2.
Proof.
  induction amounts as [|[c a] rest IH]; intros first w Hmb;
    [apply finalizing_refl|].
  cbn [negate_amounts]. apply finalizing_bind.
  - destruct first; rewrite bind_deref;
      (destruct (heap w !! nx) as [NX|] eqn:Hnx; [|apply finalizing_refl]).
    + apply finalizing_same; [|done].
      eapply settles_store; [done|]. apply settled_set_amount. eauto.
    + unfold bind, alloc, add_xact, get_entry, put_entry. simpl.
      by apply finalizing_append.
  - intros [] w1 Hstep. apply IH. intros X HX.
    destruct first; rewrite bind_deref in Hstep;
      (destruct (heap w !! nx) as [NX|] eqn:Hnx; [|done]).
    + injection Hstep as <-. simpl in HX. rewrite lookup_insert_eq in HX.
      injection HX as <-. by apply (Hmb NX).
    + injection Hstep as <-. simpl in HX.
      rewrite lookup_insert_ne in HX; [apply Hmb; congruence|].
      intros <-. by rewrite (not_elem_of_dom_1 _ _ (is_fresh (dom (heap w)))) in Hnx.
Qed.

Lemma finalizing_resolve_null_xact nx balance w :
  (∀ X, heap w !! nx = Some X → must_balance X = true) →
  finalizing w (resolve_null_xact nx balance w).2.
Proof.
  intros Hmb. unfold resolve_null_xact.
  apply finalizing_bind; [|intros; apply finalizing_refl].
  destruct balance as [|a|amounts].
  - apply finalizing_refl.
  - rewrite bind_deref.
    destruct (heap w !! nx) as [NX|] eqn:Hnx; [|apply finalizing_refl].
    apply finalizing_same; [|done].
    eapply settles_store; [done|]. apply settled_calculated. eauto.
  - by apply finalizing_negate_amounts.
Qed.

Lemma finalizing_balance_against_basket null_xact w :
  finalizing w (balance_against_basket null_xact w).2.
Proof.
  unfold balance_against_basket, bind, get_entry.
  destruct (journal (this w)) as [j|]; [|apply finalizing_refl].
  destruct (basket j) as [b|];
    [|destruct (xacts (this w)) as [|? [|]]; apply finalizing_refl].
  destruct (xacts (this w)) as [|x1 [|]] eqn:Hxacts; try apply finalizing_refl.
  unfold alloc, deref, store, add_xact, bind, get_entry, put_entry, ret. simpl.
  destruct (_ !! x1) as [first|].
  - cbn [heap]. rewrite lookup_insert_eq. simpl. rewrite insert_insert_eq.
    by apply finalizing_append.
  - simpl. apply finalizing_same; [apply settles_alloc|done].
Qed.

Lemma assign_costs_this per_unit_cost comm xs : ∀ balance w,
  this (assign_costs per_unit_cost comm xs balance w).2 = this w.
Proof.
  induction xs as [|x xs IH]; intros balance w; [done|].
  cbn [assign_costs]. rewrite bind_deref.
  destruct (heap w !! x) as [xa|]; [|done].
  destruct (negb _); [|apply IH]. unfold bind, store. by rewrite IH.
Qed.

Lemma finalizing_infer_costs balance w : finalizing w (infer_costs balance w).2.
Proof.
  apply finalizing_same; [apply settles_infer_costs|].
  unfold infer_costs.
  destruct balance as [| |[|[c1 a1] [|[c2 a2] [|]]]]; try done.
  destruct (negb _); [|done].
  unfold bind, get_entry. apply assign_costs_this.
Qed.

Lemma finalizing_exchange_costs xs balance w :
  finalizing w (exchange_costs xs balance w).2.
Proof.
  apply finalizing_same; [apply settles_exchange_costs|].
  destruct (exchange_costs xs balance w) as [r w'] eqn:Hex.
  by apply exchange_costs_effect in Hex as [Hthis _].
Qed.

Lemma finalizing_balance_entry w : finalizing w (balance_entry w).2.
Proof.
  unfold balance_entry. unfold bind at 1. unfold get_entry at 1.
  apply finalizing_bind; [by rewrite accumulate_world; apply finalizing_refl|].
  intros [balance null_xact] w0 Hacc.
  pose proof (accumulate_world (xacts (this w)) NULL_VALUE None w) as Hw0.
  rewrite Hacc in Hw0. simpl in Hw0. subst w0.
  rewrite bind_assert. destruct (value_valid balance); [|apply finalizing_refl].
  apply finalizing_bind; [apply finalizing_balance_against_basket|].
  intros null_xact' w1 Hbasket.
  apply balance_against_basket_outcome in Hbasket as [_ Hnew].
  apply finalizing_bind;
    [|intros; unfold bind, get_entry; apply finalizing_exchange_costs].
  destruct null_xact' as [n|]; [|apply finalizing_infer_costs].
  apply finalizing_resolve_null_xact. intros X HX.
  destruct (Hnew n eq_refl) as [[-> ->]|(_ & X' & HX' & Hmb)]; [|congruence].
  apply accumulate_null in Hacc as [[=]|(X' & HX' & Hmb)]. congruence.
Qed.

(** X25: the postings that [finalize] adds to an entry are new postings,
    appended after the postings that the entry had, each flagged generated
    and the entry's own: neither a temporary nor a posting of the cache, so
    that the destructor of the entry deletes it.  This holds whether
    [finalize] succeeds or throws. *)
Theorem finalize_appends_generated (w : world) :
  ∃ news,
    xacts (this (finalize w).2) = xacts (this w) ++ news
    ∧ Forall (λ n, heap w !! n = None
                   ∧ ∃ x, heap (finalize w).2 !! n = Some x
                          ∧ f_generated (flags x) = true
                          ∧ f_temp (flags x) = false
                          ∧ f_in_cache (flags x) = false
                          ∧ owned (heap (finalize w).2) n = true
                          ∧ disposal_at (heap (finalize w).2) n = deleted n)
        news.
Proof.
  rewrite finalize_world.
  destruct (finalizing_balance_entry w) as (_ & news & Hxacts & Hnews).
  exists news. split; [done|].
  eapply Forall_impl; [exact Hnews|].
  intros n (Hn & x & Hx & Hgen & Htemp & Hcache).
  split; [done|]. exists x. unfold owned, disposal_at.
  by rewrite Hx, Htemp, Hcache.
Qed.

(** ** What the automated entries append *)

Lemma template_amount_outcome post i t ta w :
  heap w !! t = Some ta →
  (∃ e, template_amount post i t w = (Throw e, w))
  ∨ (applies_at post (heap w) t = false
     ∧ template_amount post i t w = (Ok None, w))
  ∨ (applies_at post (heap w) t = true
     ∧ ∃ amt, template_amount post i t w = (Ok (Some amt), w)).
Proof.
  intros Ht. unfold template_amount, applies_at. rewrite bind_deref, Ht, bind_assert.
  destruct (amt_nonzero (amount ta)); [|by eauto].
  destruct (commodity_bool _), post; cbn [negb]; eauto.
  rewrite bind_deref. destruct (heap w !! i) as [ia|]; [|by eauto].
  rewrite bind_assert. destruct (amt_nonzero (amount ia)); eauto.
Qed.

Lemma apply_template_outcome post i t w :
  (∃ e, apply_template post i t w = (Throw e, w))
  ∨ (applies_at post (heap w) t = false
     ∧ apply_template post i t w = (Ok tt, w))
  ∨ (applies_at post (heap w) t = true
     ∧ ∃ x, automatic x
            ∧ (∀ ta, heap w !! t = Some ta
                     → flags x = flags_or (flags ta) XACT_AUTO)
            ∧ apply_template post i t w = (Ok tt, appended w x)).
Proof.
  unfold apply_template.
  destruct (heap w !! t) as [ta|] eqn:Ht; cycle 1.
  { left. exists invalid_pointer. apply bind_throw.
    unfold template_amount. by rewrite bind_deref, Ht. }
  destruct (template_amount_outcome post i t ta w Ht)
    as [[e Hamt]|[[Happ Hamt]|(Happ & amt & Hamt)]].
  - left. exists e. by apply bind_throw.
  - right. left. split; [done|]. by rewrite (bind_ok _ _ _ _ _ Hamt).
  - rewrite (bind_ok _ _ _ _ _ Hamt), bind_deref, Ht, bind_assert.
    destruct (negb _); [|by eauto].
    assert (Hadd : ∀ acct,
      (xact <- alloc (new_xact acct amt (flags_or (flags ta) XACT_AUTO)) ;;
       xa <- deref xact ;; store xact (copy_details ta xa) ;;; add_xact xact) w
      = (Ok tt, appended w (copy_details ta
                   (new_xact acct amt (flags_or (flags ta) XACT_AUTO)))))
      by (intros; apply add_mirror_appended).
    assert (Hauto : ∀ acct, automatic (copy_details ta
                      (new_xact acct amt (flags_or (flags ta) XACT_AUTO)))).
    { intros acct. split; [|done]. simpl. apply orb_true_r. }
    destruct (_ || _).
    + rewrite bind_assoc, bind_deref.
      destruct (heap w !! i) as [ia|]; [|by eauto].
      rewrite bind_ret. right. right. split; [done|].
      eexists. split; [apply Hauto|]. split; [by intros ta0 [= <-]|]. apply Hadd.
    + rewrite bind_ret. right. right. split; [done|].
      eexists. split; [apply Hauto|]. split; [by intros ta0 [= <-]|]. apply Hadd.
Qed.

Lemma appends_refl P w : appends P w w.
Proof.
  split; [done|]. exists []. by rewrite app_nil_r, set_xacts_same.
Qed.

Lemma appends_trans P w1 w2 w3 : appends P w1 w2 → appends P w2 w3 → appends P w1 w3.
Proof.
  intros (Hsub1 & news1 & Hthis1 & Hnew1) (Hsub2 & news2 & Hthis2 & Hnew2).
  split; [by etrans|]. exists (news1 ++ news2). split.
  - rewrite Hthis2, Hthis1. simpl. by rewrite app_assoc.
  - apply Forall_app. split.
    + eapply Forall_impl; [exact Hnew1|]. intros n (Hn & x & Hx & HP).
      split; [done|]. exists x. split; [|done]. by eapply lookup_weaken.
    + eapply Forall_impl; [exact Hnew2|]. intros n (Hn & x & Hx & HP).
      split; [|by eauto]. destruct (heap w1 !! n) eqn:Hn1; [|done].
      eapply lookup_weaken in Hn1; [|done]. congruence.
Qed.

Lemma appends_appended (P : xact_t → Prop) w x : P x → appends P w (appended w x).
Proof.
  intros HP.
  assert (Hn : heap w !! fresh (dom (heap w)) = None)
    by apply not_elem_of_dom, is_fresh.
  split; [by apply insert_subseteq|].
  exists [fresh (dom (heap w))]. split; [done|]. constructor; [|done].
  split; [done|]. exists x. split; [|done]. apply lookup_insert_eq.
Qed.

Lemma appends_bind {A B} P (m : M A) (k : A → M B) w :
  appends P w (m w).2 → (∀ a w1, appends P w1 (k a w1).2) →
  appends P w (bind m k w).2.
Proof.
  intros Hm Hk. unfold bind. destruct (m w) as [[a|e] w1]; simpl in *; [|done].
  eapply appends_trans; [done|]. apply Hk.
Qed.

Lemma appends_apply_template post i t w :
  appends automatic w (apply_template post i t w).2.
Proof.
  destruct (apply_template_outcome post i t w)
    as [[e ->]|[[_ ->]|(_ & x & Hauto & _ & ->)]];
    [apply appends_refl..|by apply appends_appended].
Qed.

Lemma appends_apply_templates post i ts : ∀ w,
  appends automatic w (apply_templates post i ts w).2.
Proof.
  induction ts as [|t ts IH]; intros w; [apply appends_refl|].
  cbn [apply_templates]. apply appends_bind; [apply appends_apply_template|].
  intros; apply IH.
Qed.

Lemma appends_extend_from a post xs : ∀ w,
  appends automatic w (extend_from a post xs w).2.
Proof.
  induction xs as [|i rest IH]; intros w; [apply appends_refl|].
  cbn [extend_from]. rewrite bind_deref.
  destruct (heap w !! i) as [ia|]; [|apply appends_refl].
  apply appends_bind; [|intros; apply IH].
  destruct (predicate a ia); [apply appends_apply_templates|apply appends_refl].
Qed.

Lemma appends_extend_with autos post : ∀ w,
  appends automatic w (extend_with autos post w).2.
Proof.
  induction autos as [|a rest IH]; intros w; [apply appends_refl|].
  cbn [extend_with]. apply appends_bind; [|intros; apply IH].
  unfold extend_entry, bind, get_entry. apply appends_extend_from.
Qed.

(** X12: whatever the automated entries of the journal, and whether the
    expansion completes or fails on the way, [extend_entry_base] only
    appends: the postings that the store held are as they were, the posting
    list of the entry begins as before, and every posting that has come is a
    new one, flagged automatic and without a cost. *)
Theorem extend_entry_base_appends_automatic (j : journal_t) (post : bool)
    (w : world) :
  heap w ⊆ heap (extend_entry_base j post w).2
  ∧ ∃ news,
      this (extend_entry_base j post w).2
      = set_xacts (xacts (this w) ++ news) (this w)
      ∧ Forall (λ n, heap w !! n = None
                     ∧ ∃ x, heap (extend_entry_base j post w).2 !! n = Some x
                            ∧ f_auto (flags x) = true ∧ cost x = None) news.
Proof. apply appends_extend_with. Qed.

Lemma applies_at_weaken post h h' ts :
  h ⊆ h' → live h ts →
  filter (λ t, applies_at post h' t) ts = filter (λ t, applies_at post h t) ts.
Proof.
  intros Hsub Hlive. apply filter_bool_agree. intros t Ht.
  eapply Forall_forall in Hlive as [ta Hta]; [|done].
  unfold applies_at. by rewrite (lookup_weaken _ _ _ _ Hta Hsub), Hta.
Qed.

Lemma apply_templates_count post i ts : ∀ w w',
  apply_templates post i ts w = (Ok tt, w') →
  heap w ⊆ heap w'
  ∧ (live (heap w) ts →
     length (xacts (this w'))
     = length (xacts (this w))
       + length (filter (λ t, applies_at post (heap w) t) ts)).
Proof.
  induction ts as [|t ts IH]; intros w w' Hrun.
  { injection Hrun as <-. split; [done|]. intros _. simpl. lia. }
  cbn [apply_templates] in Hrun. unfold bind in Hrun.
  destruct (apply_template_outcome post i t w)
    as [[e Hstep]|[[Happ Hstep]|(Happ & x & _ & _ & Hstep)]];
    rewrite Hstep in Hrun; [done| |].
  - apply IH in Hrun as [Hsub Hcount]. split; [done|].
    intros [_ Hlive]%Forall_cons. rewrite Hcount by done.
    rewrite filter_cons_False; [done|]. rewrite Happ. auto.
  - apply IH in Hrun as [Hsub Hcount].
    destruct (extended_appended w x) as [Hsub0 _].
    split; [by etrans|].
    intros [_ Hlive]%Forall_cons.
    rewrite Hcount by by eapply live_weaken.
    rewrite (applies_at_weaken post (heap w)) by done.
    rewrite filter_cons_True; [|rewrite Happ; auto].
    simpl. rewrite length_app. simpl. lia.
Qed.

Lemma extend_matched_count a post matched : ∀ w w',
  live (heap w) (auto_xacts a) →
  extend_matched a post matched w = (Ok tt, w') →
  heap w ⊆ heap w'
  ∧ length (xacts (this w'))
    = length (xacts (this w))
      + length matched
        * length (filter (λ t, applies_at post (heap w) t) (auto_xacts a)).
Proof.
  induction matched as [|i rest IH]; intros w w' Hlive Hrun.
  { injection Hrun as <-. split; [done|]. simpl. lia. }
  cbn [extend_matched] in Hrun. unfold bind in Hrun.
  destruct (apply_templates post i (auto_xacts a) w) as [[[]|e] w1] eqn:Hstep;
    [|done].
  apply apply_templates_count in Hstep as [Hsub1 Hcount1].
  apply IH in Hrun as [Hsub Hcount]; [|by eapply live_weaken].
  split; [by etrans|].
  rewrite Hcount, Hcount1 by done.
  rewrite (applies_at_weaken post (heap w) (heap w1)) by done. simpl. lia.
Qed.

(** X13: when [extend_entry] completes, the entry has gained one posting
    for each pair of a posting that satisfied the predicate when the call
    began and a template that applies in the mode of the call (a bare
    multiplier in post mode, an amount with a commodity otherwise). *)
Theorem extend_entry_count (a : auto_entry_t) (post : bool) (w w' : world) :
  live (heap w) (xacts (this w)) →
  live (heap w) (auto_xacts a) →
  extend_entry a post w = (Ok tt, w') →
  length (xacts (this w'))
  = length (xacts (this w))
    + length (matched_sources a (heap w) (xacts (this w)))
      * length (filter (λ t, applies_at post (heap w) t) (auto_xacts a)).
Proof.
  intros Hlive Htemplates Hrun.
  unfold extend_entry, bind, get_entry in Hrun.
  rewrite extend_from_matched in Hrun by done.
  by apply extend_matched_count in Hrun as [_ Hcount].
Qed.

(** X26: the posting that [extend_entry] makes from a template has the
    flags of the template next to the automatic flag, those of a temporary
    and of a posting of the cache included: a posting made from a template
    that is a temporary is not ended by the destructor of the entry, and
    one made from a template of the cache is destructed in place, not
    deleted. *)
Theorem auto_posting_owned_as_template (post : bool) (i t : xact_ptr)
    (ta : xact_t) (w w' : world) :
  heap w !! t = Some ta →
  apply_template post i t w = (Ok tt, w') →
  w' ≠ w →
  ∃ x,
    w' = appended w x
    ∧ flags x = flags_or (flags ta) XACT_AUTO
    ∧ owned (heap w') (fresh (dom (heap w))) = negb (f_temp (flags ta))
    ∧ disposal_at (heap w') (fresh (dom (heap w)))
      = if f_in_cache (flags ta) then destructed (fresh (dom (heap w)))
        else deleted (fresh (dom (heap w))).
Proof.
  intros Hta Hrun Hchanged.
  destruct (apply_template_outcome post i t w)
    as [[e Hstep]|[[_ Hstep]|(_ & x & _ & Hflags & Hstep)]];
    rewrite Hstep in Hrun; [done|by injection Hrun as <-|].
  injection Hrun as <-. exists x. split; [done|].
  rewrite (Hflags ta Hta). split; [done|].
  unfold owned, disposal_at, appended. simpl.
  rewrite lookup_insert_eq, (Hflags ta Hta). simpl.
  by rewrite !orb_false_r.
Qed.

(** ** The automated entries of a journal, one after the other *)

Lemma bind_unit_ret (m : M unit) w : bind m (λ _, ret tt) w = m w.
Proof. unfold bind. by destruct (m w) as [[[]|e] w']. Qed.

(** X22: [extend_entry_base] runs the automated entries in the order of
    the journal, each on the entry as the ones before it have left it: with
    two automated entries, the second expands the postings that the entry
    had at first and satisfy its predicate, and after them the postings
    that the first automated entry has appended and satisfy its
    predicate. *)
Theorem extend_entry_base_cascades (j : journal_t) (a1 a2 : auto_entry_t)
    (post : bool) (w w1 : world) :
  auto_entries j = [a1; a2] →
  live (heap w) (xacts (this w)) →
  extend_entry a1 post w = (Ok tt, w1) →
  ∃ news,
    xacts (this w1) = xacts (this w) ++ news
    ∧ extend_entry_base j post w
      = extend_matched a2 post
          (matched_sources a2 (heap w) (xacts (this w))
           ++ matched_sources a2 (heap w1) news) w1.
Proof.
  intros Hautos Hlive Hrun.
  destruct (appends_extend_from a1 post (xacts (this w)) w)
    as (Hsub & news & Hthis & Hnews).
  unfold extend_entry_base. rewrite Hautos. cbn [extend_with].
  rewrite (bind_ok _ _ _ _ _ Hrun), bind_unit_ret.
  unfold extend_entry, bind, get_entry in Hrun |- *.
  rewrite Hrun in Hsub, Hthis, Hnews. simpl in Hsub, Hthis, Hnews.
  exists news. rewrite Hthis. split; [done|]. cbn [xacts set_xacts].
  rewrite extend_from_matched; cycle 1.
  { apply Forall_app. split; [by eapply live_weaken|].
    eapply Forall_impl; [exact Hnews|]. intros n (_ & x & Hx & _). by eexists. }
  unfold matched_sources at 1. rewrite filter_app.
  fold (matched_sources a2 (heap w1) (xacts (this w))).
  fold (matched_sources a2 (heap w1) news).
  by rewrite (matched_sources_weaken a2 (heap w) (heap w1)).
Qed.

(** ** What makes an expansion fail, and what makes it do nothing *)

Lemma apply_templates_zero_amount post i t ta ts : ∀ w,
  t ∈ ts → heap w !! t = Some ta → amt_nonzero (amount ta) = false →
  ∃ e w', apply_templates post i ts w = (Throw e, w').
Proof.
  induction ts as [|t0 ts IH]; intros w Ht Hta Hzero;
    [by apply elem_of_nil in Ht|].
  cbn [apply_templates]. unfold bind.
  destruct (decide (t0 = t)) as [->|Hne].
  - assert (Hthrow : apply_template post i t w = (Throw assertion_failure, w)).
    { unfold apply_template. apply bind_throw.
      unfold template_amount. by rewrite bind_deref, Hta, bind_assert, Hzero. }
    rewrite Hthrow. eauto.
  - apply elem_of_cons in Ht as [->|Ht]; [done|].
    destruct (apply_template_outcome post i t0 w)
      as [[e ->]|[[_ ->]|(_ & x & _ & _ & ->)]]; [by eauto|by apply IH|].
    apply IH; [done| |done].
    destruct (extended_appended w x) as [Hsub _]. by eapply lookup_weaken.
Qed.

(** X23: [extend_entry] does not read the templates before a posting
    satisfies the predicate: when none does, it completes and leaves the
    world as it is, whatever the templates are.  When one does, and some
    template has an amount that is zero, the assertion of line 449 stops
    the expansion: [extend_entry] does not complete. *)
Theorem extend_entry_needs_amounts (a : auto_entry_t) (post : bool) (w : world) :
  live (heap w) (xacts (this w)) →
  (matched_sources a (heap w) (xacts (this w)) = [] →
   extend_entry a post w = (Ok tt, w))
  ∧ (∀ t ta,
       matched_sources a (heap w) (xacts (this w)) ≠ [] →
       t ∈ auto_xacts a → heap w !! t = Some ta →
       amt_nonzero (amount ta) = false →
       ∃ e w', extend_entry a post w = (Throw e, w')).
Proof.
  intros Hlive.
  assert (Hrun : extend_entry a post w
    = extend_matched a post (matched_sources a (heap w) (xacts (this w))) w).
  { unfold extend_entry, bind, get_entry. by apply extend_from_matched. }
  rewrite Hrun. split; [by intros ->|].
  intros t ta Hmatched Ht Hta Hzero.
  destruct (matched_sources _ _ _) as [|i rest]; [done|].
  cbn [extend_matched]. unfold bind.
  destruct (apply_templates_zero_amount post i t ta (auto_xacts a) w Ht Hta Hzero)
    as (e & w' & ->). eauto.
Qed.

(** ** A cost in the commodity of the amount *)

Lemma accumulate_null_at xs : ∀ balance n0 w b nx w',
  accumulate xs balance n0 w = (Ok (b, Some nx), w') →
  n0 = Some nx ∨ null_at (heap w) nx = true.
Proof.
  induction xs as [|x xs IH]; intros balance n0 w b nx w' Hacc.
  { injection Hacc as _ -> _. by left. }
  cbn [accumulate] in Hacc. rewrite bind_deref in Hacc.
  destruct (heap w !! x) as [xa|] eqn:Hx; [|done].
  destruct (must_balance xa) eqn:Hmb; [|by eapply IH].
  destruct (amt_is_null _) eqn:Hnull; cbn [negb] in Hacc; [|by eapply IH].
  destruct n0; [done|].
  apply IH in Hacc as [[= ->]|?]; [|by right].
  right. unfold null_at, balancing_amount. by rewrite Hx, Hmb, Hnull.
Qed.

Lemma negate_amounts_other nx p X amounts : ∀ first w,
  p ≠ nx → heap w !! p = Some X →
  heap (negate_amounts nx first amounts w).2 !! p = Some X.
Proof.
  induction amounts as [|[c a] rest IH]; intros first w Hne HX; [done|].
  cbn [negate_amounts]. unfold bind at 1.
  destruct first; rewrite bind_deref;
    (destruct (heap w !! nx) as [NX|] eqn:Hnx; [|done]).
  - apply IH; [done|]. simpl. by rewrite lookup_insert_ne.
  - apply IH; [done|]. simpl. rewrite lookup_insert_ne; [done|].
    intros <-. by rewrite (not_elem_of_dom_1 _ _ (is_fresh (dom (heap w)))) in HX.
Qed.

Lemma resolve_null_xact_other nx p X balance w :
  p ≠ nx → heap w !! p = Some X →
  heap (resolve_null_xact nx balance w).2 !! p = Some X.
Proof.
  intros Hne HX. unfold resolve_null_xact. unfold bind at 1.
  destruct balance as [|a|amounts].
  - done.
  - rewrite bind_deref. destruct (heap w !! nx) as [NX|]; [|done].
    simpl. by rewrite lookup_insert_ne.
  - pose proof (negate_amounts_other nx p X amounts true w Hne HX) as Hkeep.
    by destruct (negate_amounts nx true amounts w) as [[[]|e] w'].
Qed.

Lemma assign_costs_costed per_unit_cost comm p X xs : ∀ balance w,
  heap w !! p = Some X → is_Some (cost X) →
  heap (assign_costs per_unit_cost comm xs balance w).2 !! p = Some X.
Proof.
  induction xs as [|x xs IH]; intros balance w HX Hcost; [done|].
  cbn [assign_costs]. rewrite bind_deref.
  destruct (heap w !! x) as [xa|] eqn:Hx; [|done].
  rewrite wants_cost_source. destruct (wants_cost comm xa) eqn:Hwants; [|by apply IH].
  unfold bind, store. apply IH; [|done]. simpl.
  rewrite lookup_insert_ne; [done|]. intros ->.
  unfold wants_cost in Hwants.
  apply andb_true_iff in Hwants as [[_ Hnone%bool_decide_eq_true]%andb_true_iff _].
  destruct Hcost as [c Hc]. congruence.
Qed.

Lemma infer_costs_costed p X balance w :
  heap w !! p = Some X → is_Some (cost X) →
  heap (infer_costs balance w).2 !! p = Some X.
Proof.
  intros HX Hcost. unfold infer_costs.
  destruct balance as [| |[|[c1 a1] [|[c2 a2] [|]]]]; try done.
  destruct (negb _); [|done].
  unfold bind, get_entry. by apply assign_costs_costed.
Qed.

(** Line 283. *)
Lemma exchange_costs_asserts p X c xs : ∀ balance w,
  p ∈ xs → heap w !! p = Some X → cost X = Some c →
  amt_commodity (amount X) = amt_commodity c →
  ∃ e w', exchange_costs xs balance w = (Throw e, w').
Proof.
  induction xs as [|x xs IH]; intros balance w Hp HX Hcost Hsame;
    [by apply elem_of_nil in Hp|].
  cbn [exchange_costs]. rewrite bind_deref.
  destruct (heap w !! x) as [xa|] eqn:Hx; [|by eauto].
  destruct (decide (x = p)) as [->|Hne].
  { assert (xa = X) as -> by congruence.
    rewrite Hcost, bind_assert, bool_decide_true by done. simpl. eauto. }
  apply elem_of_cons in Hp as [->|Hp]; [done|].
  destruct (cost xa) as [c'|]; [|by apply IH].
  rewrite bind_assert. destruct (negb _); [|by eauto].
  unfold bind at 1, get_entry.
  destruct (exchange _ _ _ _) as [[ann_amount final_cost] basis_cost].
  destruct (amt_commodity_annotated _).
  { destruct (bool_decide _); by apply IH. }
  unfold bind, store. apply IH; try done. simpl. by rewrite lookup_insert_ne.
Qed.

(** X24: [finalize] never succeeds on an entry that lists a posting whose
    cost is in the commodity of its amount (a posting that is not itself
    the null posting): if nothing stops it before, the assertion of line
    283 does. *)
Theorem finalize_rejects_cost_in_commodity (w : world) (p : xact_ptr)
    (X : xact_t) (c : amount_t) :
  p ∈ xacts (this w) →
  heap w !! p = Some X →
  cost X = Some c →
  amt_commodity (amount X) = amt_commodity c →
  null_at (heap w) p = false →
  ∃ e w', finalize w = (Throw e, w').
Proof.
  intros Hp HX Hcost Hsame Hnotnull.
  assert (Hbe : ∃ e w', balance_entry w = (Throw e, w')); cycle 1.
  { destruct Hbe as (e & w' & Hbe). rewrite finalize_unfold, Hbe. eauto. }
  unfold balance_entry. unfold bind at 1. unfold get_entry at 1. unfold bind at 1.
  destruct (accumulate _ _ _ w) as [[[balance null_xact]|e] w0] eqn:Hacc;
    [|by eauto].
  pose proof (accumulate_world (xacts (this w)) NULL_VALUE None w) as Hw0.
  rewrite Hacc in Hw0. simpl in Hw0. subst w0.
  rewrite bind_assert. destruct (value_valid balance); [|by eauto].
  unfold bind at 1.
  destruct (balance_against_basket null_xact w) as [[null_xact'|e] w1] eqn:Hbasket;
    [|by eauto].
  pose proof (framed_balance_against_basket null_xact w) as (_ & Hprefix & _).
  rewrite Hbasket in Hprefix. simpl in Hprefix.
  apply balance_against_basket_outcome in Hbasket as [Hsub Hnew].
  assert (HX1 : heap w1 !! p = Some X) by by eapply lookup_weaken.
  assert (Hp1 : p ∈ xacts (this w1)).
  { destruct Hprefix as [more ->]. apply elem_of_app. by left. }
  unfold bind at 1.
  destruct null_xact' as [n|].
  - assert (Hne : p ≠ n).
    { intros <-. destruct (Hnew p eq_refl) as [[-> _]|[Hfresh _]]; [|congruence].
      apply accumulate_null_at in Hacc as [[=]|Hnull]. congruence. }
    pose proof (resolve_null_xact_other n p X balance w1 Hne HX1) as HX2.
    pose proof (framed_resolve_null_xact n balance w1) as (_ & Hprefix2 & _).
    destruct (resolve_null_xact n balance w1) as [[b|e] w2]; [|by eauto].
    simpl in *. unfold bind, get_entry.
    eapply exchange_costs_asserts; try done.
    destruct Hprefix2 as [more ->]. apply elem_of_app. by left.
  - pose proof (infer_costs_costed p X balance w1 HX1 ltac:(by rewrite Hcost))
      as HX2.
    pose proof (framed_infer_costs balance w1) as (_ & Hprefix2 & _).
    destruct (infer_costs balance w1) as [[b|e] w2]; [|by eauto].
    simpl in *. unfold bind, get_entry.
    eapply exchange_costs_asserts; try done.
    destruct Hprefix2 as [more ->]. apply elem_of_app. by left.
Qed.

(** ** The destructor *)

Lemma destroy_xacts_step i rest w xa :
  heap w !! i = Some xa →
  destroy_xacts (i :: rest) w
  = match destroy_xacts rest
            (if f_temp (flags xa) then w
             else {| heap := delete i (heap w); this := this w |}) with
    | (Ok others, w') =>
        (Ok ((if f_temp (flags xa) then [] else [disposal_at (heap w) i])
             ++ others), w')
    | (Throw e, w') => (Throw e, w')
    end.
Proof.
  intros Hx. cbn [destroy_xacts]. rewrite bind_deref, Hx.
  unfold disposal_at. rewrite Hx.
  destruct (f_temp (flags xa)), (f_in_cache (flags xa)); cbn [negb];
    unfold bind, release, ret; by destruct (destroy_xacts rest _) as [[?|?] ?].
Qed.

Lemma owned_delete h i p : p ≠ i → owned (delete i h) p = owned h p.
Proof. intros Hne. unfold owned. by rewrite lookup_delete_ne. Qed.

Lemma disposal_at_delete h i p : p ≠ i → disposal_at (delete i h) p = disposal_at h p.
Proof. intros Hne. unfold disposal_at. by rewrite lookup_delete_ne. Qed.

Lemma live_delete h i xs : i ∉ xs → live h xs → live (delete i h) xs.
Proof.
  intros Hi Hlive. apply Forall_forall. intros p Hp.
  rewrite lookup_delete_ne by (intros ->; done).
  by eapply Forall_forall in Hlive.
Qed.

Lemma filter_owned_delete h i (xs : list xact_ptr) :
  i ∉ xs →
  filter (λ p, owned (delete i h) p) xs = filter (λ p, owned h p) xs.
Proof.
  intros Hi. apply filter_bool_agree. intros p Hp.
  apply owned_delete. by intros ->.
Qed.

(** With live pointers and no posting of its own listed twice, the
    destructor ends the postings of the entry that are not temporaries, and
    only these. *)
Lemma destroy_xacts_effect xs : ∀ w,
  live (heap w) xs →
  NoDup (filter (λ p, owned (heap w) p) xs) →
  ∃ w',
    destroy_xacts xs w
    = (Ok (disposal_at (heap w) <$> filter (λ p, owned (heap w) p) xs), w')
    ∧ this w' = this w
    ∧ ∀ p, heap w' !! p
           = if bool_decide (p ∈ xs) && owned (heap w) p then None
             else heap w !! p.
Proof.
  induction xs as [|i rest IH]; intros w Hlive Hnodup.
  { exists w. split; [done|]. split; [done|]. intros p.
    by rewrite bool_decide_false by apply not_elem_of_nil. }
  apply Forall_cons in Hlive as [[xa Hx] Hlive].
  rewrite (destroy_xacts_step _ _ _ _ Hx).
  assert (Hown : owned (heap w) i = negb (f_temp (flags xa)))
    by (unfold owned; by rewrite Hx).
  destruct (f_temp (flags xa)); simpl in Hown.
  - rewrite filter_cons_False in Hnodup by (rewrite Hown; auto).
    rewrite filter_cons_False by (rewrite Hown; auto).
    destruct (IH w Hlive Hnodup) as (w' & -> & Hthis & Hheap).
    exists w'. split; [done|]. split; [done|].
    intros p. rewrite Hheap. destruct (decide (p = i)) as [->|Hne].
    + by rewrite Hown, !andb_false_r.
    + rewrite (bool_decide_ext (p ∈ i :: rest) (p ∈ rest)); [done|].
      rewrite elem_of_cons. tauto.
  - rewrite filter_cons_True in Hnodup by (rewrite Hown; auto).
    rewrite filter_cons_True by (rewrite Hown; auto).
    apply NoDup_cons in Hnodup as [Hi Hnodup].
    assert (Hfresh : i ∉ rest).
    { intros Hin. apply Hi, list_elem_of_filter. by rewrite Hown. }
    destruct (IH {| heap := delete i (heap w); this := this w |})
      as (w' & Hrun & Hthis & Hheap).
    { simpl. by apply live_delete. }
    { simpl. by rewrite filter_owned_delete. }
    simpl in *. rewrite filter_owned_delete in Hrun by done.
    rewrite Hrun. exists w'. split; [|split; [done|]].
    + do 3 f_equal.
      apply Forall_fmap_ext, Forall_forall. intros p Hp.
      apply disposal_at_delete. intros ->.
      apply list_elem_of_filter in Hp. tauto.
    + intros p. rewrite Hheap. destruct (decide (p = i)) as [->|Hne].
      * rewrite (bool_decide_false (i ∈ rest)) by done.
        rewrite (bool_decide_true (i ∈ i :: rest)) by apply list_elem_of_here.
        rewrite Hown. simpl. apply lookup_delete_eq.
      * rewrite owned_delete, lookup_delete_ne by done.
        rewrite (bool_decide_ext (p ∈ i :: rest) (p ∈ rest)); [done|].
        rewrite elem_of_cons. tauto.
Qed.

(** The destructor reads the flags of every posting of the list: a pointer
    that refers to nothing stops it. *)
Lemma destroy_xacts_dangling xs : ∀ w p,
  p ∈ xs → heap w !! p = None →
  ∃ w', destroy_xacts xs w = (Throw invalid_pointer, w').
Proof.
  induction xs as [|i rest IH]; intros w p Hp Hdead; [by apply elem_of_nil in Hp|].
  destruct (heap w !! i) as [xa|] eqn:Hx; cycle 1.
  { exists w. cbn [destroy_xacts]. by rewrite bind_deref, Hx. }
  rewrite (destroy_xacts_step _ _ _ _ Hx).
  apply elem_of_cons in Hp as [->|Hp]; [congruence|].
  destruct (IH (if f_temp (flags xa) then w
                else {| heap := delete i (heap w); this := this w |}) p Hp)
    as [w' ->]; [|by eauto].
  destruct (f_temp (flags xa)); [done|]. simpl.
  apply lookup_delete_None. by right.
Qed.

(** A posting of its own that the entry lists twice is ended at its first
    occurrence and read again at the second. *)
Lemma destroy_xacts_twice xs : ∀ w,
  live (heap w) xs →
  ¬ NoDup (filter (λ p, owned (heap w) p) xs) →
  ∃ w', destroy_xacts xs w = (Throw invalid_pointer, w').
Proof.
  induction xs as [|i rest IH]; intros w Hlive Hdup.
  { destruct Hdup. constructor. }
  apply Forall_cons in Hlive as [[xa Hx] Hlive].
  rewrite (destroy_xacts_step _ _ _ _ Hx).
  assert (Hown : owned (heap w) i = negb (f_temp (flags xa)))
    by (unfold owned; by rewrite Hx).
  destruct (f_temp (flags xa)); simpl in Hown.
  - rewrite filter_cons_False in Hdup by (rewrite Hown; auto).
    destruct (IH w Hlive Hdup) as [w' ->]. eauto.
  - rewrite filter_cons_True in Hdup by (rewrite Hown; auto).
    destruct (decide (i ∈ rest)) as [Hin|Hfresh].
    + destruct (destroy_xacts_dangling rest
                  {| heap := delete i (heap w); this := this w |} i Hin)
        as [w' ->]; [apply lookup_delete_eq|eauto].
    + destruct (IH {| heap := delete i (heap w); this := this w |})
        as [w' ->]; [by apply live_delete| |by eauto].
      simpl. rewrite filter_owned_delete by done.
      intros Hnodup. apply Hdup, NoDup_cons. split; [|done].
      rewrite list_elem_of_filter. tauto.
Qed.

(** X14: on an entry whose pointers all refer to postings, the destructor
    runs to its end exactly when no posting that is not a temporary is
    listed twice; when one is, the destructor reads a posting that it has
    ended already. *)
Theorem entry_base_destroy_safe (w : world) :
  live (heap w) (xacts (this w)) →
  (NoDup (filter (λ p, owned (heap w) p) (xacts (this w)))
   ↔ ∃ log w', entry_base_destroy w = (Ok log, w'))
  ∧ (¬ NoDup (filter (λ p, owned (heap w) p) (xacts (this w)))
     → ∃ w', entry_base_destroy w = (Throw invalid_pointer, w')).
Proof.
  intros Hlive. unfold entry_base_destroy, bind, get_entry.
  assert (Htwice := destroy_xacts_twice _ w Hlive).
  split; [|done]. split.
  - intros Hnodup.
    destruct (destroy_xacts_effect _ w Hlive Hnodup) as (w' & -> & _). eauto.
  - intros (log & w' & Hrun). apply dec_stable. intros Hdup.
    destruct (Htwice Hdup) as [w'' Hthrow]. congruence.
Qed.

(** X15: when the destructor runs to its end, the postings of the entry
    that are not temporaries are no more, each deleted, or destructed in
    place when it is flagged as in the cache, in the order of the list; the
    temporaries of the entry and every posting that is not of the entry are
    as they were. *)
Theorem entry_base_destroy_effect (w w' : world) (log : list disposal) :
  entry_base_destroy w = (Ok log, w') →
  log = disposal_at (heap w) <$> filter (λ p, owned (heap w) p) (xacts (this w))
  ∧ ∀ p, heap w' !! p
         = if bool_decide (p ∈ xacts (this w)) && owned (heap w) p then None
           else heap w !! p.
Proof.
  unfold entry_base_destroy, bind, get_entry. intros Hrun.
  destruct (decide (live (heap w) (xacts (this w)))) as [Hlive|Hdead]; cycle 1.
  { apply not_Forall_Exists in Hdead; [|apply _].
    apply Exists_exists in Hdead as (p & Hp & Hnone).
    destruct (destroy_xacts_dangling _ w p Hp) as [w'' Hthrow]; [|congruence].
    by apply eq_None_not_Some. }
  destruct (decide (NoDup (filter (λ p, owned (heap w) p) (xacts (this w)))))
    as [Hnodup|Hdup]; cycle 1.
  { destruct (destroy_xacts_twice _ w Hlive Hdup) as [w'' Hthrow]. congruence. }
  destruct (destroy_xacts_effect _ w Hlive Hnodup) as (w'' & Heq & _ & Hheap).
  rewrite Heq in Hrun. by injection Hrun as <- <-.
Qed.

Section Copies.
Context `{CT : !Constructors}.

Lemma copy_xacts_effect xs : ∀ w,
  live (heap w) xs →
  ∃ news w',
    copy_xacts xs w = (Ok tt, w')
    ∧ this w' = set_xacts (xacts (this w) ++ news) (this w)
    ∧ heap w ⊆ heap w'
    ∧ Forall2 (λ n i, heap w !! n = None
                      ∧ ∃ x, heap w !! i = Some x
                             ∧ heap w' !! n = Some (xact_copy x)) news xs
    ∧ NoDup news
    ∧ ∀ p, p ∉ news → heap w' !! p = heap w !! p.
Proof.
  induction xs as [|i rest IH]; intros w Hlive.
  { exists [], w. rewrite app_nil_r, set_xacts_same.
    repeat split; try done; constructor. }
  apply Forall_cons in Hlive as [[xa Hx] Hlive].
  cbn [copy_xacts]. rewrite bind_deref, Hx.
  unfold bind at 1 2. unfold alloc at 1. cbn [heap this].
  unfold add_xact, bind, get_entry, put_entry. cbn [heap this].
  set (n := fresh (dom (heap w))).
  assert (Hn : heap w !! n = None) by apply not_elem_of_dom, is_fresh.
  assert (Hsub : heap w ⊆ <[n := xact_copy xa]> (heap w))
    by by apply insert_subseteq.
  destruct (IH {| heap := <[n := xact_copy xa]> (heap w);
                  this := set_xacts (xacts (this w) ++ [n]) (this w) |})
    as (news & w' & Hrun & Hthis & Hsub' & Hcopies & Hnodup & Hrest).
  { simpl. by eapply live_weaken. }
  simpl in *.
  assert (Hnews : ∀ n', n' ∈ news → n' ≠ n ∧ heap w !! n' = None).
  { intros n' [k Hk]%list_elem_of_lookup.
    destruct (Forall2_lookup_l _ _ _ _ _ Hcopies Hk) as (i' & _ & Hn' & _).
    apply lookup_insert_None in Hn' as [Hnone Hne].
    split; [by intros ->|done]. }
  exists (n :: news), w'. split; [done|].
  split; [by rewrite Hthis, <- app_assoc|].
  split; [by etrans|]. split; [|split].
  - constructor.
    + split; [done|]. exists xa. split; [done|].
      eapply lookup_weaken; [|done]. apply lookup_insert_eq.
    + apply Forall2_same_length_lookup. split; [by eapply Forall2_length|].
      intros k n' i' Hk Hk'.
      destruct (Forall2_lookup_lr _ _ _ _ _ _ Hcopies Hk Hk')
        as (_ & x & Hx' & Hcopy).
      split; [by eapply Hnews, list_elem_of_lookup_2|].
      exists x. split; [|done].
      rewrite lookup_insert_ne in Hx'; [done|].
      intros <-. eapply Forall_lookup_1 in Hlive as [? ?]; [|done]. congruence.
  - apply NoDup_cons. split; [|done]. intros Hin. by apply Hnews in Hin as [? _].
  - intros p [Hp Hp']%not_elem_of_cons.
    by rewrite Hrest, lookup_insert_ne.
Qed.

(** X16: the copy constructor makes a deep copy: the new entry lists, in
    the order of the original, one new posting for each pointer of the
    original, the copy of the posting it refers to; no two of them are the
    same posting, not even where the original lists a posting twice, and
    none is a posting that existed; the postings that existed are as they
    were.  The journal and the source position are not copied: the new
    entry has no journal and its positions are zero. *)
Theorem entry_base_copy_deep (e : entry_base_t) (w : world) :
  live (heap w) (xacts e) →
  ∃ w',
    entry_base_copy e w = (Ok tt, w')
    ∧ Forall2 (λ n i, heap w !! n = None
                      ∧ ∃ x, heap w !! i = Some x
                             ∧ heap w' !! n = Some (xact_copy x))
        (xacts (this w')) (xacts e)
    ∧ NoDup (xacts (this w'))
    ∧ heap w ⊆ heap w'
    ∧ journal (this w') = None
    ∧ e_beg_pos (this w') = 0%Z ∧ e_beg_line (this w') = 0%Z
    ∧ e_end_pos (this w') = 0%Z ∧ e_end_line (this w') = 0%Z.
Proof.
  intros Hlive. unfold entry_base_copy, bind, put_entry.
  set (w0 := {| heap := heap w; this := _ |}).
  destruct (copy_xacts_effect (xacts e) w0 Hlive)
    as (news & w' & Hrun & Hthis & Hsub & Hcopies & Hnodup & _).
  exists w'. rewrite Hthis. by repeat split.
Qed.

(** X17: copying an entry and ending the copy gives the store back: when
    no copy of a posting is a temporary, the postings after the
    destructor of the copy are exactly those before the copy was made, and
    as many postings were ended as the original lists. *)
Theorem copy_then_destroy (e : entry_base_t) (w : world) :
  live (heap w) (xacts e) →
  (∀ i x, i ∈ xacts e → heap w !! i = Some x →
          f_temp (flags (xact_copy x)) = false) →
  ∃ log w',
    (entry_base_copy e ;;; entry_base_destroy) w = (Ok log, w')
    ∧ heap w' = heap w
    ∧ length log = length (xacts e).
Proof.
  intros Hlive Hkeep. unfold bind at 1.
  unfold entry_base_copy, bind at 1, put_entry.
  set (w0 := {| heap := heap w; this := _ |}).
  destruct (copy_xacts_effect (xacts e) w0 Hlive)
    as (news & w1 & -> & Hthis & Hsub & Hcopies & Hnodup & Hrest).
  unfold entry_base_destroy, bind, get_entry. rewrite Hthis. simpl in *.
  assert (Hown : ∀ n, n ∈ news → heap w !! n = None ∧ owned (heap w1) n = true).
  { intros n [k Hk]%list_elem_of_lookup.
    destruct (Forall2_lookup_l _ _ _ _ _ Hcopies Hk)
      as (i & Hi & Hn & x & Hx & Hcopy).
    split; [done|]. unfold owned. rewrite Hcopy.
    by rewrite (Hkeep i x) by (done || by eapply list_elem_of_lookup_2). }
  assert (Hall : filter (λ p, owned (heap w1) p) news = news).
  { clear -Hown. induction news as [|n news IH]; [done|].
    rewrite filter_cons_True.
    - rewrite IH; [done|]. intros n' Hn'. by apply Hown, list_elem_of_further.
    - destruct (Hown n) as [_ ->]; [apply list_elem_of_here|done]. }
  destruct (destroy_xacts_effect news w1) as (w' & Hrun & _ & Hheap).
  { apply Forall_forall. intros n Hn. apply Hown in Hn as [_ Hn].
    unfold owned in Hn. by destruct (heap w1 !! n). }
  { by rewrite Hall. }
  rewrite Hrun, Hall. exists (disposal_at (heap w1) <$> news), w'.
  split; [done|]. split.
  - apply map_eq. intros p. rewrite Hheap. case_bool_decide as Hp.
    + by destruct (Hown p Hp) as [-> ->].
    + by apply Hrest.
  - rewrite length_fmap. by eapply Forall2_length.
Qed.

End Copies.

End Properties.

(** * entry_t::lookup *)

Section Lookup.
Import Stdlib.Strings.Ascii.

(** X18: [lookup] gives the date accessor for the names [d] and [date], the
    payee accessor for the names [p] and [payee], and nothing for any other
    name, the empty name included; a longer name that begins with one of
    the two letters is not a name of theirs, unless a NUL character
    follows the letter, which ends the comparison of line 392 or 396. *)
Theorem lookup_names (name : string) :
  (entry_t.lookup name = Some entry_t.get_date
   ↔ name = "d" ∨ name = "date" ∨ ∃ s, name = String "d" (String zero s))
  ∧ (entry_t.lookup name = Some entry_t.get_payee
     ↔ name = "p" ∨ name = "payee" ∨ ∃ s, name = String "p" (String zero s)).
Proof.
  unfold entry_t.lookup.
  destruct (String.eqb_spec name "date") as [->|Hdate];
    [vm_compute; split; split; (done || tauto || intros [?|[?|[s ?]]]; done)|].
  destruct (String.eqb_spec name "payee") as [->|Hpayee];
    [vm_compute; split; split; (done || tauto || intros [?|[?|[s ?]]]; done)|].
  rewrite !orb_false_r.
  assert (Hcase : ∀ (P Q R S : Prop), (P → Q ∨ R ∨ S) → (Q → P) → (R → P) →
                   (S → P) → P ↔ Q ∨ R ∨ S) by tauto.
  destruct name as [|c [|c' rest]]; unfold entry_t.char_at; cbn.
  - split; apply Hcase; try done; by intros [s ?].
  - destruct (Ascii.eqb_spec c "d") as [->|Hd];
      [|destruct (Ascii.eqb_spec c "p") as [->|Hp]]; cbn;
      split; apply Hcase; try done; try (intros [s ?]); try congruence; auto.
  - destruct (Ascii.eqb_spec c "d") as [->|Hd];
      [|destruct (Ascii.eqb_spec c "p") as [->|Hp]];
      destruct (Ascii.eqb_spec c' zero) as [->|Hz]; cbn;
      split; apply Hcase; try done; try (intros [s ?]); try congruence; eauto.
Qed.

End Lookup.

(** * The postings of an entry_t refer back to it *)

Section BackReferences.
Context `{CT : Constructors} `{VA : !entry_t.Validity}.
Import entry_t.

Lemma set_entries_effect xs : ∀ s,
  live (heap (base s)) xs →
  ∃ s',
    set_entries xs s = (Ok tt, s')
    ∧ base s' = base s ∧ self s' = self s
    ∧ (∀ n, n ∈ xs → entry_of s' !! n = Some (self s))
    ∧ (∀ n, n ∉ xs → entry_of s' !! n = entry_of s !! n).
Proof.
  induction xs as [|i rest IH]; intros s Hlive.
  { exists s. repeat split; try done. by intros n Hn%elem_of_nil. }
  apply Forall_cons in Hlive as [[x Hx] Hlive].
  cbn [set_entries]. unfold and_then, set_entry. rewrite Hx.
  destruct (IH {| base := base s;
                  entry_of := <[i := self s]> (entry_of s);
                  self := self s |} Hlive)
    as (s' & Hrun & Hbase & Hself & Hset & Hkeep).
  simpl in *. exists s'. split; [done|]. split; [done|]. split; [done|]. split.
  - intros n Hn. destruct (decide (n ∈ rest)) as [Hin|Hout]; [by apply Hset|].
    apply elem_of_cons in Hn as [->|?]; [|done].
    rewrite Hkeep by done. apply lookup_insert_eq.
  - intros n [Hne Hout]%not_elem_of_cons.
    by rewrite Hkeep, lookup_insert_ne.
Qed.

Lemma valid_xacts_forallb xs s :
  live (heap (base s)) xs →
  valid_xacts xs s
  = Ok (forallb (λ i, bool_decide (entry_of s !! i = Some (self s))
                      && xact_valid s i) xs).
Proof.
  induction 1 as [|i rest [x Hx] Hlive IH]; [done|].
  cbn [valid_xacts forallb]. rewrite Hx.
  destruct (decide (entry_of s !! i = Some (self s))) as [Heq|Hne].
  - rewrite bool_decide_false, bool_decide_true by auto.
    simpl. by destruct (xact_valid s i).
  - by rewrite bool_decide_true, bool_decide_false by auto.
Qed.

(** X19: the copy constructor of [entry_t] makes every posting of the new
    entry refer back to the new entry, and gives the new entry the dates,
    the code and the payee of the original, but not its journal: the copy
    has none, so that [valid] answers [false] on it, whatever its
    postings. *)
Theorem entry_copy_refers_back (e : entry_base_t) (s : scene) :
  live (heap (base s)) (xacts e) →
  ∃ s',
    copy e s = (Ok tt, s')
    ∧ self s' = self s
    ∧ length (xacts (this (base s'))) = length (xacts e)
    ∧ (∀ n, n ∈ xacts (this (base s')) → entry_of s' !! n = Some (self s'))
    ∧ as_entry (this (base s')) = as_entry e
    ∧ journal (this (base s')) = None
    ∧ valid s' = Ok false.
Proof.
  intros Hlive. unfold copy. unfold and_then at 1. unfold lift at 1.
  unfold entry_base_copy, bind at 1, put_entry.
  set (w0 := {| heap := heap (base s); this := _ |}).
  destruct (copy_xacts_effect (xacts e) w0 Hlive)
    as (news & w1 & -> & Hthis & Hsub & Hcopies & Hnodup & Hrest).
  unfold and_then at 1. unfold lift, bind, get_entry, put_entry. cbn [base this heap].
  rewrite Hthis. subst w0. simpl in *.
  set (s2 := {| base := {| heap := heap w1; this := _ |};
                entry_of := entry_of s; self := self s |}).
  destruct (set_entries_effect news s2) as (s' & Hrun & Hbase & Hself & Hset & _).
  { apply Forall_forall. intros n [k Hk]%list_elem_of_lookup.
    destruct (Forall2_lookup_l _ _ _ _ _ Hcopies Hk) as (i & _ & _ & x & _ & Hn).
    by eexists. }
  exists s'. split; [done|]. rewrite Hself, Hbase. simpl.
  split; [done|]. split; [by eapply Forall2_length|].
  split; [done|]. split; [done|]. split; [done|].
  unfold valid. rewrite Hbase. simpl. by rewrite orb_true_r.
Qed.

(** X20: on an entry whose pointers refer to postings, [valid] answers
    [true] exactly when the date is valid, the entry has a journal, and
    every posting of the entry refers back to the entry and is valid
    itself. *)
Theorem valid_iff_all (s : scene) :
  live (heap (base s)) (xacts (this (base s))) →
  valid s
  = Ok (is_valid (as_entry (this (base s)) ≫= e_date)
        && bool_decide (is_Some (journal (this (base s))))
        && forallb (λ i, bool_decide (entry_of s !! i = Some (self s))
                         && xact_valid s i)
             (xacts (this (base s)))).
Proof.
  intros Hlive. unfold valid. rewrite valid_xacts_forallb by done.
  destruct (is_valid _); [|done]. by destruct (bool_decide (is_Some _)).
Qed.

(** X21: [entry_t::add_xact] takes the posting over: the posting refers
    back to the entry it was added to, at the end of whose list it is, and
    any other entry that lists the posting is not valid any more. *)
Theorem add_xact_takes_over (p : xact_ptr) (s s' : scene)
    (other : entry_base_t) (other_self : entry_ptr) :
  add_xact p s = (Ok tt, s') →
  p ∈ xacts other →
  other_self ≠ self s →
  live (heap (base s)) (xacts other) →
  xacts (this (base s')) = xacts (this (base s)) ++ [p]
  ∧ entry_of s' !! p = Some (self s)
  ∧ valid {| base := {| heap := heap (base s'); this := other |};
             entry_of := entry_of s'; self := other_self |}
    = Ok false.
Proof.
  unfold add_xact, and_then, set_entry, lift.
  destruct (heap (base s) !! p) as [x|] eqn:Hp; [|done].
  intros [= <-] Hin Hother Hlive. simpl.
  split; [done|]. split; [apply lookup_insert_eq|].
  unfold valid. simpl. destruct (_ || _); [done|].
  rewrite valid_xacts_forallb by done. simpl. f_equal.
  apply not_true_is_false. intros Hall.
  rewrite forallb_forall in Hall. rewrite list_elem_of_In in Hin.
  specialize (Hall p Hin). rewrite lookup_insert_eq in Hall.
  apply andb_true_iff in Hall as [Heq _].
  apply bool_decide_eq_true in Heq. congruence.
Qed.

End BackReferences.

(** * The properties on rational amounts *)

Module RationalChecks.
Import RationalLedger.
#[local] Existing Instance collaborators.
#[local] Existing Instance value_ops.
#[local] Open Scope Q_scope.

Ltac solve_live :=
  vm_compute;
  repeat first [apply Forall_nil_2 | apply Forall_cons_2; [eexists; reflexivity|]].

(** [+10 USD], [-9 USD]: the remainder of 1 USD comes with the error. *)
Example unbalanced_remainder :
  finalize unbalanced_entry
  = (Throw (balance_error "Entry does not balance"
              [value_context (AMOUNT (USD 1)) "Unbalanced remainder is:";
               entry_context (this unbalanced_entry) "While balancing entry:"]),
     unbalanced_entry).
Proof. vm_compute. reflexivity. Qed.

(** Two postings with unset amounts, no cost, and a set amount between them:
    the scan throws at the second. *)
Lemma unset_amounts_rejected_witness :
  finalize two_nulls_entry
  = (Throw (logic_error "Only one xact with null amount allowed per entry"),
     two_nulls_entry).
Proof.
  destruct (unset_amounts_rejected two_nulls_entry) as (Hsecond & _).
  - solve_live.
  - intros p x c Hp Hx Hc.
    apply list_elem_of_In in Hp. simpl in Hp.
    destruct Hp as [<-|[<-|[<-|[]]]];
      vm_compute in Hx; injection Hx as <-; vm_compute in Hc; discriminate Hc.
  - apply (Hsecond [1%positive; 2%positive] 3%positive []);
      vm_compute; reflexivity.
Defined.


(** [+10 USD], [+5 EUR] and a null posting: the null posting takes
    [-5 EUR], one posting of [-10 USD] is appended, and each commodity sums
    to zero. *)
Lemma null_posting_negates_each_commodity_witness :
  (∃ news,
     xacts (this (finalize multi_commodity_entry).2)
     = xacts (this multi_commodity_entry) ++ news
     ∧ length news = 1%nat
     ∧ heap (finalize multi_commodity_entry).2 !! 3%positive
       = Some (posting "Equity" (EUR (-5)))
     ∧ generated_for (heap multi_commodity_entry)
         (heap (finalize multi_commodity_entry).2) "Equity" news
         [("USD", USD 10)])
  ∧ total (heap (finalize multi_commodity_entry).2)
      (xacts (this (finalize multi_commodity_entry).2)) NULL_VALUE
    = BALANCE [("EUR", EUR 0); ("USD", USD 0)].
Proof.
  split; [|vm_compute; reflexivity].
  destruct (null_posting_negates_each_commodity multi_commodity_entry 3%positive
              (posting "Equity" None) "EUR" (EUR 5) [("USD", USD 10)])
    as (news & w2 & _ & _ & Hlen & _ & _ & _ & Hxacts & Hgen & Hnull).
  - solve_live.
  - vm_compute. reflexivity.
  - vm_compute. reflexivity.
  - reflexivity.
  - vm_compute. reflexivity.
  - exists news. split; [done|]. split; [done|]. split; [|done].
    by apply Hnull.
Defined.

(** On that entry [finalize] succeeds with four postings: one more than the
    three that were written, not two more. *)
Lemma multi_commodity_one_extra_posting :
  (finalize multi_commodity_entry).1 = Ok true
  ∧ length (xacts (this multi_commodity_entry)) = 3%nat
  ∧ length (xacts (this (finalize multi_commodity_entry).2)) = 4%nat
  ∧ length (xacts (this (finalize multi_commodity_entry).2))
    ≠ (length (xacts (this multi_commodity_entry)) + 2)%nat.
Proof. vm_compute. repeat split; try reflexivity. lia. Qed.

(** [+10 A], [-2 B]: the posting in B gets the cost [|10 / -2| * -2 = -10]
    in A, and the entry balances. *)
Lemma two_commodities_infer_cost_witness :
  (∃ w',
     infer_costs (BALANCE [("A", amt 10 "A"); ("B", amt (-2) "B")])
       two_commodity_entry
     = (Ok (BALANCE [("A", amt 0 "A")]), w')
     ∧ heap w' !! 1%positive = Some (posting "Assets" (amt 10 "A"))
     ∧ heap w' !! 2%positive
       = Some (set_cost (Some (amt (-10) "A")) (posting "Broker" (amt (-2) "B"))))
  ∧ (finalize two_commodity_entry).1 = Ok true.
Proof.
  destruct (two_commodities_infer_cost two_commodity_entry
              "A" "B" (amt 10 "A") (amt (-2) "B") ltac:(solve_live))
    as (_ & Hinfer & Hfinalize).
  split.
  - destruct (Hinfer eq_refl) as (w' & Hrun & _ & Hheap).
    exists w'. rewrite !Hheap. split; [|split; vm_compute; reflexivity].
    etrans; [exact Hrun|]. vm_compute. reflexivity.
  - etrans; [apply (f_equal fst), Hfinalize|]; vm_compute; reflexivity.
Defined.

(** The multiplier at 3 applies in [post] mode only, the fixed amount at 4
    otherwise. *)
Lemma template_applies_by_mode_witness :
  apply_template true 1%positive 3%positive template_world
  = (Ok tt, appended template_world
              (new_xact "Expenses:Food" (USD 1) XACT_AUTO))
  ∧ apply_template false 1%positive 3%positive template_world
    = (Ok tt, template_world)
  ∧ apply_template false 1%positive 4%positive template_world
    = (Ok tt, appended template_world (new_xact "Taxes" (USD 1) XACT_AUTO))
  ∧ apply_template true 1%positive 4%positive template_world
    = (Ok tt, template_world).
Proof.
  pose proof (λ post t ta Ht,
    template_applies_by_mode post 1%positive t (posting "Expenses:Food" (USD 10)) ta
      template_world eq_refl Ht) as Hmode.
  assert (H3 : heap template_world !! 3%positive
               = Some (posting "$account" (amt (1 # 10) ""))) by reflexivity.
  assert (H4 : heap template_world !! 4%positive
               = Some (posting "Taxes" (USD 1))) by reflexivity.
  split; [|split; [|split]].
  - destruct (Hmode true 3%positive _ H3 eq_refl) as [Hbare _].
    destruct (Hbare eq_refl) as [_ Hadd].
    etrans; [by apply Hadd|]. vm_compute. reflexivity.
  - destruct (Hmode false 3%positive _ H3 eq_refl) as [Hbare _].
    destruct (Hbare eq_refl) as [Hskip _]. by apply Hskip.
  - destruct (Hmode false 4%positive _ H4 eq_refl) as [_ Hfixed].
    destruct (Hfixed eq_refl) as [_ Hadd].
    etrans; [by apply Hadd|]. vm_compute. reflexivity.
  - destruct (Hmode true 4%positive _ H4 eq_refl) as [_ Hfixed].
    destruct (Hfixed eq_refl) as [Hskip _]. by apply Hskip.
Defined.

(** The automated entry matches the posting at 1 only; in pre mode it
    appends one posting, from the template at 4. *)
Lemma extend_entry_scans_snapshot_witness :
  matched_sources food_tax (heap template_world) (xacts (this template_world))
  = [1%positive]
  ∧ extend_entry food_tax false template_world
    = (Ok tt, appended template_world (new_xact "Taxes" (USD 1) XACT_AUTO))
  ∧ ∃ news,
      xacts (this (extend_entry food_tax false template_world).2)
      = xacts (this template_world) ++ news
      ∧ Forall (λ n, (n ∉ xacts (this template_world))
                     ∧ (n ∉ matched_sources food_tax (heap template_world)
                              (xacts (this template_world)))
                     ∧ heap template_world !! n = None) news.
Proof.
  destruct (extend_entry_scans_snapshot food_tax false template_world
              ltac:(solve_live)) as (Hrun & _ & Hnews).
  split; [vm_compute; reflexivity|]. split; [|done].
  rewrite Hrun. vm_compute. reflexivity.
Defined.

(** A lone posting of [+10 USD] and a basket account. *)
Lemma lone_posting_balanced_against_basket_witness :
  xacts (this (finalize basket_entry).2) = [1%positive; 2%positive]
  ∧ heap (finalize basket_entry).2 !! 2%positive
    = Some (basket_posting "Basket" (posting "Assets" (USD 10)))
  ∧ balanced (finalize basket_entry).2.
Proof.
  destruct (lone_posting_balanced_against_basket basket_entry 1%positive
              (posting "Assets" (USD 10)) basket_journal "Basket"
              eq_refl eq_refl eq_refl eq_refl) as (_ & _ & Hfinal).
  destruct (Hfinal (finalize basket_entry).2) as (Hx & _ & Hn & _ & _ & _ & Hbal).
  { vm_compute. reflexivity. }
  split; [done|]. split; [done|]. apply Hbal; vm_compute; reflexivity.
Defined.

(** C8: on [+10 USD], [-10 USD] [finalize] returns [true], and the entry and
    its postings after the call are exactly those before it.  The algorithm
    quoted at lines 311-314 ends a successful run with
    [(setf (entry-normalizedp entry) t)]; the successful run of the C++
    writes nothing to the entry. *)
Lemma successful_finalize_changes_nothing :
  finalize balanced_entry = (Ok true, balanced_entry)
  ∧ this (finalize balanced_entry).2 = this balanced_entry
  ∧ heap (finalize balanced_entry).2 = heap balanced_entry.
Proof.
  assert (Hrun : finalize balanced_entry = (Ok true, balanced_entry))
    by (vm_compute; reflexivity).
  by rewrite Hrun.
Qed.

(** A balance of three commodities is left alone. *)
Lemma infer_costs_only_two_commodities_witness :
  infer_costs (BALANCE [("A", amt 1 "A"); ("B", amt 2 "B"); ("C", amt 3 "C")])
    two_commodity_entry
  = (Ok (BALANCE [("A", amt 1 "A"); ("B", amt 2 "B"); ("C", amt 3 "C")]),
     two_commodity_entry).
Proof.
  apply infer_costs_only_two_commodities. intros amounts [= <-]. simpl. lia.
Defined.

(** Two cleared postings and an uncleared one: not uniform, and the cell
    holds the state of the first. *)
Lemma get_state_uniform_witness :
  get_state PENDING mixed_states_entry
  = (Ok (false, CLEARED), mixed_states_entry).
Proof.
  etrans; [apply get_state_uniform; solve_live|]. vm_compute. reflexivity.
Defined.

Lemma extend_entry_keeps_postings_witness :
  extended template_world (extend_entry food_tax true template_world).2.
Proof. apply extend_entry_keeps_postings. solve_live. Defined.

(** [+10 USD] and a null posting: the null posting becomes [-10 USD],
    calculated. *)
Lemma null_posting_single_amount_witness :
  this (finalize single_null_entry).2 = this single_null_entry
  ∧ heap (finalize single_null_entry).2 !! 2%positive
    = Some (add_flags XACT_CALCULATED (posting "Equity" (USD (-10)))).
Proof.
  apply (null_posting_single_amount single_null_entry 2%positive
           (posting "Equity" None) (USD 10)).
  - solve_live.
  - vm_compute. reflexivity.
  - vm_compute. reflexivity.
  - reflexivity.
  - vm_compute. reflexivity.
  - reflexivity.
Defined.

(** An entry without postings balances. *)
Lemma finalize_no_postings_witness :
  finalize empty_entry = (Ok true, empty_entry).
Proof. exact (finalize_no_postings empty_entry eq_refl). Defined.

Ltac solve_member H :=
  apply list_elem_of_In in H; simpl in H;
  repeat (destruct H as [<-|H]; [|]); [..|destruct H].

(** [+10 USD], [-10 USD]: no cost, no null posting, one commodity. *)
Lemma finalize_without_costs_witness :
  finalize balanced_entry = (Ok true, balanced_entry)
  ∧ finalize unbalanced_entry
    = (Throw (balance_error "Entry does not balance"
                [value_context (AMOUNT (USD 1)) "Unbalanced remainder is:";
                 entry_context (this unbalanced_entry) "While balancing entry:"]),
       unbalanced_entry).
Proof.
  split.
  - etrans; [apply finalize_without_costs|vm_compute; reflexivity].
    + solve_live.
    + intros p X Hp HX. solve_member Hp; vm_compute in HX; by injection HX as <-.
    + vm_compute. reflexivity.
    + intros amounts Hb. vm_compute in Hb. discriminate.
    + reflexivity.
    + left. reflexivity.
  - etrans; [apply finalize_without_costs|vm_compute; reflexivity].
    + solve_live.
    + intros p X Hp HX. solve_member Hp; vm_compute in HX; by injection HX as <-.
    + vm_compute. reflexivity.
    + intros amounts Hb. vm_compute in Hb. discriminate.
    + reflexivity.
    + left. reflexivity.
Defined.

(** The null posting of [+10 USD], null: it gets its amount and the
    calculated flag, and keeps its account and the rest. *)
Lemma finalize_keeps_details_witness :
  ∃ X', heap (finalize single_null_entry).2 !! 2%positive = Some X'
        ∧ account X' = "Equity" ∧ state X' = UNCLEARED
        ∧ (flags X' = XACT_NORMAL ∨ flags X' = XACT_CALCULATED).
Proof.
  destruct (finalize_keeps_details single_null_entry 2%positive
              (posting "Equity" None) eq_refl)
    as (X' & HX' & Ha & Hs & _ & _ & _ & _ & _ & _ & _ & _ & Hf).
  exists X'. split; [done|]. split; [done|]. split; [done|]. exact Hf.
Defined.

(** The posting to the budget is virtual: the null posting next to it gets
    [-10 USD] and it stays as it is. *)
Lemma finalize_spares_virtual_witness :
  (finalize budget_entry).1 = Ok true
  ∧ heap (finalize budget_entry).2 !! 3%positive
    = Some (new_xact "Budget:Food" (USD 5) XACT_VIRTUAL).
Proof.
  split; [vm_compute; reflexivity|].
  apply (finalize_spares_virtual budget_entry 3%positive); reflexivity.
Defined.

(** One posting matches and one template is for the pre mode: one posting
    more. *)
Lemma extend_entry_count_witness :
  length (xacts (this (extend_entry food_tax false template_world).2)) = 3%nat.
Proof.
  etrans; [apply (extend_entry_count food_tax false template_world)|].
  - solve_live.
  - solve_live.
  - vm_compute. reflexivity.
  - vm_compute. reflexivity.
Defined.

(** The entry that lists its posting twice: the destructor deletes it and
    reads it again. *)
Lemma entry_base_destroy_safe_witness :
  (∃ log w', entry_base_destroy kept_entry = (Ok log, w'))
  ∧ ∃ w', entry_base_destroy doubled_entry = (Throw invalid_pointer, w').
Proof.
  split.
  - apply (proj1 (entry_base_destroy_safe kept_entry ltac:(solve_live))).
    apply (bool_decide_unpack _). vm_compute. reflexivity.
  - apply (proj2 (entry_base_destroy_safe doubled_entry ltac:(solve_live))).
    apply (bool_decide_unpack _). vm_compute. reflexivity.
Defined.

(** The posting of the entry's own is deleted, the posting of the cache is
    destructed in place, the temporary stays. *)
Lemma entry_base_destroy_effect_witness :
  entry_base_destroy kept_entry
  = (Ok [deleted 1%positive; destructed 3%positive],
     (entry_base_destroy kept_entry).2)
  ∧ heap (entry_base_destroy kept_entry).2 !! 1%positive = None
  ∧ heap (entry_base_destroy kept_entry).2 !! 2%positive
    = Some (new_xact "Scratch" (USD 1) XACT_TEMP)
  ∧ heap (entry_base_destroy kept_entry).2 !! 3%positive = None.
Proof.
  assert (Hrun : entry_base_destroy kept_entry
                 = (Ok [deleted 1%positive; destructed 3%positive],
                    (entry_base_destroy kept_entry).2))
    by (vm_compute; reflexivity).
  split; [done|].
  destruct (entry_base_destroy_effect _ _ _ Hrun) as [_ Hheap].
  rewrite !Hheap. vm_compute. done.
Defined.

(** The copy of the entry of two postings has the postings 3 and 4. *)
Lemma entry_base_copy_deep_witness :
  ∃ w',
    entry_base_copy (this balanced_entry) balanced_entry = (Ok tt, w')
    ∧ xacts (this w') = [3%positive; 4%positive]
    ∧ heap w' !! 3%positive = Some (posting "Assets" (USD 10))
    ∧ heap balanced_entry ⊆ heap w'
    ∧ journal (this w') = None.
Proof.
  destruct (entry_base_copy_deep (this balanced_entry) balanced_entry
              ltac:(solve_live))
    as (w' & Hrun & _ & _ & Hsub & Hjournal & _).
  exists w'. split; [done|].
  assert (Hw' : w' = (entry_base_copy (this balanced_entry) balanced_entry).2)
    by by rewrite Hrun.
  split; [rewrite Hw'; vm_compute; reflexivity|].
  split; [rewrite Hw'; vm_compute; reflexivity|]. done.
Defined.

Lemma copy_then_destroy_witness :
  ∃ log w',
    (entry_base_copy (this balanced_entry) ;;; entry_base_destroy) balanced_entry
    = (Ok log, w')
    ∧ heap w' = heap balanced_entry
    ∧ length log = 2%nat.
Proof.
  apply (copy_then_destroy (this balanced_entry) balanced_entry).
  - solve_live.
  - intros p X Hp HX. solve_member Hp; vm_compute in HX; by injection HX as <-.
Defined.

(** The copy of the dated entry, made at the address 2. *)
Lemma entry_copy_refers_back_witness :
  ∃ s',
    entry_t.copy dated_entry second_scene = (Ok tt, s')
    ∧ length (xacts (this (entry_t.base s'))) = 2%nat
    ∧ (∀ n, n ∈ xacts (this (entry_t.base s')) →
            entry_t.entry_of s' !! n = Some 2%positive)
    ∧ entry_t.valid s' = Ok false.
Proof.
  destruct (entry_copy_refers_back dated_entry second_scene ltac:(solve_live))
    as (s' & Hrun & Hself & Hlen & Hback & _ & _ & Hvalid).
  exists s'. split; [done|]. split; [done|]. split; [|done].
  intros n Hn. etrans; [exact (Hback n Hn)|]. exact (f_equal Some Hself).
Defined.

(** The dated entry is valid: it has a date and a journal, and its two
    postings refer back to it. *)
Lemma valid_iff_all_witness : entry_t.valid dated_scene = Ok true.
Proof. exact (valid_iff_all dated_scene ltac:(solve_live)). Defined.

(** The second entry takes the first posting of the dated entry, which is
    not valid any more. *)
Lemma add_xact_takes_over_witness :
  entry_t.entry_of (entry_t.add_xact 1%positive second_scene).2 !! 1%positive
  = Some 2%positive
  ∧ entry_t.valid
      {| entry_t.base :=
           {| heap := heap (entry_t.base (entry_t.add_xact 1%positive second_scene).2);
              this := dated_entry |};
         entry_t.entry_of := entry_t.entry_of (entry_t.add_xact 1%positive second_scene).2;
         entry_t.self := 1%positive |}
    = Ok false.
Proof.
  destruct (add_xact_takes_over 1%positive second_scene
              (entry_t.add_xact 1%positive second_scene).2 dated_entry 1%positive)
    as (_ & Hback & Hvalid).
  - vm_compute. reflexivity.
  - apply list_elem_of_here.
  - discriminate.
  - solve_live.
  - by split.
Defined.

(** The posting to the taxes that the first automated entry appends is
    expanded by the second. *)
Lemma extend_entry_base_cascades_witness :
  (∃ news,
     xacts (this (extend_entry food_tax false template_world).2)
     = xacts (this template_world) ++ news
     ∧ extend_entry_base cascade_journal false template_world
       = extend_matched tax_on_tax false
           (matched_sources tax_on_tax (heap template_world)
              (xacts (this template_world))
            ++ matched_sources tax_on_tax
                 (heap (extend_entry food_tax false template_world).2) news)
           (extend_entry food_tax false template_world).2)
  ∧ xacts (this (extend_entry_base cascade_journal false template_world).2)
    = [1%positive; 2%positive; 5%positive; 6%positive].
Proof.
  split; [|vm_compute; reflexivity].
  apply (extend_entry_base_cascades cascade_journal food_tax tax_on_tax).
  - reflexivity.
  - solve_live.
  - vm_compute. reflexivity.
Defined.

(** Without a match the template is not read; with one, its unset amount
    stops the expansion. *)
Lemma extend_entry_needs_amounts_witness :
  extend_entry never_matches false single_null_entry = (Ok tt, single_null_entry)
  ∧ ∃ e w', extend_entry null_template false single_null_entry = (Throw e, w').
Proof.
  split.
  - apply (proj1 (extend_entry_needs_amounts never_matches false single_null_entry
                    ltac:(solve_live))).
    vm_compute. reflexivity.
  - apply (proj2 (extend_entry_needs_amounts null_template false single_null_entry
                    ltac:(solve_live)) 2%positive (posting "Equity" None)).
    + vm_compute. discriminate.
    + apply list_elem_of_here.
    + reflexivity.
    + reflexivity.
Defined.

(** [10 USD] at the cost of [10 USD]: the assertion fails. *)
Lemma finalize_rejects_cost_in_commodity_witness :
  ∃ e w', finalize same_commodity_entry = (Throw e, w').
Proof.
  eapply (finalize_rejects_cost_in_commodity same_commodity_entry 1%positive).
  - apply list_elem_of_here.
  - reflexivity.
  - reflexivity.
  - reflexivity.
  - vm_compute. reflexivity.
Defined.

(** The posting made from the temporary at 2 is a temporary, which the
    destructor leaves alone; the one made from the posting of the cache at
    3 is destructed in place. *)
Lemma auto_posting_owned_as_template_witness :
  owned (heap (apply_template false 1%positive 2%positive kept_entry).2) 4%positive
  = false
  ∧ disposal_at (heap (apply_template false 1%positive 3%positive kept_entry).2)
      4%positive
    = destructed 4%positive.
Proof.
  assert (Hgrown : ∀ t,
    length (xacts (this (apply_template false 1%positive t kept_entry).2)) = 4%nat →
    (apply_template false 1%positive t kept_entry).2 ≠ kept_entry).
  { intros t Hlen Heq. rewrite Heq in Hlen. vm_compute in Hlen. discriminate. }
  pose proof (λ t ta Ht,
    auto_posting_owned_as_template false 1%positive t ta kept_entry
      (apply_template false 1%positive t kept_entry).2 Ht) as Hmade.
  assert (H2 : heap kept_entry !! 2%positive
               = Some (new_xact "Scratch" (USD 1) XACT_TEMP)) by reflexivity.
  assert (H3 : heap kept_entry !! 3%positive
               = Some (new_xact "Cached" (USD 2) XACT_IN_CACHE)) by reflexivity.
  split.
  - destruct (Hmade 2%positive _ H2) as (x & _ & _ & Hown & _).
    + vm_compute. reflexivity.
    + apply Hgrown. vm_compute. reflexivity.
    + exact Hown.
  - destruct (Hmade 3%positive _ H3) as (x & _ & _ & _ & Hend).
    + vm_compute. reflexivity.
    + apply Hgrown. vm_compute. reflexivity.
    + exact Hend.
Defined.

End RationalChecks.
